(** * Glue shaders of the LGC pipeline linker: fetch shader and copy shader

    A shallow embedding of [lgc/elfLinker/FetchShader.cpp] and
    [lgc/patch/llpcPatchCopyShader.cpp].  Both files drive an LLVM IR builder;
    the embedding keeps the IR they create as data (types, values,
    instructions, basic blocks) and turns every routine that inserts
    instructions into a function returning the instructions it inserted. *)

From Stdlib Require Import ZArith NArith List Ascii String Lia.
From stdpp Require Import gmap strings list sorting pretty.

Set Warnings "-register-all".
Open Scope N_scope.

(* ===================================================================== *)
(** ** The fragment of LLVM IR the two generators create                 *)
(* ===================================================================== *)

Module IR.

(** LLVM first-class types, as far as the generators name them. *)
Inductive Ty : Type :=
| VoidTy
| IntegerTy (bits : N)
| HalfTy
| FloatTy
| DoubleTy
| VectorTy (elem : Ty) (count : N)
| ArrayTy (elem : Ty) (count : N)
| StructTy (fields : list Ty)
| PointerTy (pointee : Ty) (addrSpace : N).

Definition Int16Ty := IntegerTy 16.
Definition Int32Ty := IntegerTy 32.
Definition Int64Ty := IntegerTy 64.

Definition isArrayTy (t : Ty) : bool :=
  match t with ArrayTy _ _ => true | _ => false end.
Definition isVectorTy (t : Ty) : bool :=
  match t with VectorTy _ _ => true | _ => false end.
Definition isFloatTy (t : Ty) : bool :=
  match t with FloatTy => true | _ => false end.
Definition isIntegerTy (w : N) (t : Ty) : bool :=
  match t with IntegerTy b => b =? w | _ => false end.

(** [Type::getScalarType]: the element type of a vector, the type itself
    otherwise. *)
Definition getScalarType (t : Ty) : Ty :=
  match t with VectorTy e _ => e | _ => t end.

(** [Type::getPrimitiveSizeInBits] of a scalar: zero for types without a
    primitive size. *)
Definition primitiveSizeInBits (t : Ty) : N :=
  match t with
  | IntegerTy b => b
  | HalfTy => 16
  | FloatTy => 32
  | DoubleTy => 64
  | _ => 0
  end.

(** [Type::getScalarSizeInBits]. *)
Definition getScalarSizeInBits (t : Ty) : N :=
  primitiveSizeInBits (getScalarType t).

Definition isFPOrFPVectorTy (t : Ty) : bool :=
  match getScalarType t with
  | HalfTy | FloatTy | DoubleTy => true
  | _ => false
  end.

(** [Type::isSingleValueType]: integers, floating point, pointers, vectors. *)
Definition isSingleValueType (t : Ty) : bool :=
  match t with
  | IntegerTy _ | HalfTy | FloatTy | DoubleTy | VectorTy _ _ | PointerTy _ _ => true
  | _ => false
  end.

(** Equality of types (LLVM types are uniqued, so the source compares
    pointers). *)
Fixpoint Ty_eqb (a b : Ty) : bool :=
  match a, b with
  | VoidTy, VoidTy => true
  | IntegerTy x, IntegerTy y => x =? y
  | HalfTy, HalfTy => true
  | FloatTy, FloatTy => true
  | DoubleTy, DoubleTy => true
  | VectorTy e1 n1, VectorTy e2 n2 => Ty_eqb e1 e2 && (n1 =? n2)
  | ArrayTy e1 n1, ArrayTy e2 n2 => Ty_eqb e1 e2 && (n1 =? n2)
  | StructTy fs1, StructTy fs2 =>
      (fix all2 (l1 l2 : list Ty) : bool :=
         match l1, l2 with
         | [], [] => true
         | x :: l1', y :: l2' => Ty_eqb x y && all2 l1' l2'
         | _, _ => false
         end) fs1 fs2
  | PointerTy p1 a1, PointerTy p2 a2 => Ty_eqb p1 p2 && (a1 =? a2)
  | _, _ => false
  end.

Definition BlockId := nat.

(** Modelled from the spec: [VertexInputDescription] is declared outside the
    two files.  The spec describes it as the layout metadata of one vertex
    attribute: buffer binding, stride, offset and format. *)
Record VertexInputDescription : Type := {
  binding : N;
  stride : N;
  offset : N;
  format : N
}.

(** AMDGPU intrinsics the generators call. *)
Inductive IntrinsicID : Type :=
| amdgcn_ubfe
| amdgcn_s_getpc
| amdgcn_raw_buffer_load
| amdgcn_init_exec_from_input.

(** The [lgcName::] prefixes of the named calls; the text of each prefix is
    declared outside the two files, so a call name is kept as the prefix
    constant and the suffix the generator appends to it. *)
Inductive lgcName : Type :=
| OutputExportGeneric
| OutputExportBuiltIn
| OutputExportXfb
| NggGsOutputImport.

Inductive MetadataKind : Type :=
| MetaNameUniform
| MD_invariant_load.

(** The casts the generators create through the builder. *)
Inductive CastOp : Type :=
| BitCast
| Trunc.

(** Values.  As in LLVM an instruction is the value it computes, so one type
    holds constants, arguments and instructions; a basic block is the list of
    its instructions in order.  [ConstantExpr] is the constant the builder's
    folder returns for a cast of a constant: a constant of the destination
    type, kept as the cast it stands for. *)
Inductive Value : Type :=
| UndefValue (ty : Ty)
| ConstantInt (bits : N) (n : N)
| ConstantFP (ty : Ty) (n : Z)
| ConstantVector (elems : list Value)
| Argument (idx : N) (ty : Ty)
| GlobalVariable (name : string) (ty : Ty) (alignment : N)
| CallInst (base : lgcName) (suffix : string) (retTy : Ty) (args : list Value)
| IntrinsicInst (id : IntrinsicID) (retTy : Ty) (args : list Value)
| FetchVertexInst (ty : Ty) (description : VertexInputDescription) (location component : N)
| BitCastInst (v : Value) (ty : Ty)
| TruncInst (v : Value) (ty : Ty)
| IntToPtrInst (v : Value) (ty : Ty) (md : list MetadataKind)
| AddInst (a b : Value)
| MulInst (a b : Value)
| GetElementPtrInst (ptr : Value) (indices : list Value) (ty : Ty)
| LoadInst (ptr : Value) (ty : Ty) (align : option N) (md : list MetadataKind)
| InsertValueInst (agg v : Value) (idx : N)
| InsertElementInst (vec v : Value) (idx : N)
| ExtractElementInst (vec : Value) (idx : N) (ty : Ty)
| ReturnInst (v : option Value)
| BranchInst (dest : BlockId)
| SwitchInst (cond : Value) (defaultDest : BlockId) (cases : list (N * BlockId))
| ConstantExpr (op : CastOp) (c : Value) (ty : Ty).

Record BasicBlock : Type := {
  bbId : BlockId;
  bbName : string;
  bbInsts : list Value
}.

(** A function under construction: its signature, the attributes and
    metadata the generators set, and its blocks in layout order. *)
Record Function : Type := {
  fnName : string;
  fnCallingConv : N;
  fnRetTy : Ty;
  fnArgTys : list Ty;
  fnInReg : list N;
  fnArgNames : gmap N string;
  fnAttrs : list (string * string);
  fnMetadata : list (string * N);
  fnBlocks : list BasicBlock
}.

Definition setBlocks (f : Function) (blocks : list BasicBlock) : Function :=
  {| fnName := fnName f; fnCallingConv := fnCallingConv f; fnRetTy := fnRetTy f;
     fnArgTys := fnArgTys f; fnInReg := fnInReg f; fnArgNames := fnArgNames f;
     fnAttrs := fnAttrs f; fnMetadata := fnMetadata f; fnBlocks := blocks |}.

(** [Value::getType]. *)
Fixpoint getType (v : Value) : Ty :=
  match v with
  | UndefValue ty => ty
  | ConstantInt bits _ => IntegerTy bits
  | ConstantFP ty _ => ty
  | ConstantVector elems =>
      VectorTy (match elems with e :: _ => getType e | [] => VoidTy end)
               (N.of_nat (length elems))
  | Argument _ ty => ty
  | GlobalVariable _ ty _ => ty
  | CallInst _ _ retTy _ => retTy
  | IntrinsicInst _ retTy _ => retTy
  | FetchVertexInst ty _ _ _ => ty
  | BitCastInst _ ty => ty
  | TruncInst _ ty => ty
  | IntToPtrInst _ ty _ => ty
  | AddInst a _ => getType a
  | MulInst a _ => getType a
  | GetElementPtrInst _ _ ty => ty
  | LoadInst _ ty _ _ => ty
  | InsertValueInst agg _ _ => getType agg
  | InsertElementInst vec _ _ => getType vec
  | ExtractElementInst _ _ ty => ty
  | ReturnInst _ => VoidTy
  | BranchInst _ => VoidTy
  | SwitchInst _ _ _ => VoidTy
  | ConstantExpr _ _ ty => ty
  end.

(** [isa<Constant>]. *)
Definition isConstant (v : Value) : bool :=
  match v with
  | UndefValue _ | ConstantInt _ _ | ConstantFP _ _ | ConstantVector _
  | GlobalVariable _ _ _ | ConstantExpr _ _ _ => true
  | _ => false
  end.

(** [StructType::getElementType]. *)
Definition getElementType (t : Ty) (idx : N) : Ty :=
  match t with
  | StructTy fields => nth (N.to_nat idx) fields VoidTy
  | _ => VoidTy
  end.

(** Modelled from the spec: [getTypeName] (written [GetTypeName] in the copy
    shader) is declared outside the two files.  It names a value type by what
    the spec lists for it (scalar or vector, element width, integer or
    float) in LLVM's mangling: [i<bits>] or [f<bits>] for a scalar, with
    [v<count>], [a<count>] or [p<addrspace>] in front for a vector, an
    array or a pointer. *)
Fixpoint getTypeName (t : Ty) : string :=
  match t with
  | VoidTy => "V"
  | IntegerTy bits => "i" +:+ pretty bits
  | HalfTy => "f16"
  | FloatTy => "f32"
  | DoubleTy => "f64"
  | VectorTy elem count => "v" +:+ pretty count +:+ getTypeName elem
  | ArrayTy elem count => "a" +:+ pretty count +:+ getTypeName elem
  | PointerTy pointee addrSpace => "p" +:+ pretty addrSpace +:+ getTypeName pointee
  | StructTy fields =>
      "s["
      +:+ (fix join (l : list Ty) : string :=
             match l with
             | [] => ""
             | [f] => getTypeName f
             | f :: l' => getTypeName f +:+ "," +:+ join l'
             end) fields
      +:+ "]"
  end.

(** *** Inserting instructions

    A routine that takes a [BuilderBase&] appends instructions at the
    builder's insertion point and may hit an assertion.  Its embedding
    returns the value it computes together with the instructions it
    appended, in order, or the failed assertion. *)
Inductive Result (A : Type) : Type :=
| Ok (a : A)
| AssertionFailed (what : string).
Arguments Ok {A} a.
Arguments AssertionFailed {A} what.

Definition Builder (A : Type) : Type := Result (A * list Value).

Definition ret {A} (a : A) : Builder A := Ok (a, []).

Definition bind {A B} (m : Builder A) (f : A -> Builder B) : Builder B :=
  match m with
  | Ok (a, insts1) =>
      match f a with
      | Ok (b, insts2) => Ok (b, insts1 ++ insts2)
      | AssertionFailed what => AssertionFailed what
      end
  | AssertionFailed what => AssertionFailed what
  end.

(** Append one instruction at the insertion point; the instruction is the
    value it computes. *)
Definition insert (i : Value) : Builder Value := Ok (i, [i]).

Definition assert (cond : bool) (what : string) : Builder unit :=
  if cond then ret tt else AssertionFailed what.

(** [IRBuilder::CreateBitCast]: no instruction when the value already has
    the destination type; for a constant the builder's folder returns a
    constant, and no instruction is inserted either. *)
Definition CreateBitCast (v : Value) (destTy : Ty) : Builder Value :=
  if Ty_eqb (getType v) destTy then ret v
  else if isConstant v then ret (ConstantExpr BitCast v destTy)
  else insert (BitCastInst v destTy).

(** The instructions a routine appended. *)
Definition emitted {A} (m : Builder A) : option (list Value) :=
  match m with Ok (_, insts) => Some insts | AssertionFailed _ => None end.

(** *** Observations on the created IR *)

(** The value of field [idx] of an aggregate built by [insertvalue]
    instructions: the value inserted last at that index, undefined if
    none was. *)
Fixpoint structField (agg : Value) (idx : N) : Value :=
  match agg with
  | InsertValueInst agg' v i => if i =? idx then v else structField agg' idx
  | _ => UndefValue (getElementType (getType agg) idx)
  end.

(** The number of instructions of a block that satisfy [p]. *)
Fixpoint countInsts (p : Value -> bool) (insts : list Value) : nat :=
  match insts with
  | [] => 0
  | i :: insts' => (if p i then 1 else 0) + countInsts p insts'
  end.

(** A routine, when it fails no assertion, returns a value satisfying [Q]
    and appends only instructions satisfying [P]. *)
Definition satisfies {A} (m : Builder A) (Q : A -> Prop) (P : Value -> Prop) : Prop :=
  match m with
  | Ok (a, insts) => Q a /\ Forall P insts
  | AssertionFailed _ => True
  end.

Definition isConstantVector (v : Value) : bool :=
  match v with ConstantVector _ => true | _ => false end.

Definition notConstantVector (v : Value) : Prop := isConstantVector v = false.

Definition isSwitch (i : Value) : bool :=
  match i with SwitchInst _ _ _ => true | _ => false end.

Definition isTrunc (i : Value) : bool :=
  match i with TruncInst _ _ => true | _ => false end.

End IR.

Export IR.

Declare Scope builder_scope.
Delimit Scope builder_scope with builder.
Notation "x <- m ;; k" := (IR.bind m (fun x => k))
  (at level 100, m at next level, right associativity) : builder_scope.
Notation "m ;;; k" := (IR.bind m (fun _ => k))
  (at level 100, right associativity) : builder_scope.

(* ===================================================================== *)
(** ** lgc/elfLinker/FetchShader.cpp                                     *)
(* ===================================================================== *)

Module FetchShader.

(** A [std::string] used as a byte buffer. *)
Abbreviation bytes := (list ascii).

(** The object representation of an [unsigned]: four bytes, least
    significant first. *)
Definition unsigned_bytes (n : N) : bytes :=
  [ ascii_of_N (n mod 256);
    ascii_of_N ((n / 256) mod 256);
    ascii_of_N ((n / 65536) mod 256);
    ascii_of_N ((n / 16777216) mod 256) ].

Record VertexFetchInfo : Type := {
  location : N;
  component : N;
  ty : Ty
}.

(** An object of the structure: its members, and the bytes its storage
    holds between and after the members.  These padding bytes belong to no
    member; C++ gives them no value and does not say what a copy of the
    object holds there. *)
Record VsEntryRegInfo : Type := {
  callingConv : N;
  vertexBufferTable : N;
  baseVertex : N;
  baseInstance : N;
  sgprCount : N;
  vertexId : N;
  instanceId : N;
  vgprCount : N;
  wave32 : bool;
  padding : bytes
}.

(** [llvm::CallingConv::AMDGPU_HS] and [AMDGPU_GS]. *)
Definition AMDGPU_HS : N := 93.
Definition AMDGPU_GS : N := 88.

(** What the file uses and other files of the repository declare: the
    object representations ([sizeof] bytes each) of the two structures whose
    memory [getString] reads, the one of the register information with the
    bytes of its padding, the VGPR type of a fetched value, and the name of
    the glue shader. *)
Class Declarations : Type := {
  VsEntryRegInfo_bytes : VsEntryRegInfo -> bytes;
  VertexInputDescription_bytes : VertexInputDescription -> bytes;
  getVgprTy : Ty -> Ty;
  getGlueShaderName : string
}.

(** Memory holding the vertex input descriptions, by address; a
    [const VertexInputDescription *] is an address or null. *)
Abbreviation Memory := (gmap N VertexInputDescription).
Abbreviation pointer := (option N).

Record LgcContext : Type := {
  gfxIpMajor : N
}.

Record PipelineState : Type := {
  getLgcContext : LgcContext;
  memory : Memory;
  findVertexInputDescription : N -> pointer
}.

Record FetchShader : Type := {
  m_lgcContext : LgcContext;
  m_vsEntryRegInfo : VsEntryRegInfo;
  m_fetches : list VertexFetchInfo;
  m_fetchDescriptions : list pointer;
  m_shaderString : bytes
}.

(** The constructor.  The member [m_vsEntryRegInfo] is initialised from the
    argument: it gets the argument's member values, and [vsEntryRegInfo]
    stands for the member as the copy leaves it, with whatever bytes its
    padding then holds. *)
Definition new (pipelineState : PipelineState) (fetches : list VertexFetchInfo)
    (vsEntryRegInfo : VsEntryRegInfo) : FetchShader :=
  {| m_lgcContext := getLgcContext pipelineState;
     m_vsEntryRegInfo := vsEntryRegInfo;
     m_fetches := fetches;
     m_fetchDescriptions :=
       map (fun fetch => findVertexInputDescription pipelineState (location fetch)) fetches;
     m_shaderString := [] |}.

Section WithDeclarations.
Context `{Declarations}.

(** The body of the first loop of [getString]. *)
Definition appendFetchInfo (shaderString : bytes) (fetchInfo : VertexFetchInfo) : bytes :=
  let shaderString := shaderString ++ unsigned_bytes (location fetchInfo) in
  let shaderString := shaderString ++ unsigned_bytes (component fetchInfo) in
  shaderString ++ list_ascii_of_string (getTypeName (ty fetchInfo)).

(** The body of the second loop: a null description adds one zero byte,
    another one the bytes it points to.  Reading an address that holds no
    description has no defined result. *)
Definition appendDescription (mem : Memory) (shaderString : option bytes)
    (description : pointer) : option bytes :=
  match shaderString, description with
  | None, _ => None
  | Some s, None => Some (s ++ [zero])
  | Some s, Some addr =>
      match mem !! addr with
      | Some d => Some (s ++ VertexInputDescription_bytes d)
      | None => None
      end
  end.

(** The string built when the cached one is empty. *)
Definition buildString (mem : Memory) (fs : FetchShader) : option bytes :=
  let shaderString := foldl appendFetchInfo (m_shaderString fs) (m_fetches fs) in
  let shaderString := shaderString ++ VsEntryRegInfo_bytes (m_vsEntryRegInfo fs) in
  foldl (appendDescription mem) (Some shaderString) (m_fetchDescriptions fs).

(** [FetchShader::getString]: the string, and the object with the string
    cached in [m_shaderString]. *)
Definition getString (mem : Memory) (fs : FetchShader) : option (bytes * FetchShader) :=
  match m_shaderString fs with
  | [] =>
      match buildString mem fs with
      | Some s =>
          Some (s, {| m_lgcContext := m_lgcContext fs;
                      m_vsEntryRegInfo := m_vsEntryRegInfo fs;
                      m_fetches := m_fetches fs;
                      m_fetchDescriptions := m_fetchDescriptions fs;
                      m_shaderString := s |})
      | None => None
      end
  | s => Some (s, fs)
  end.

(** The types of the return structure in [createFetchFunc]. *)
Definition returnFieldTypes (fs : FetchShader) : list Ty :=
  let info := m_vsEntryRegInfo fs in
  replicate (N.to_nat (sgprCount info)) Int32Ty
  ++ replicate (N.to_nat (vgprCount info)) FloatTy
  ++ map (fun fetch => getVgprTy (ty fetch)) (m_fetches fs).

(** [Function::getArg], which asserts that the function has the
    argument. *)
Definition getArg (argTys : list Ty) (idx : N) : Builder Value :=
  match argTys !! N.to_nat idx with
  | Some t => ret (Argument idx t)
  | None => AssertionFailed "getArg() out of range!"
  end.

(** The loop that copies the wave dispatch SGPRs and VGPRs to the return
    value: [count] insertions starting at index [i]; every argument it
    takes exists. *)
Fixpoint copyInputs (argTys : list Ty) (count : nat) (i : N) (retVal : Value)
    : Builder Value :=
  match count with
  | O => ret retVal
  | S count' =>
      (retVal <- insert (InsertValueInst retVal
                           (Argument i (nth (N.to_nat i) argTys VoidTy)) i) ;;
       copyInputs argTys count' (i + 1) retVal)%builder
  end.

(** [FetchShader::createFetchFunc].  The function has one block; its
    instructions end with the return of the seeded value.  The arguments
    that get a name and the argument of the merged wave info are taken by
    [getArg] at the numbers the register information gives, in the order
    of the source; the arguments marked [inreg] are below [sgprCount] and
    exist. *)
Definition createFetchFunc (fs : FetchShader) : Result Function :=
  let info := m_vsEntryRegInfo fs in
  let types := returnFieldTypes fs in
  let retTy := StructTy types in
  let entryCount := N.to_nat (sgprCount info + vgprCount info) in
  let entryTys := take entryCount types in
  let argNames : gmap N string :=
    <[sgprCount info + instanceId info := "InstanceId"%string]>
      (<[sgprCount info + vertexId info := "VertexId"%string]>
        (<[baseInstance info := "BaseInstance"%string]>
          (<[baseVertex info := "BaseVertex"%string]>
            (<[vertexBufferTable info := "VertexBufferTable"%string]> ∅)))) in
  let attrs :=
    if 10 <=? gfxIpMajor (m_lgcContext fs)
    then [("target-features",
           if wave32 info then "+wavefrontsize32" else "+wavefrontsize64")%string]
    else [] in
  let body : Builder unit :=
    (getArg entryTys (vertexBufferTable info) ;;;
     getArg entryTys (baseVertex info) ;;;
     getArg entryTys (baseInstance info) ;;;
     getArg entryTys (sgprCount info + vertexId info) ;;;
     getArg entryTys (sgprCount info + instanceId info) ;;;
     (if (callingConv info =? AMDGPU_HS) || (callingConv info =? AMDGPU_GS)
      then
        (mergedWaveInfo <- getArg entryTys 3 ;;
         insert (IntrinsicInst amdgcn_init_exec_from_input VoidTy
                   [mergedWaveInfo; ConstantInt 32 0]))
      else ret (UndefValue VoidTy)) ;;;
     retVal <- copyInputs entryTys entryCount 0 (UndefValue retTy) ;;
     insert (ReturnInst (Some retVal)) ;;;
     ret tt)%builder in
  match body with
  | Ok (_, insts) =>
      Ok {| fnName := getGlueShaderName;
            fnCallingConv := callingConv info;
            fnRetTy := retTy;
            fnArgTys := entryTys;
            fnInReg := map N.of_nat (seq 0 (N.to_nat (sgprCount info)));
            fnArgNames := argNames;
            fnAttrs := attrs;
            fnMetadata := [];
            fnBlocks := [ {| bbId := 0%nat; bbName := ""; bbInsts := insts |} ] |}
  | AssertionFailed what => AssertionFailed what
  end.

(** The index of the return structure's field for fetch [idx]. *)
Definition structIdx (info : VsEntryRegInfo) (idx : N) : N :=
  idx + sgprCount info + vgprCount info.

(** The body of the loop of [generate] over the fetches. *)
Definition fetchOne (mem : Memory) (fs : FetchShader) (idx : N)
    (result : Value) : Builder Value :=
  let info := m_vsEntryRegInfo fs in
  match m_fetches fs !! N.to_nat idx, m_fetchDescriptions fs !! N.to_nat idx with
  | Some fetch, Some description =>
      let structIdx := structIdx info idx in
      match description with
      | Some addr =>
          match mem !! addr with
          | Some d =>
              (vertex <- insert (FetchVertexInst (ty fetch) d (location fetch)
                                   (component fetch)) ;;
               let ty := getElementType (getType result) structIdx in
               vertex <- CreateBitCast vertex ty ;;
               insert (InsertValueInst result vertex structIdx))%builder
          | None => AssertionFailed "description points to no object"
          end
      | None => ret result
      end
  | _, _ => AssertionFailed "idx < size()"
  end.

Fixpoint fetchLoop (mem : Memory) (fs : FetchShader) (count : nat) (idx : N)
    (result : Value) : Builder Value :=
  match count with
  | O => ret result
  | S count' =>
      (result <- fetchOne mem fs idx result ;;
       fetchLoop mem fs count' (idx + 1) result)%builder
  end.

(** [FetchShader::generate], up to the point where the return value is
    final: the fetches are inserted before the return instruction of the
    last block and the return's operand is replaced.  (The loop that follows
    in the source rewrites the placeholder calls made inside [fetchVertex],
    which stay inside [FetchVertexInst] here; it inserts nothing into the
    return value.) *)
Definition generate (mem : Memory) (fs : FetchShader) : Result Function :=
  match createFetchFunc fs with
  | Ok fetchFunc =>
      match reverse (fnBlocks fetchFunc) with
      | back :: front =>
          match reverse (bbInsts back) with
          | ReturnInst (Some result) :: before =>
              match fetchLoop mem fs (length (m_fetches fs)) 0 result with
              | Ok (result, insts) =>
                  Ok (setBlocks fetchFunc
                        (reverse front ++
                         [ {| bbId := bbId back; bbName := bbName back;
                              bbInsts := reverse before ++ insts
                                         ++ [ReturnInst (Some result)] |} ]))
              | AssertionFailed what => AssertionFailed what
              end
          | _ => AssertionFailed "cast<ReturnInst>"
          end
      | [] => AssertionFailed "back() of an empty function"
      end
  | AssertionFailed what => AssertionFailed what
  end.

End WithDeclarations.

(** *** Observations and inputs used by the statements *)

(** What a description pointer refers to. *)
Inductive Pointee : Type :=
| Null
| Object (d : VertexInputDescription)
| Dangling.

Definition pointee (mem : Memory) (p : pointer) : Pointee :=
  match p with
  | None => Null
  | Some addr => match mem !! addr with Some d => Object d | None => Dangling end
  end.

(** The description the pipeline state has for a location. *)
Definition described (ps : PipelineState) (loc : N) : Pointee :=
  pointee (memory ps) (findVertexInputDescription ps loc).

(** Whether the function has the arguments [createFetchFunc] takes from
    it: the registers of the vertex buffer table, the base vertex, the base
    instance, the vertex id and the instance id and, for a merged shader,
    SGPR 3. *)
Definition argsInRange (info : VsEntryRegInfo) : bool :=
  let argCount := sgprCount info + vgprCount info in
  (vertexBufferTable info <? argCount)
  && (baseVertex info <? argCount)
  && (baseInstance info <? argCount)
  && (sgprCount info + vertexId info <? argCount)
  && (sgprCount info + instanceId info <? argCount)
  && (negb ((callingConv info =? AMDGPU_HS) || (callingConv info =? AMDGPU_GS))
      || (3 <? argCount)).

(** The value types of vertex inputs: 8, 16, 32 or 64-bit integers, 16, 32
    or 64-bit floats, and vectors of two to four of them. *)
Definition isFetchScalarTy (t : Ty) : bool :=
  match t with
  | IntegerTy b => (b =? 8) || (b =? 16) || (b =? 32) || (b =? 64)
  | HalfTy | FloatTy | DoubleTy => true
  | _ => false
  end.

Definition isFetchTy (t : Ty) : bool :=
  match t with
  | VectorTy e n => isFetchScalarTy e && (2 <=? n) && (n <=? 4)
  | _ => isFetchScalarTy t
  end.

Definition fetchScalarTys : list Ty :=
  [IntegerTy 8; IntegerTy 16; IntegerTy 32; IntegerTy 64; HalfTy; FloatTy; DoubleTy].

Definition fetchTys : list Ty :=
  fetchScalarTys ++ flat_map (fun n => map (fun e => VectorTy e n) fetchScalarTys) [2; 3; 4].

(** A fetch whose numbers fit an [unsigned] and whose type is a vertex input
    type. *)
Definition wellFormedFetch (f : VertexFetchInfo) : Prop :=
  location f < 2 ^ 32 /\ component f < 2 ^ 32 /\ isFetchTy (ty f) = true.

Fixpoint prefixb (l1 l2 : list ascii) : bool :=
  match l1, l2 with
  | [], _ => true
  | a :: l1', b :: l2' => Ascii.eqb a b && prefixb l1' l2'
  | _ :: _, [] => false
  end.

(** The value [generate] inserts into the field of a bound fetch: the
    fetched vertex, cast to the type of the field unless it has it. *)
Definition castField (fieldTy : Ty) (fetch : VertexFetchInfo) (d : VertexInputDescription)
    : Value :=
  let vertex := FetchVertexInst (ty fetch) d (location fetch) (component fetch) in
  if Ty_eqb (ty fetch) fieldTy then vertex else BitCastInst vertex fieldTy.

(** Two objects with the same member values. *)
Definition sameMembers (a b : VsEntryRegInfo) : Prop :=
  callingConv a = callingConv b
  /\ vertexBufferTable a = vertexBufferTable b
  /\ baseVertex a = baseVertex b
  /\ baseInstance a = baseInstance b
  /\ sgprCount a = sgprCount b
  /\ vertexId a = vertexId b
  /\ instanceId a = instanceId b
  /\ vgprCount a = vgprCount b
  /\ wave32 a = wave32 b.

(** One instance of the declarations, to run the model on inputs: the
    eight [unsigned] members in order, four bytes each, the [bool] in one
    byte and three bytes of padding after it (zero where the padding of
    the object is shorter); integer values go to VGPRs as floats of the
    same width. *)
Definition exampleDeclarations : Declarations :=
  {| VsEntryRegInfo_bytes := fun info =>
       unsigned_bytes (callingConv info) ++ unsigned_bytes (vertexBufferTable info)
       ++ unsigned_bytes (baseVertex info) ++ unsigned_bytes (baseInstance info)
       ++ unsigned_bytes (sgprCount info) ++ unsigned_bytes (vertexId info)
       ++ unsigned_bytes (instanceId info) ++ unsigned_bytes (vgprCount info)
       ++ [ascii_of_N (if wave32 info then 1 else 0)]
       ++ resize 3 zero (padding info);
     VertexInputDescription_bytes := fun d =>
       unsigned_bytes (binding d) ++ unsigned_bytes (stride d)
       ++ unsigned_bytes (offset d) ++ unsigned_bytes (format d);
     getVgprTy := fun t =>
       match t with
       | IntegerTy 32 => FloatTy
       | VectorTy (IntegerTy 32) n => VectorTy FloatTy n
       | _ => t
       end;
     getGlueShaderName := "lgc.shader.FETCH.main" |}.

(** The register layout of the spec's scenario: four SGPRs, two VGPRs; the
    padding holds zeros. *)
Definition exampleRegInfo : VsEntryRegInfo :=
  {| callingConv := 87; vertexBufferTable := 0; baseVertex := 1; baseInstance := 2;
     sgprCount := 4; vertexId := 0; instanceId := 1; vgprCount := 2; wave32 := false;
     padding := [zero; zero; zero] |}.

(** The same register layout in an object whose padding holds what was in
    its storage before. *)
Definition exampleRegInfoStale : VsEntryRegInfo :=
  {| callingConv := 87; vertexBufferTable := 0; baseVertex := 1; baseInstance := 2;
     sgprCount := 4; vertexId := 0; instanceId := 1; vgprCount := 2; wave32 := false;
     padding := [ascii_of_N 205; ascii_of_N 205; ascii_of_N 205] |}.

Definition exampleDescription : VertexInputDescription :=
  {| binding := 0; stride := 16; offset := 0; format := 13 |}.

(** Two pipeline states that describe location 0 alike, at different
    addresses, and have no description for any other location. *)
Definition examplePipelineAt (addr : N) : PipelineState :=
  {| getLgcContext := {| gfxIpMajor := 10 |};
     memory := {[ addr := exampleDescription ]};
     findVertexInputDescription := fun loc => if loc =? 0 then Some addr else None |}.

Definition exampleFetches : list VertexFetchInfo :=
  [ {| location := 0; component := 0; ty := VectorTy FloatTy 4 |};
    {| location := 1; component := 0; ty := FloatTy |} ].

(** Two fetch lists of two fetches each that differ in every triple. *)
Definition collidingFetchesA : list VertexFetchInfo :=
  [ {| location := 0; component := 0; ty := IntegerTy 1 |};
    {| location := 14386; component := 0; ty := VectorTy FloatTy 4 |} ].

Definition collidingFetchesB : list VertexFetchInfo :=
  [ {| location := 0; component := 0; ty := IntegerTy 128 |};
    {| location := 0; component := 880148480; ty := FloatTy |} ].

Definition unboundPipeline : PipelineState :=
  {| getLgcContext := {| gfxIpMajor := 10 |};
     memory := ∅;
     findVertexInputDescription := fun _ => None |}.


(** *** Further observations *)

(** The bytes the second loop of [getString] appends for one description
    pointer. *)
Definition descriptionChunk `{Declarations} (mem : Memory) (p : pointer) : bytes :=
  match pointee mem p with
  | Null => [zero]
  | Object d => VertexInputDescription_bytes d
  | Dangling => []
  end.


Definition isInsertValue (i : Value) : bool :=
  match i with InsertValueInst _ _ _ => true | _ => false end.

Definition isInitExec (i : Value) : bool :=
  match i with IntrinsicInst amdgcn_init_exec_from_input _ _ => true | _ => false end.







(** The example pipeline state after its description was freed. *)
Definition freedPipeline : PipelineState :=
  {| getLgcContext := {| gfxIpMajor := 10 |};
     memory := ∅;
     findVertexInputDescription := fun loc => if loc =? 0 then Some 4096 else None |}.

End FetchShader.

(* ===================================================================== *)
(** ** lgc/patch/llpcPatchCopyShader.cpp                                 *)
(* ===================================================================== *)

Module PatchCopyShader.

(** [unsigned] arithmetic wraps at 32 bits. *)
Definition u32 (n : N) : N := n mod 4294967296.

(** Constants the file takes from headers.  The number of streams and the
    positions of the stream-info and vertex-offset arguments are those of
    the source's own comments (the switch over [.stream0] to [.stream3], the
    parameter list of [@copy_shader]); [InvalidValue] is the all-ones
    [unsigned]. *)
Definition MaxGsStreams : N := 4.
Definition InvalidValue : N := 4294967295.
Definition CopyShaderUserSgprIdxStreamInfo : N := 4.
Definition CopyShaderUserSgprIdxVertexOffset : N := 10.

Inductive BuiltInKind : Type :=
| BuiltInPosition
| BuiltInPointSize
| BuiltInClipDistance
| BuiltInCullDistance
| BuiltInPrimitiveId
| BuiltInLayer
| BuiltInViewIndex
| BuiltInViewportIndex.

(** The packed key of an output location. *)
Record GsOutLocInfo : Type := {
  location : N;
  isBuiltIn : bool;
  streamId : N
}.

(** The transform feedback destination of one output. *)
Record XfbOutInfo : Type := {
  xfbBuffer : N;
  xfbOffset : N;
  xfbExtraOffset : N;
  is16bit : bool
}.

(** What the file uses and headers or other files of the repository
    declare: the bit layout of the two packed structures (the [u32All] view
    of a [GsOutLocInfo], and the structures a [reinterpret_cast] reads back
    from an [unsigned]), the numbers of the built-ins, the table offset of
    the ring descriptor, an address space, the coherence bits, the stage
    number, two names, and the name helpers. *)
Class Declarations : Type := {
  GsOutLocInfo_u32All : GsOutLocInfo -> N;
  GsOutLocInfo_cast : N -> GsOutLocInfo;
  XfbOutInfo_cast : N -> XfbOutInfo;
  BuiltInKind_value : BuiltInKind -> N;
  SI_DRV_TABLE_VS_RING_IN_OFFS : N;
  ADDR_SPACE_CONST : N;
  CoherentFlag_glc_slc : N;
  ShaderStageCopyShader : N;
  CopyShaderEntryPoint : string;
  ShaderStageMetadata : string;
  GetBuiltInName : BuiltInKind -> string;
  AddTypeMangling : list Value -> string -> string
}.

Record BuiltInUsage : Type := {
  position : bool;
  pointSize : bool;
  clipDistance : N;
  cullDistance : N;
  primitiveId : bool;
  layer : bool;
  viewportIndex : bool
}.

(** The resource usage of the copy shader stage, with the members the file
    reads ([builtInUsage.gs], [inOutUsage], [inOutUsage.gs],
    [inOutUsage.gs.calcFactor]) side by side.  [genericOutByteSizes] is an
    array of [MaxGsStreams] maps from location to the byte sizes of the four
    components; the maps are walked in the order [map_to_list] gives. *)
Record ResourceUsage : Type := {
  builtInUsage : BuiltInUsage;
  enableXfb : bool;
  outputLocMap : gmap N N;
  builtInOutputLocMap : gmap N N;
  outLocCount : N -> N;
  genericOutByteSizes : N -> gmap N (list N);
  xfbOutsInfo : gmap N N;
  rasterStream : N;
  esGsLdsSize : N
}.

Definition setGenericOutByteSizes (r : ResourceUsage)
    (sizes : N -> gmap N (list N)) : ResourceUsage :=
  {| builtInUsage := builtInUsage r; enableXfb := enableXfb r;
     outputLocMap := outputLocMap r; builtInOutputLocMap := builtInOutputLocMap r;
     outLocCount := outLocCount r; genericOutByteSizes := sizes;
     xfbOutsInfo := xfbOutsInfo r; rasterStream := rasterStream r;
     esGsLdsSize := esGsLdsSize r |}.

Record PipelineState : Type := {
  resUsage : ResourceUsage;
  gfxIpMajor : N;
  isGsOnChip : bool;
  enableNgg : bool;
  outputVertices : N;
  enableMultiView : bool;
  shaderStageMask : N;
  copyShaderStreamOutTable : N;
  copyShaderEsGsLdsSize : N;
  ldsVariable : Value
}.

Definition setResUsage (p : PipelineState) (r : ResourceUsage) : PipelineState :=
  {| resUsage := r; gfxIpMajor := gfxIpMajor p; isGsOnChip := isGsOnChip p;
     enableNgg := enableNgg p; outputVertices := outputVertices p;
     enableMultiView := enableMultiView p; shaderStageMask := shaderStageMask p;
     copyShaderStreamOutTable := copyShaderStreamOutTable p;
     copyShaderEsGsLdsSize := copyShaderEsGsLdsSize p;
     ldsVariable := ldsVariable p |}.

Definition setUserDataUsage (p : PipelineState) (streamOutTable esGsLdsSize : N)
    : PipelineState :=
  {| resUsage := resUsage p; gfxIpMajor := gfxIpMajor p; isGsOnChip := isGsOnChip p;
     enableNgg := enableNgg p; outputVertices := outputVertices p;
     enableMultiView := enableMultiView p; shaderStageMask := shaderStageMask p;
     copyShaderStreamOutTable := streamOutTable;
     copyShaderEsGsLdsSize := esGsLdsSize;
     ldsVariable := ldsVariable p |}.

Definition SetShaderStageMask (p : PipelineState) (mask : N) : PipelineState :=
  {| resUsage := resUsage p; gfxIpMajor := gfxIpMajor p; isGsOnChip := isGsOnChip p;
     enableNgg := enableNgg p; outputVertices := outputVertices p;
     enableMultiView := enableMultiView p; shaderStageMask := mask;
     copyShaderStreamOutTable := copyShaderStreamOutTable p;
     copyShaderEsGsLdsSize := copyShaderEsGsLdsSize p;
     ldsVariable := ldsVariable p |}.

(** The pass object: the pipeline state and the two members [runOnModule]
    sets before it exports anything. *)
Record PatchCopyShader : Type := {
  m_pPipelineState : PipelineState;
  m_pLds : option Value;
  m_pGsVsRingBufDesc : option Value
}.

(** A use of a function of the module: the user and the function whose body
    holds it. *)
Record Use : Type := {
  user : Value;
  userFunction : string
}.

(** A function of the module being patched: its name, as the [lgcName::]
    prefix it starts with (if any) and the rest, and its uses. *)
Record ModuleFunction : Type := {
  namePrefix : option lgcName;
  nameRest : string;
  users : list Use
}.

(** The module and what [PipelineShaders] says about it. *)
Record Module : Type := {
  functions : list ModuleFunction;
  gsEntryPoint : option string;
  fsEntryPoint : option string
}.

(** The entries of a [std::map<unsigned, unsigned>] in the order its
    iterators walk them: by ascending key. *)
Definition keyLe (a b : N * N) : Prop := fst a <= fst b.

#[export] Instance keyLe_dec : RelDecision keyLe := fun a b => decide (fst a <= fst b).

Definition entriesByKey (m : gmap N N) : list (N * N) :=
  merge_sort keyLe (map_to_list m).

Section WithDeclarations.
Context `{Declarations}.

(** Routines without a builder return a value or the failed assertion. *)
Definition andThen {A B} (m : Result A) (f : A -> Result B) : Result B :=
  match m with
  | Ok a => f a
  | AssertionFailed what => AssertionFailed what
  end.

(** [cast<ConstantInt>(v)->getZExtValue()], stored in an [unsigned]. *)
Definition getZExtValue (v : Value) : Result N :=
  match v with
  | ConstantInt _ n => Ok (u32 n)
  | _ => AssertionFailed "cast<ConstantInt>"
  end.

(** The byte size [CollectGsGenericOutputInfo] computes from the type of an
    exported value. *)
Definition outputByteSize (pOutputTy : Ty) : N :=
  let compCount := match pOutputTy with VectorTy _ n => n | _ => 1 end in
  let pCompTy := match pOutputTy with VectorTy e _ => e | _ => pOutputTy end in
  let bitWidth := getScalarSizeInBits pCompTy in
  let bitWidth := if bitWidth <? 32 then 32 else bitWidth in
  u32 (bitWidth / 8 * compCount).

(** [genericOutByteSizes[streamId][location].resize(4)] followed by the
    store to component [compIdx]. *)
Definition recordByteSize (sizes : N -> gmap N (list N))
    (streamId location compIdx byteSize : N) : N -> gmap N (list N) :=
  fun s =>
    if s =? streamId
    then <[location :=
             <[N.to_nat compIdx := byteSize]>
               (resize 4 0 (default [] (sizes streamId !! location)))]>
           (sizes streamId)
    else sizes s.

(** The body of the loop over the users of one export function. *)
Definition collectUser (pGsEntryPoint : string) (pResUsage : ResourceUsage)
    (pUser : Use) : Result ResourceUsage :=
  match user pUser with
  | CallInst _ _ _ operands =>
      if negb (String.eqb (userFunction pUser) pGsEntryPoint) then Ok pResUsage
      else
        match operands with
        | [op0; op1; op2; pOutput] =>
            let pOutputTy := getType pOutput in
            andThen (getZExtValue op0) (fun value =>
            andThen (getZExtValue op2) (fun streamId =>
            let outLocInfo :=
              {| location := value; isBuiltIn := false; streamId := streamId |} in
            match outputLocMap pResUsage !! GsOutLocInfo_u32All outLocInfo with
            | None => Ok pResUsage
            | Some location =>
                andThen (getZExtValue op1) (fun compIdx =>
                let byteSize := outputByteSize pOutputTy in
                if compIdx <? 4
                then Ok (setGenericOutByteSizes pResUsage
                           (recordByteSize (genericOutByteSizes pResUsage)
                              streamId location compIdx byteSize))
                else AssertionFailed "compIdx < 4")
            end))
        | _ => AssertionFailed "pCallInst->getNumArgOperands() == 4"
        end
  | _ => Ok pResUsage
  end.

Definition collectUsers (pGsEntryPoint : string) (pResUsage : ResourceUsage)
    (uses : list Use) : Result ResourceUsage :=
  foldl (fun acc pUser => andThen acc (fun r => collectUser pGsEntryPoint r pUser))
        (Ok pResUsage) uses.

(** [PatchCopyShader::CollectGsGenericOutputInfo]. *)
Definition CollectGsGenericOutputInfo (module : Module) (pGsEntryPoint : string)
    (pResUsage : ResourceUsage) : Result ResourceUsage :=
  foldl (fun acc func =>
           andThen acc (fun r =>
             match namePrefix func with
             | Some OutputExportGeneric => collectUsers pGsEntryPoint r (users func)
             | _ => Ok r
             end))
        (Ok pResUsage) (functions module).

Definition getInt32 (n : N) : Value := ConstantInt 32 (u32 n).
Definition getInt64 (n : N) : Value := ConstantInt 64 (n mod 2 ^ 64).

(** [GetFunctionArgument]: every argument of the copy shader is an [i32]. *)
Definition GetFunctionArgument (idx : N) : Value := Argument idx Int32Ty.

(** [IRBuilder::CreateTrunc]: as [CreateBitCast], nothing is inserted for
    a value of the destination type or for a constant. *)
Definition CreateTrunc (v : Value) (destTy : Ty) : Builder Value :=
  if Ty_eqb (getType v) destTy then ret v
  else if isConstant v then ret (ConstantExpr Trunc v destTy)
  else insert (TruncInst v destTy).

(** [PatchCopyShader::CalcGsVsRingOffsetForInput]. *)
Definition CalcGsVsRingOffsetForInput (pass : PatchCopyShader)
    (location compIdx streamId : N) : Builder Value :=
  let state := m_pPipelineState pass in
  let pVertexOffset := GetFunctionArgument CopyShaderUserSgprIdxVertexOffset in
  let pResUsage := resUsage state in
  if isGsOnChip state
  then
    (let pRingOffset := getInt32 (esGsLdsSize pResUsage) in
     pRingOffset <- insert (AddInst pRingOffset pVertexOffset) ;;
     insert (AddInst pRingOffset (getInt32 (location * 4 + compIdx))))%builder
  else
    (let outputVertices := outputVertices state in
     pRingOffset <- insert (MulInst pVertexOffset (getInt32 4)) ;;
     insert (AddInst pRingOffset
               (getInt32 ((location * 4 + compIdx) * 64 * outputVertices))))%builder.

(** The loop of [LoadValueFromGsVsRing] over the elements, for the ring
    buffer: one buffer load per element. *)
Fixpoint loadRingElements (pass : PatchCopyShader) (pLoadTy pElemTy : Ty)
    (desc : Value) (location streamId elemCount : N) (count : nat) (i : N)
    (pLoadValue : Value) : Builder Value :=
  match count with
  | O => ret pLoadValue
  | S count' =>
      (pRingOffset <- CalcGsVsRingOffsetForInput pass (u32 (location + i / 4))
                        (i mod 4) streamId ;;
       pLoadElem <- insert (IntrinsicInst amdgcn_raw_buffer_load pElemTy
                              [desc; pRingOffset; getInt32 0;
                               getInt32 CoherentFlag_glc_slc]) ;;
       pLoadValue <-
         (if isArrayTy pLoadTy
          then insert (InsertValueInst pLoadValue pLoadElem i)
          else if isVectorTy pLoadTy
          then insert (InsertElementInst pLoadValue pLoadElem i)
          else (assert (elemCount =? 1) "elemCount == 1" ;;; ret pLoadElem)) ;;
       loadRingElements pass pLoadTy pElemTy desc location streamId elemCount
         count' (i + 1) pLoadValue)%builder
  end.

(** The address space of a pointer type. *)
Definition getPointerAddressSpace (t : Ty) : N :=
  match t with PointerTy _ a => a | _ => 0 end.

(** The alignment of a global variable. *)
Definition getAlignment (v : Value) : N :=
  match v with GlobalVariable _ _ a => a | _ => 0 end.

(** The result type of indexing a pointer to an array with two indices. *)
Definition gepElementPtrTy (t : Ty) : Ty :=
  match t with
  | PointerTy (ArrayTy e _) a => PointerTy e a
  | _ => t
  end.

(** [PatchCopyShader::LoadValueFromGsVsRing]. *)
Definition LoadValueFromGsVsRing (pass : PatchCopyShader) (pLoadTy : Ty)
    (location streamId : N) : Builder Value :=
  let state := m_pPipelineState pass in
  let elemCount :=
    match pLoadTy with ArrayTy _ n => n | VectorTy _ n => n | _ => 1 end in
  let pElemTy :=
    match pLoadTy with ArrayTy e _ => e | VectorTy e _ => e | _ => pLoadTy end in
  (assert (isIntegerTy 32 pElemTy || isFloatTy pElemTy)
          "pElemTy->isIntegerTy(32) || pElemTy->isFloatTy()" ;;;
   if enableNgg state
   then
     insert (CallInst NggGsOutputImport (getTypeName pLoadTy) pLoadTy
               [getInt32 location; getInt32 0; getInt32 streamId])
   else if isGsOnChip state
   then
     match m_pLds pass with
     | None => AssertionFailed "m_pLds != nullptr"
     | Some pLds =>
         pRingOffset <- CalcGsVsRingOffsetForInput pass location 0 streamId ;;
         pLoadPtr <- insert (GetElementPtrInst pLds [getInt32 0; pRingOffset]
                               (gepElementPtrTy (getType pLds))) ;;
         pLoadPtr <- CreateBitCast pLoadPtr
                       (PointerTy pLoadTy (getPointerAddressSpace (getType pLds))) ;;
         insert (LoadInst pLoadPtr pLoadTy
                   (if getAlignment pLds =? 0 then None else Some (getAlignment pLds)) [])
     end
   else
     match m_pGsVsRingBufDesc pass with
     | None => AssertionFailed "m_pGsVsRingBufDesc != nullptr"
     | Some desc =>
         loadRingElements pass pLoadTy pElemTy desc location streamId elemCount
           (N.to_nat elemCount) 0 (UndefValue pLoadTy)
     end)%builder.

(** [PatchCopyShader::LoadGsVsRingBufferDescriptor]. *)
Definition LoadGsVsRingBufferDescriptor : Builder Value :=
  (let pInternalTablePtrLow := GetFunctionArgument 0 in
   pPc <- insert (IntrinsicInst amdgcn_s_getpc Int64Ty []) ;;
   pPc <- CreateBitCast pPc (VectorTy Int32Ty 2) ;;
   pInternalTablePtrHigh <- insert (ExtractElementInst pPc 1 Int32Ty) ;;
   let pUndef := UndefValue (VectorTy Int32Ty 2) in
   pInternalTablePtr <- insert (InsertElementInst pUndef pInternalTablePtrLow 0) ;;
   pInternalTablePtr <- insert (InsertElementInst pInternalTablePtr
                                  pInternalTablePtrHigh 1) ;;
   pInternalTablePtr <- CreateBitCast pInternalTablePtr Int64Ty ;;
   pGsVsRingBufDescPtr <- insert (AddInst pInternalTablePtr
                                    (getInt64 (N.shiftl SI_DRV_TABLE_VS_RING_IN_OFFS 4))) ;;
   let pInt32x4PtrTy := PointerTy (VectorTy Int32Ty 4) ADDR_SPACE_CONST in
   pGsVsRingBufDescPtr <- insert (IntToPtrInst pGsVsRingBufDescPtr pInt32x4PtrTy
                                    [MetaNameUniform]) ;;
   insert (LoadInst pGsVsRingBufDescPtr (VectorTy Int32Ty 4) None
             [MD_invariant_load]))%builder.

(** The [find_if] of [ExportGenericOutput]: the first entry of the output
    location map, in ascending order of the keys, whose value is the
    location and whose key, read as a [GsOutLocInfo], has the stream. *)
Definition findOutLoc (outLocMap : gmap N N) (location streamId' : N)
    : option (N * N) :=
  List.find (fun outLoc : N * N =>
               (snd outLoc =? location)
               && (streamId (GsOutLocInfo_cast (fst outLoc)) =? streamId'))
            (entriesByKey outLocMap).

(** The casts of a 16-bit transform feedback output.  For one component the
    source builds the truncation and the last bit cast with [new], without
    an insertion point: they are operands of what follows and are in no
    block. *)
Definition narrowTo16bit (pOutputValue : Value) : Builder Value :=
  let pOutputTy := getType pOutputValue in
  (assert (isFPOrFPVectorTy pOutputTy && (getScalarSizeInBits pOutputTy =? 32))
          "pOutputTy->isFPOrFPVectorTy() && (pOutputTy->getScalarSizeInBits() == 32)" ;;;
   let compCount := match pOutputTy with VectorTy _ n => n | _ => 1 end in
   if 1 <? compCount
   then
     pOutputValue <- CreateBitCast pOutputValue (VectorTy Int32Ty compCount) ;;
     pOutputValue <- CreateTrunc pOutputValue (VectorTy Int16Ty compCount) ;;
     CreateBitCast pOutputValue (VectorTy HalfTy compCount)
   else
     pOutputValue <- CreateBitCast pOutputValue Int32Ty ;;
     let pOutputValue := TruncInst pOutputValue Int16Ty in
     let pOutputValue := BitCastInst pOutputValue HalfTy in
     ret pOutputValue)%builder.

(** The transform feedback part of [ExportGenericOutput]; the result is
    [pOutputValue] as the rest of the routine sees it. *)
Definition exportGenericXfb (pResUsage : ResourceUsage) (pOutputValue : Value)
    (location streamId : N) : Builder Value :=
  match findOutLoc (outputLocMap pResUsage) location streamId with
  | None => AssertionFailed "locIter != outLocMap.end()"
  | Some locIter =>
      match xfbOutsInfo pResUsage !! fst locIter with
      | Some packed =>
          let pXfbOutInfo := XfbOutInfo_cast packed in
          (pOutputValue <-
             (if is16bit pXfbOutInfo then narrowTo16bit pOutputValue
              else ret pOutputValue) ;;
           let args := [ getInt32 (xfbBuffer pXfbOutInfo);
                         getInt32 (xfbOffset pXfbOutInfo);
                         getInt32 (xfbExtraOffset pXfbOutInfo);
                         pOutputValue ] in
           insert (CallInst OutputExportXfb (AddTypeMangling args "") VoidTy args) ;;;
           ret pOutputValue)%builder
      | None => ret pOutputValue
      end
  end.

(** [PatchCopyShader::ExportGenericOutput]. *)
Definition ExportGenericOutput (pass : PatchCopyShader) (pOutputValue : Value)
    (location streamId : N) : Builder unit :=
  let pResUsage := resUsage (m_pPipelineState pass) in
  (pOutputValue <-
     (if enableXfb pResUsage
      then exportGenericXfb pResUsage pOutputValue location streamId
      else ret pOutputValue) ;;
   if rasterStream pResUsage =? streamId
   then
     let pOutputTy := getType pOutputValue in
     assert (isSingleValueType pOutputTy) "pOutputTy->isSingleValueType()" ;;;
     insert (CallInst OutputExportGeneric (getTypeName pOutputTy) VoidTy
               [getInt32 location; pOutputValue]) ;;;
     ret tt
   else ret tt)%builder.

(** [PatchCopyShader::ExportBuiltInOutput]. *)
Definition ExportBuiltInOutput (pass : PatchCopyShader) (pOutputValue : Value)
    (builtInId : BuiltInKind) (streamId' : N) : Builder unit :=
  let pResUsage := resUsage (m_pPipelineState pass) in
  ((if enableXfb pResUsage
    then
      let outLocInfo :=
        {| location := BuiltInKind_value builtInId; isBuiltIn := true;
           streamId := streamId' |} in
      match xfbOutsInfo pResUsage !! GsOutLocInfo_u32All outLocInfo with
      | Some packed =>
          let pXfbOutInfo := XfbOutInfo_cast packed in
          let args := [ getInt32 (xfbBuffer pXfbOutInfo);
                        getInt32 (xfbOffset pXfbOutInfo);
                        getInt32 0;
                        pOutputValue ] in
          insert (CallInst OutputExportXfb (AddTypeMangling args "") VoidTy args) ;;;
          ret tt
      | None => ret tt
      end
    else ret tt) ;;;
   if rasterStream pResUsage =? streamId'
   then
     let args := [ getInt32 (BuiltInKind_value builtInId); pOutputValue ] in
     insert (CallInst OutputExportBuiltIn
               (AddTypeMangling args (GetBuiltInName builtInId)) VoidTy args) ;;;
     ret tt
   else ret tt)%builder.

(** The inner loop of [ExportOutput] over the four components of one
    location: the sum of their byte sizes. *)
Definition totalByteSize (sizes : list N) : N :=
  foldl (fun byteSize i => u32 (byteSize + default 0 (sizes !! i))) 0 (seq 0 4).

(** The body of the loop of [ExportOutput] over the generic outputs of the
    stream: one entry [<location, <component, byteSize>>].  The type to
    load is made by [VectorType::get], which asserts that the vector has
    at least one element. *)
Definition exportGenericEntry (pass : PatchCopyShader) (streamId : N)
    (byteSizeMap : N * list N) : Builder unit :=
  let loc := fst byteSizeMap in
  let byteSize := totalByteSize (snd byteSizeMap) in
  (assert (byteSize mod 4 =? 0) "byteSize % 4 == 0" ;;;
   let dwordSize := byteSize / 4 in
   assert (0 <? dwordSize) "#Elements of a VectorType must be greater than 0" ;;;
   pOutputValue <- LoadValueFromGsVsRing pass (VectorTy FloatTy dwordSize) loc streamId ;;
   ExportGenericOutput pass pOutputValue loc streamId)%builder.

(** A sequence of builder routines, one per element. *)
Fixpoint forEach {A} (f : A -> Builder unit) (l : list A) : Builder unit :=
  match l with
  | [] => ret tt
  | x :: l' => (f x ;;; forEach f l')%builder
  end.

(** The [builtInPairs] of [ExportOutput]. *)
Definition builtInPairs (state : PipelineState) : list (BuiltInKind * Ty) :=
  let builtInUsage := builtInUsage (resUsage state) in
  (if position builtInUsage then [(BuiltInPosition, VectorTy FloatTy 4)] else [])
  ++ (if pointSize builtInUsage then [(BuiltInPointSize, FloatTy)] else [])
  ++ (if 0 <? clipDistance builtInUsage
      then [(BuiltInClipDistance, ArrayTy FloatTy (clipDistance builtInUsage))] else [])
  ++ (if 0 <? cullDistance builtInUsage
      then [(BuiltInCullDistance, ArrayTy FloatTy (cullDistance builtInUsage))] else [])
  ++ (if primitiveId builtInUsage then [(BuiltInPrimitiveId, Int32Ty)] else [])
  ++ (if layer builtInUsage || enableMultiView state
      then [(if enableMultiView state then BuiltInViewIndex else BuiltInLayer, Int32Ty)]
      else [])
  ++ (if viewportIndex builtInUsage then [(BuiltInViewportIndex, Int32Ty)] else []).

(** The body of the loop over [builtInPairs]. *)
Definition exportBuiltInPair (pass : PatchCopyShader) (streamId : N)
    (builtInPair : BuiltInKind * Ty) : Builder unit :=
  let builtInId := fst builtInPair in
  let pBuiltInTy := snd builtInPair in
  match builtInOutputLocMap (resUsage (m_pPipelineState pass))
          !! BuiltInKind_value builtInId with
  | None => AssertionFailed "builtInOutputLocMap.find(builtInId) != end()"
  | Some loc =>
      (pOutputValue <- LoadValueFromGsVsRing pass pBuiltInTy loc streamId ;;
       ExportBuiltInOutput pass pOutputValue builtInId streamId)%builder
  end.

(** The constant [vec4(0, 0, 0, 1)]. *)
Definition dummyPosition : Value :=
  let pZero := ConstantFP FloatTy 0 in
  let pOne := ConstantFP FloatTy 1 in
  ConstantVector [pZero; pZero; pZero; pOne].

(** [PatchCopyShader::ExportOutput]. *)
Definition ExportOutput (pass : PatchCopyShader) (streamId : N) : Builder unit :=
  let state := m_pPipelineState pass in
  let pResUsage := resUsage state in
  (forEach (exportGenericEntry pass streamId)
           (map_to_list (genericOutByteSizes pResUsage streamId)) ;;;
   forEach (exportBuiltInPair pass streamId) (builtInPairs state) ;;;
   if enableXfb pResUsage && negb (position (builtInUsage pResUsage))
   then ExportBuiltInOutput pass dummyPosition BuiltInPosition streamId
   else ret tt)%builder.

(** The stream numbers a loop [for (i = 0; i < MaxGsStreams; ++i)] visits. *)
Definition streamIds : list N := map N.of_nat (seq 0 (N.to_nat MaxGsStreams)).

(** The first loop of [runOnModule] over the streams: the number of streams
    with output locations and the first of them, [InvalidValue] if none. *)
Definition countOutputStreams (pResUsage : ResourceUsage) : N * N :=
  foldl (fun acc i =>
           let outputStreamCount := fst acc in
           let outputStreamId := snd acc in
           if 0 <? outLocCount pResUsage i
           then (outputStreamCount + 1,
                 if outputStreamId =? InvalidValue then i else outputStreamId)
           else acc)
        (0, InvalidValue) streamIds.

(** Block numbers in the order [runOnModule] creates the blocks: the ending
    block, the entry block, then the stream blocks. *)
Definition endBlockId : BlockId := 0%nat.
Definition entryBlockId : BlockId := 1%nat.

(** The body of the loop that adds the stream blocks: the cases added to
    the switch so far and the blocks created so far. *)
Definition addStreamBlock (pass : PatchCopyShader)
    (acc : Result (list (N * BlockId) * list BasicBlock)) (streamId : N)
    : Result (list (N * BlockId) * list BasicBlock) :=
  andThen acc (fun acc =>
    let cases := fst acc in
    let blocks := snd acc in
    let pResUsage := resUsage (m_pPipelineState pass) in
    if 0 <? outLocCount pResUsage streamId
    then
      let blockName := (".stream" +:+ pretty streamId)%string in
      let pStreamBlock := (2 + length blocks)%nat in
      match (ExportOutput pass streamId ;;;
             insert (BranchInst endBlockId))%builder with
      | Ok (_, insts) =>
          Ok (cases ++ [(streamId, pStreamBlock)],
              blocks ++ [ {| bbId := pStreamBlock; bbName := blockName;
                             bbInsts := insts |} ])
      | AssertionFailed what => AssertionFailed what
      end
    else Ok (cases, blocks)).

(** What [runOnModule] leaves behind: whether the module changed, the copy
    shader function and the entry point it was inserted before (the end of
    the function list if none), and the pipeline state. *)
Record PassResult : Type := {
  changed : bool;
  copyShader : option Function;
  insertedBefore : option string;
  finalState : PipelineState
}.

(** The first part of [runOnModule] once a geometry shader is known to be
    there: the scan of its exports, the SGPR indices of the interface data,
    and the LDS variable or the ring buffer descriptor.  The result is the
    pass object as the exports see it and the instructions the entry block
    starts with. *)
Definition prepare (module : Module) (pGsEntryPoint : string) (state : PipelineState)
    : Result (PatchCopyShader * list Value) :=
  andThen (CollectGsGenericOutputInfo module pGsEntryPoint (resUsage state))
    (fun pResUsage =>
  let state := setResUsage state pResUsage in
  let state :=
    if gfxIpMajor state <=? 8
    then setUserDataUsage state 2 3
    else setUserDataUsage state 3 2 in
  if isGsOnChip state
  then Ok ({| m_pPipelineState := state;
              m_pLds := Some (ldsVariable state);
              m_pGsVsRingBufDesc := None |}, [])
  else
    match LoadGsVsRingBufferDescriptor with
    | Ok (desc, insts) =>
        Ok ({| m_pPipelineState := state;
               m_pLds := None;
               m_pGsVsRingBufDesc := Some desc |}, insts)
    | AssertionFailed what => AssertionFailed what
    end).

(** The stream id read from the stream-info argument:
    [StreamId = streamInfo[25:24]]. *)
Definition streamIdField : Value :=
  let pStreamInfo := GetFunctionArgument CopyShaderUserSgprIdxStreamInfo in
  IntrinsicInst amdgcn_ubfe Int32Ty [pStreamInfo; getInt32 24; getInt32 2].

(** The second part of [runOnModule]: the rest of the entry block and the
    stream blocks. *)
Definition exportStreams (pass : PatchCopyShader)
    : Result (list Value * list BasicBlock) :=
  let pResUsage := resUsage (m_pPipelineState pass) in
  let outputStreamCount := fst (countOutputStreams pResUsage) in
  let outputStreamId := snd (countOutputStreams pResUsage) in
  if (1 <? outputStreamCount) && enableXfb pResUsage
  then
    let pStreamId := streamIdField in
    andThen (foldl (addStreamBlock pass) (Ok ([], [])) streamIds)
      (fun streams =>
         Ok ([pStreamId; SwitchInst pStreamId endBlockId (fst streams)],
             snd streams))
  else
    let outputStreamId :=
      if outputStreamCount =? 0 then 0 else outputStreamId in
    match (ExportOutput pass outputStreamId ;;;
           insert (BranchInst endBlockId))%builder with
    | Ok (_, insts) => Ok (insts, [])
    | AssertionFailed what => AssertionFailed what
    end.

(** [PatchCopyShader::runOnModule]. *)
Definition runOnModule (module : Module) (state : PipelineState) : Result PassResult :=
  match gsEntryPoint module with
  | None =>
      Ok {| changed := false; copyShader := None; insertedBefore := None;
            finalState := state |}
  | Some pGsEntryPoint =>
      let argTys := replicate 11 Int32Ty in
      let argInReg := replicate 10 true ++ [false] in
      let pEndBlock :=
        {| bbId := endBlockId; bbName := ""; bbInsts := [ReturnInst None] |} in
      andThen (prepare module pGsEntryPoint state) (fun prepared =>
      let pass := fst prepared in
      let state := m_pPipelineState pass in
      andThen (exportStreams pass) (fun body =>
      let pEntryBlock :=
        {| bbId := entryBlockId; bbName := "";
           bbInsts := snd prepared ++ fst body |} in
      let pEntryPoint :=
        {| fnName := CopyShaderEntryPoint;
           fnCallingConv := 0;
           fnRetTy := VoidTy;
           fnArgTys := argTys;
           fnInReg :=
             map (fun ia => N.of_nat (fst ia))
                 (filter (fun ia => snd ia = true) (imap pair argInReg));
           fnArgNames := ∅;
           fnAttrs := [];
           fnMetadata := [(ShaderStageMetadata, ShaderStageCopyShader)];
           fnBlocks := pEntryBlock :: snd body ++ [pEndBlock] |} in
      Ok {| changed := true;
            copyShader := Some pEntryPoint;
            insertedBefore := fsEntryPoint module;
            finalState :=
              SetShaderStageMask state
                (u32 (N.lor (shaderStageMask state)
                            (u32 (N.shiftl 1 ShaderStageCopyShader)))) |}))
  end.

(** *** Observations used by the statements *)

(** The packed key of the position built-in in a stream. *)
Definition positionKey (streamId' : N) : N :=
  GsOutLocInfo_u32All
    {| location := BuiltInKind_value BuiltInPosition; isBuiltIn := true;
       streamId := streamId' |}.

(** The ending block. *)
Definition endBlock : BasicBlock :=
  {| bbId := endBlockId; bbName := ""; bbInsts := [ReturnInst None] |}.

(** The streams with output locations, in increasing order. *)
Definition activeStreams (pResUsage : ResourceUsage) : list N :=
  List.filter (fun i => 0 <? outLocCount pResUsage i) streamIds.

(** Block [b] is the block of stream [s]: the exports of the stream, then a
    branch to the ending block. *)
Definition streamBlockOf (pass : PatchCopyShader) (s : N) (b : BasicBlock) : Prop :=
  exists exportInsts,
    emitted (ExportOutput pass s) = Some exportInsts
    /\ bbInsts b = exportInsts ++ [BranchInst endBlockId]
    /\ bbName b = (".stream" +:+ pretty s)%string.

(** Instructions that read an output back: a buffer load from the ring, a
    load from LDS, or the import call of NGG. *)
Definition isOutputLoad (i : Value) : bool :=
  match i with
  | IntrinsicInst amdgcn_raw_buffer_load _ _ => true
  | LoadInst _ _ _ _ => true
  | CallInst NggGsOutputImport _ _ _ => true
  | _ => false
  end.

Definition isGenericExport (i : Value) : bool :=
  match i with CallInst OutputExportGeneric _ _ _ => true | _ => false end.


(** [insts] is what [ExportOutput] appends for one recorded location: the
    load of a vector of as many floats as the location has dwords, then
    what [ExportGenericOutput] appends for the loaded value.  The load is
    one instruction under NGG or on chip and one buffer load per dword from
    the ring; the generic export call is there when the stream is the
    raster stream. *)
Definition exportsLocation (pass : PatchCopyShader) (streamId' : N)
    (byteSizeMap : N * list N) (insts : list Value) : Prop :=
  let loc := fst byteSizeMap in
  let dwordSize := totalByteSize (snd byteSizeMap) / 4 in
  exists pOutputValue loadInsts exportInsts,
    insts = loadInsts ++ exportInsts
    /\ LoadValueFromGsVsRing pass (VectorTy FloatTy dwordSize) loc streamId'
       = Ok (pOutputValue, loadInsts)
    /\ ExportGenericOutput pass pOutputValue loc streamId' = Ok (tt, exportInsts)
    /\ getType pOutputValue = VectorTy FloatTy dwordSize
    /\ countInsts isOutputLoad loadInsts
       = (if enableNgg (m_pPipelineState pass) || isGsOnChip (m_pPipelineState pass)
          then 1%nat else N.to_nat dwordSize)
    /\ countInsts isOutputLoad exportInsts = 0%nat
    /\ countInsts isGenericExport loadInsts = 0%nat
    /\ countInsts isGenericExport exportInsts
       = (if rasterStream (resUsage (m_pPipelineState pass)) =? streamId'
          then 1%nat else 0%nat).

End WithDeclarations.

(** The constant [(0, 0, 0, 1)]. *)
Definition isDummyPosition (v : Value) : bool :=
  match v with
  | ConstantVector [ConstantFP _ 0%Z; ConstantFP _ 0%Z; ConstantFP _ 0%Z; ConstantFP _ 1%Z]
      => true
  | _ => false
  end.

(** A built-in export call, or a transform feedback export call, of the
    constant [(0, 0, 0, 1)]. *)
Definition isDummyPositionExport (i : Value) : bool :=
  match i with
  | CallInst OutputExportBuiltIn _ _ [_; v] => isDummyPosition v
  | _ => false
  end.

Definition isDummyPositionXfbExport (i : Value) : bool :=
  match i with
  | CallInst OutputExportXfb _ _ [_; _; _; v] => isDummyPosition v
  | _ => false
  end.

(** Instructions other than terminators, whose export calls export no
    constant vector. *)
Definition exportInst (i : Value) : Prop :=
  match i with
  | CallInst OutputExportBuiltIn _ _ [_; v] => isConstantVector v = false
  | CallInst OutputExportXfb _ _ [_; _; _; v] => isConstantVector v = false
  | CallInst _ _ _ _ => True
  | SwitchInst _ _ _ | BranchInst _ | ReturnInst _ => False
  | _ => True
  end.

(** Instructions that are neither calls nor terminators. *)
Definition plainInst (i : Value) : Prop :=
  match i with
  | CallInst _ _ _ _ | SwitchInst _ _ _ | BranchInst _ | ReturnInst _ => False
  | _ => True
  end.

Definition notLoadOrExport (i : Value) : Prop :=
  isOutputLoad i = false /\ isGenericExport i = false.

(** The width the scan reads from the type of an exported value. *)
Definition componentBitWidth (pOutputTy : Ty) : N :=
  getScalarSizeInBits (match pOutputTy with VectorTy e _ => e | _ => pOutputTy end).

(** The component widths of shader data: below 32 bits, or whole dwords. *)
Definition dwordAligned (pOutputTy : Ty) : Prop :=
  componentBitWidth pOutputTy < 32 \/ componentBitWidth pOutputTy mod 32 = 0.

(** Every recorded byte size is a multiple of four. *)
Definition sizesAligned (sizes : N -> gmap N (list N)) : Prop :=
  forall s loc l, sizes s !! loc = Some l -> Forall (fun b => b mod 4 = 0) l.

(** [r'] is [r] but for [genericOutByteSizes]. *)
Definition sameButSizes (r r' : ResourceUsage) : Prop :=
  r' = setGenericOutByteSizes r (genericOutByteSizes r').

(** *** Inputs used by the statements *)

(** One instance of the declarations, to run the model on inputs: a
    16-bit location, the built-in flag and a 2-bit stream id from the low
    bits up; a 2-bit buffer, a 16-bit offset, a 13-bit extra offset and the
    16-bit flag from the low bits up. *)
Definition exampleDeclarations : Declarations :=
  {| GsOutLocInfo_u32All := fun i =>
       N.lor (location i mod 65536)
         (N.lor (N.shiftl (if isBuiltIn i then 1 else 0) 16)
                (N.shiftl (streamId i mod 4) 17));
     GsOutLocInfo_cast := fun u =>
       {| location := u mod 65536; isBuiltIn := N.testbit u 16;
          streamId := N.shiftr u 17 mod 4 |};
     XfbOutInfo_cast := fun u =>
       {| xfbBuffer := u mod 4; xfbOffset := N.shiftr u 2 mod 65536;
          xfbExtraOffset := N.shiftr u 18 mod 8192; is16bit := N.testbit u 31 |};
     BuiltInKind_value := fun b =>
       match b with
       | BuiltInPosition => 0 | BuiltInPointSize => 1 | BuiltInClipDistance => 3
       | BuiltInCullDistance => 4 | BuiltInPrimitiveId => 7 | BuiltInLayer => 9
       | BuiltInViewportIndex => 10 | BuiltInViewIndex => 4440
       end;
     SI_DRV_TABLE_VS_RING_IN_OFFS := 3;
     ADDR_SPACE_CONST := 4;
     CoherentFlag_glc_slc := 3;
     ShaderStageCopyShader := 6;
     CopyShaderEntryPoint := "lgc.shader.COPY.main";
     ShaderStageMetadata := "lgc.shaderstage";
     GetBuiltInName := fun b =>
       match b with
       | BuiltInPosition => "Position" | BuiltInPointSize => "PointSize"
       | BuiltInClipDistance => "ClipDistance" | BuiltInCullDistance => "CullDistance"
       | BuiltInPrimitiveId => "PrimitiveId" | BuiltInLayer => "Layer"
       | BuiltInViewportIndex => "ViewportIndex" | BuiltInViewIndex => "ViewIndex"
       end;
     AddTypeMangling := fun args name =>
       foldl (fun n a => n +:+ "." +:+ getTypeName (getType a)) name args |}.

Definition noBuiltIns : BuiltInUsage :=
  {| position := false; pointSize := false; clipDistance := 0; cullDistance := 0;
     primitiveId := false; layer := false; viewportIndex := false |}.

(** A resource usage with transform feedback as given, output locations in
    the streams for which [active] holds, the given output location map and
    transform feedback table, stream 0 for the rasterizer, and nothing
    recorded yet. *)
Definition exampleUsage (xfb : bool) (active : N -> bool) (locMap xfbInfo : gmap N N)
    : ResourceUsage :=
  {| builtInUsage := noBuiltIns; enableXfb := xfb;
     outputLocMap := locMap; builtInOutputLocMap := ∅;
     outLocCount := fun i => if active i then 1 else 0;
     genericOutByteSizes := fun _ => ∅;
     xfbOutsInfo := xfbInfo; rasterStream := 0; esGsLdsSize := 0 |}.

(** A GFX9 pipeline with the GS-VS ring off chip and no NGG. *)
Definition exampleState (pResUsage : ResourceUsage) : PipelineState :=
  {| resUsage := pResUsage; gfxIpMajor := 9; isGsOnChip := false; enableNgg := false;
     outputVertices := 3; enableMultiView := false; shaderStageMask := 0;
     copyShaderStreamOutTable := 0; copyShaderEsGsLdsSize := 0;
     ldsVariable := GlobalVariable "lds" (PointerTy (ArrayTy Int32Ty 16384) 3) 4 |}.

(** A generic export call of the geometry shader ["gs"]: location,
    component, stream and an exported value of the given type. *)
Definition exampleExport (loc comp stream : N) (t : Ty) : Use :=
  {| user := CallInst OutputExportGeneric (getTypeName t) VoidTy
               [ConstantInt 32 loc; ConstantInt 32 comp; ConstantInt 32 stream;
                UndefValue t];
     userFunction := "gs" |}.

(** A module whose geometry shader ["gs"] makes the given export calls. *)
Definition exampleModule (exports : list Use) : Module :=
  {| functions := [ {| namePrefix := Some OutputExportGeneric; nameRest := "";
                       users := exports |} ];
     gsEntryPoint := Some "gs"%string; fsEntryPoint := None |}.

(** The pass object as [prepare] leaves it for the geometry shader of
    [exampleModule exports] and the example state: the scan done, the ring
    buffer descriptor loaded. *)
Definition examplePass (exports : list Use) (pResUsage : ResourceUsage) : PatchCopyShader :=
  match prepare (H := exampleDeclarations) (exampleModule exports) "gs"
          (exampleState pResUsage) with
  | Ok (pass, _) => pass
  | AssertionFailed _ =>
      {| m_pPipelineState := exampleState pResUsage; m_pLds := None;
         m_pGsVsRingBufDesc := None |}
  end.

(** The keys of location 0 in streams 0, 1 and 2 under [exampleDeclarations],
    and a transform feedback entry flagged 16-bit (buffer 0, offset 0). *)
Definition exampleKey (stream : N) : N :=
  GsOutLocInfo_u32All (Declarations := exampleDeclarations)
    {| location := 0; isBuiltIn := false; streamId := stream |}.

Definition exampleXfb16bit : N := 2147483648.

(** Streams 0 and 2 with output locations, transform feedback enabled: the
    scenario of the spec. *)
Definition multiStreamExports : list Use :=
  [exampleExport 0 0 0 (VectorTy FloatTy 4); exampleExport 0 0 2 FloatTy].

Definition multiStreamUsage : ResourceUsage :=
  exampleUsage true (fun i => (i =? 0) || (i =? 2))
    {[ exampleKey 0 := 0; exampleKey 2 := 0 ]} ∅.

(** One 16-bit float at location 0 of stream 0, captured by transform
    feedback as a 16-bit output. *)
Definition halfExports : list Use := [exampleExport 0 0 0 HalfTy].

Definition halfUsage : ResourceUsage :=
  exampleUsage true (fun i => i =? 0) {[ exampleKey 0 := 0 ]}
    {[ exampleKey 0 := exampleXfb16bit ]}.

(** Two floats at location 0 of the given stream. *)
Definition twoFloatExports (stream : N) : list Use :=
  [exampleExport 0 0 stream FloatTy; exampleExport 0 1 stream FloatTy].

Definition twoFloatUsage (stream : N) : ResourceUsage :=
  exampleUsage false (fun i => i =? stream) {[ exampleKey stream := 0 ]} ∅.

(** Transform feedback enabled, no position, outputs in stream 1 only. *)
Definition xfbStream1Usage : ResourceUsage :=
  exampleUsage true (fun i => i =? 1) {[ exampleKey 1 := 0 ]} ∅.

(** Transform feedback enabled, no position, no output location in any
    stream. *)
Definition noStreamUsage : ResourceUsage := exampleUsage true (fun _ => false) ∅ ∅.



(** An export at location 5 of stream 0 and an empty output location map. *)
Definition unmappedExports : list Use := [exampleExport 5 0 0 FloatTy].

Definition unmappedUsage : ResourceUsage := exampleUsage true (fun i => i =? 0) ∅ ∅.

(** A byte size recorded for location 0 of stream 0 and an empty output
    location map. *)
Definition inconsistentUsage : ResourceUsage :=
  setGenericOutByteSizes unmappedUsage
    (fun s => if s =? 0 then {[ 0 := [4; 0; 0; 0] ]} else ∅).

(** Exports of 8-bit, 16-bit and 64-bit values. *)
Definition narrowExports : list Use :=
  [exampleExport 0 0 0 (IntegerTy 8); exampleExport 0 1 0 HalfTy;
   exampleExport 1 0 0 (VectorTy DoubleTy 2)].

Definition narrowUsage : ResourceUsage :=
  exampleUsage false (fun i => i =? 0)
    {[ exampleKey 0 := 0;
       GsOutLocInfo_u32All (Declarations := exampleDeclarations)
         {| location := 1; isBuiltIn := false; streamId := 0 |} := 1 ]} ∅.

(** A transform feedback export call whose value is a bit cast of a
    truncation of a bit cast. *)
Definition isNarrowedXfbExport (i : Value) : bool :=
  match i with
  | CallInst OutputExportXfb _ _ [_; _; _; BitCastInst (TruncInst (BitCastInst _ _) _) _] =>
      true
  | _ => false
  end.


(** *** Further observations *)

Section FurtherObservations.
Context `{Declarations}.

Definition isCall (v : Value) : bool :=
  match v with CallInst _ _ _ _ => true | _ => false end.

(** The users the scan visits, in order: those of the functions whose name
    starts with the generic export prefix. *)
Definition scannedUsers (module : Module) : list Use :=
  flat_map (fun func =>
              match namePrefix func with
              | Some OutputExportGeneric => users func
              | _ => []
              end)
           (functions module).

(** Of these, the calls inside the geometry shader. *)
Definition gsExportCalls (module : Module) (pGsEntryPoint : string) : list Use :=
  List.filter (fun u => isCall (user u) && String.eqb (userFunction u) pGsEntryPoint)
              (scannedUsers module).

(** What the scan records for one user: the stream, the mapped location,
    the component and the byte size; nothing for a user it skips. *)
Definition exportWrite (pGsEntryPoint : string) (outLocMap : gmap N N) (u : Use)
    : option (N * N * N * N) :=
  match user u with
  | CallInst _ _ _ [ConstantInt _ value; ConstantInt _ compIdx; ConstantInt _ stream;
                    pOutput] =>
      if String.eqb (userFunction u) pGsEntryPoint
      then
        match outLocMap !! GsOutLocInfo_u32All
                              {| location := u32 value; isBuiltIn := false;
                                 streamId := u32 stream |} with
        | Some loc =>
            if u32 compIdx <? 4
            then Some (u32 stream, loc, u32 compIdx, outputByteSize (getType pOutput))
            else None
        | None => None
        end
      else None
  | _ => None
  end.

Definition applyWrite (r : ResourceUsage) (w : option (N * N * N * N)) : ResourceUsage :=
  match w with
  | Some (s, loc, c, b) =>
      setGenericOutByteSizes r (recordByteSize (genericOutByteSizes r) s loc c b)
  | None => r
  end.

(** The effect of a write on the entry of one stream and location. *)
Definition cellWrite (s loc : N) (cell : option (list N)) (w : option (N * N * N * N))
    : option (list N) :=
  match w with
  | Some (s', loc', c, b) =>
      if (s' =? s) && (loc' =? loc)
      then Some (<[N.to_nat c := b]> (resize 4 0 (default [] cell)))
      else cell
  | None => cell
  end.

(** Whether [LoadValueFromGsVsRing] has what it reads from: nothing is
    needed under NGG, the LDS variable on chip, the ring buffer descriptor
    otherwise. *)
Definition ringReadable (pass : PatchCopyShader) : bool :=
  let state := m_pPipelineState pass in
  enableNgg state
  || (if isGsOnChip state
      then bool_decide (is_Some (m_pLds pass))
      else bool_decide (is_Some (m_pGsVsRingBufDesc pass))).

(** The element type and count [LoadValueFromGsVsRing] takes from the type
    to load. *)
Definition loadElemTy (pLoadTy : Ty) : Ty :=
  match pLoadTy with ArrayTy e _ => e | VectorTy e _ => e | _ => pLoadTy end.

Definition loadElemCount (pLoadTy : Ty) : N :=
  match pLoadTy with ArrayTy _ n => n | VectorTy _ n => n | _ => 1 end.

(** What the exports of stream [s] may append: a transform feedback export
    only with transform feedback enabled, an export to the rasterizer only
    in the raster stream, an import call only under NGG, a buffer load only
    off chip without NGG, an address computation and a load from LDS only
    on chip without NGG, and no terminator. *)
Definition allowedInst (pass : PatchCopyShader) (s : N) (i : Value) : Prop :=
  let state := m_pPipelineState pass in
  match i with
  | CallInst OutputExportXfb _ _ _ => enableXfb (resUsage state) = true
  | CallInst OutputExportGeneric _ _ _ | CallInst OutputExportBuiltIn _ _ _ =>
      rasterStream (resUsage state) = s
  | CallInst NggGsOutputImport _ _ _ => enableNgg state = true
  | IntrinsicInst amdgcn_raw_buffer_load _ _ =>
      enableNgg state = false /\ isGsOnChip state = false
  | IntrinsicInst _ _ _ => False
  | LoadInst _ _ _ _ | GetElementPtrInst _ _ _ =>
      enableNgg state = false /\ isGsOnChip state = true
  | SwitchInst _ _ _ | BranchInst _ | ReturnInst _ => False
  | _ => True
  end.

(** An export call the scan can take in: constants for location, component
    and stream, a component below four, a stream below [MaxGsStreams], and
    an exported value whose components are narrower than 32 bits or whole
    dwords and for which the scan records at least one byte and fewer than
    2^30. *)
Definition wellFormedExport (u : Use) : Prop :=
  exists base suffix retTy bits0 value bits1 compIdx bits2 stream pOutput,
    user u = CallInst base suffix retTy
               [ConstantInt bits0 value; ConstantInt bits1 compIdx;
                ConstantInt bits2 stream; pOutput]
    /\ u32 compIdx < 4
    /\ u32 stream < MaxGsStreams
    /\ dwordAligned (getType pOutput)
    /\ 0 < outputByteSize (getType pOutput) < 2 ^ 30.

(** An entry of [genericOutByteSizes] the exports can work with: four byte
    sizes, multiples of four below 2^30 and not all zero, at a location some
    key of the stream maps to. *)
Definition exportable (outLocMap : gmap N N) (s loc : N) (cell : option (list N)) : Prop :=
  match cell with
  | Some sizes =>
      length sizes = 4%nat
      /\ Forall (fun b => b mod 4 = 0 /\ b < 2 ^ 30) sizes
      /\ Exists (fun b => 0 < b) sizes
      /\ exists key, outLocMap !! key = Some loc
                     /\ streamId (GsOutLocInfo_cast key) = s
  | None => True
  end.

End FurtherObservations.

(** The value of an [i32] expression made of constants, arguments, additions
    and multiplications, given the values of the arguments; the arithmetic
    wraps at 32 bits. *)
Fixpoint evalI32 (args : N -> N) (v : Value) : option N :=
  match v with
  | ConstantInt bits n => if bits =? 32 then Some (u32 n) else None
  | Argument idx t => if isIntegerTy 32 t then Some (u32 (args idx)) else None
  | AddInst a b =>
      match evalI32 args a, evalI32 args b with
      | Some x, Some y => Some (u32 (x + y))
      | _, _ => None
      end
  | MulInst a b =>
      match evalI32 args a, evalI32 args b with
      | Some x, Some y => Some (u32 (x * y))
      | _, _ => None
      end
  | _ => None
  end.

(** Element [idx] of a vector built by [insertelement] instructions: the
    value inserted last at that index. *)
Fixpoint vectorElement (vec : Value) (idx : N) : option Value :=
  match vec with
  | InsertElementInst vec' v i => if i =? idx then Some v else vectorElement vec' idx
  | _ => None
  end.

Definition isBufferLoad (i : Value) : bool :=
  match i with IntrinsicInst amdgcn_raw_buffer_load _ _ => true | _ => false end.

(** Two tables of byte sizes with the same entries. *)
Definition sameSizes (sizes sizes' : N -> gmap N (list N)) : Prop :=
  forall s, sizes s = sizes' s.


Definition isTerminator (i : Value) : bool :=
  match i with
  | ReturnInst _ | BranchInst _ | SwitchInst _ _ _ => true
  | _ => false
  end.

(** The blocks a terminator may go to. *)
Definition successors (i : Value) : list BlockId :=
  match i with
  | BranchInst dest => [dest]
  | SwitchInst _ defaultDest cases => defaultDest :: map snd cases
  | _ => []
  end.

(** A block of a function with the blocks [ids]: instructions that are no
    terminators, then one terminator that goes to blocks of the function. *)
Definition wellFormedBlock (ids : list BlockId) (b : BasicBlock) : Prop :=
  exists body terminator,
    bbInsts b = body ++ [terminator]
    /\ isTerminator terminator = true
    /\ Forall (fun i => isTerminator i = false) body
    /\ Forall (fun dest => dest ∈ ids) (successors terminator).

(** Two halves at location 0 of stream 0, captured by transform feedback as
    a 16-bit output. *)
Definition halfVectorExports : list Use := [exampleExport 0 0 0 (VectorTy HalfTy 2)].

(** A module with the given export calls of the geometry shader ["gs"] and
    more: an export call of the same function in the vertex shader, a user
    that is no call, and a built-in export function with a call in the
    geometry shader. *)
Definition mixedModule (exports : list Use) : Module :=
  {| functions :=
       [ {| namePrefix := Some OutputExportBuiltIn; nameRest := "Position";
            users := [ {| user := CallInst OutputExportBuiltIn "Position" VoidTy
                                    [ConstantInt 32 0; ConstantInt 32 0;
                                     UndefValue (VectorTy FloatTy 4)];
                          userFunction := "gs" |} ] |};
         {| namePrefix := Some OutputExportGeneric; nameRest := "";
            users := {| user := CallInst OutputExportGeneric "f32" VoidTy
                                  [ConstantInt 32 7; ConstantInt 32 0; ConstantInt 32 0;
                                   UndefValue FloatTy];
                        userFunction := "vs" |}
                     :: {| user := UndefValue FloatTy; userFunction := "gs" |}
                     :: exports |} ];
     gsEntryPoint := Some "gs"%string; fsEntryPoint := Some "fs"%string |}.
End PatchCopyShader.

(* ===================================================================== *)
(** ** Facts about builder routines                                      *)
(* ===================================================================== *)

Module BuilderFacts.

Section Bind.
Context {A B : Type}.

Lemma bind_Ok_inv (m : Builder A) (f : A -> Builder B) b insts :
  IR.bind m f = Ok (b, insts) ->
  exists a insts1 insts2,
    m = Ok (a, insts1) /\ f a = Ok (b, insts2) /\ insts = insts1 ++ insts2.
Proof.
  unfold IR.bind. destruct m as [[a insts1]|]; [|discriminate].
  destruct (f a) as [[b' insts2]|] eqn:Hf; [|discriminate].
  intros [= <- <-]. eauto 6.
Qed.

Lemma satisfies_bind (m : Builder A) (f : A -> Builder B) Q1 Q2 P :
  satisfies m Q1 P -> (forall a, Q1 a -> satisfies (f a) Q2 P) ->
  satisfies (IR.bind m f) Q2 P.
Proof.
  unfold satisfies, IR.bind. destruct m as [[a insts1]|]; [|done].
  intros [Ha HP1] Hf. specialize (Hf a Ha). destruct (f a) as [[b insts2]|]; [|done].
  destruct Hf as [Hb HP2]. split; [done|]. by apply Forall_app.
Qed.

Lemma satisfies_impl (m : Builder A) (Q Q' : A -> Prop) (P P' : Value -> Prop) :
  satisfies m Q P -> (forall a, Q a -> Q' a) -> (forall i, P i -> P' i) ->
  satisfies m Q' P'.
Proof.
  unfold satisfies. destruct m as [[a insts]|]; [|done]. intros [? ?] HQ HP.
  split; [auto|]. by eapply Forall_impl.
Qed.

End Bind.

Lemma satisfies_ret {A} (a : A) (Q : A -> Prop) P : Q a -> satisfies (IR.ret a) Q P.
Proof. intros Ha. split; [done|constructor]. Qed.

Lemma satisfies_insert (i : Value) (Q : Value -> Prop) (P : Value -> Prop) :
  Q i -> P i -> satisfies (insert i) Q P.
Proof. intros HQ HP. split; [done|]. by repeat constructor. Qed.

Lemma satisfies_assert cond what (Q : unit -> Prop) P :
  Q tt -> satisfies (IR.assert cond what) Q P.
Proof. intros HQ. unfold IR.assert. destruct cond; [by apply satisfies_ret|done]. Qed.

Lemma satisfies_emitted {A} (m : Builder A) Q P insts :
  satisfies m Q P -> emitted m = Some insts -> Forall P insts.
Proof.
  unfold satisfies, emitted. destruct m as [[a insts']|]; [|discriminate].
  intros [_ HP] [= <-]. done.
Qed.

Lemma CreateBitCast_satisfies v ty (P : Value -> Prop) :
  P (BitCastInst v ty) ->
  satisfies (CreateBitCast v ty)
            (fun r => r = v \/ r = ConstantExpr BitCast v ty \/ r = BitCastInst v ty) P.
Proof.
  intros HP. unfold CreateBitCast. destruct (Ty_eqb _ _); [|destruct (isConstant v)].
  - apply satisfies_ret. auto.
  - apply satisfies_ret. auto.
  - apply satisfies_insert; auto.
Qed.

Lemma CreateBitCast_notConstantVector v ty (P : Value -> Prop) :
  notConstantVector v -> P (BitCastInst v ty) ->
  satisfies (CreateBitCast v ty) notConstantVector P.
Proof.
  intros Hv HP. eapply satisfies_impl; [by apply CreateBitCast_satisfies| |done].
  by intros ? [->|[->| ->]].
Qed.

Lemma countInsts_app p l1 l2 :
  countInsts p (l1 ++ l2) = (countInsts p l1 + countInsts p l2)%nat.
Proof. induction l1 as [|i l1 IH]; simpl; [done|]. rewrite IH. lia. Qed.

Lemma countInsts_none p l : Forall (fun i => p i = false) l -> countInsts p l = 0%nat.
Proof. induction 1 as [|i l Hi _ IH]; simpl; [done|]. by rewrite Hi, IH. Qed.

Lemma existsb_none (p : Value -> bool) l :
  Forall (fun i => p i = false) l -> existsb p l = false.
Proof. induction 1 as [|i l Hi _ IH]; simpl; [done|]. by rewrite Hi, IH. Qed.

Lemma existsb_orb (p q : Value -> bool) l :
  existsb (fun i => p i || q i) l = existsb p l || existsb q l.
Proof.
  induction l as [|i l IH]; simpl; [done|]. rewrite IH.
  destruct (p i), (q i), (existsb p l), (existsb q l); reflexivity.
Qed.

Lemma Ty_eqb_eq : forall a b, Ty_eqb a b = true -> a = b.
Proof.
  fix IH 1. intros [] []; simpl; try discriminate; try reflexivity.
  - intros ?%N.eqb_eq; congruence.
  - intros [He Hn]%andb_true_iff. apply IH in He. apply N.eqb_eq in Hn. congruence.
  - intros [He Hn]%andb_true_iff. apply IH in He. apply N.eqb_eq in Hn. congruence.
  - intros Hall. f_equal. revert fields0 Hall.
    induction fields as [|x xs IHxs]; intros [|y ys] Hall; try discriminate; [reflexivity|].
    apply andb_true_iff in Hall as [Hx Hxs]. apply IH in Hx. apply IHxs in Hxs. congruence.
  - intros [He Hn]%andb_true_iff. apply IH in He. apply N.eqb_eq in Hn. congruence.
Qed.

(** One step of a [satisfies] proof for straight-line builder code whose
    intermediate values need no property. *)
Ltac builder_step :=
  lazymatch goal with
  | |- satisfies (IR.bind _ _) _ _ =>
      eapply satisfies_bind with (Q1 := fun _ => True); [|intros ? _]
  | |- satisfies (IR.ret _) _ _ => apply satisfies_ret
  | |- satisfies (insert _) _ _ => apply satisfies_insert
  | |- satisfies (IR.assert _ _) _ _ => apply satisfies_assert
  | |- satisfies (AssertionFailed _) _ _ => exact I
  | |- satisfies (if ?c then _ else _) _ _ => destruct c
  | |- satisfies (match ?x with _ => _ end) _ _ => destruct x
  end.

End BuilderFacts.

(* ===================================================================== *)
(** ** The fetch shader: fingerprint and unbound attributes              *)
(* ===================================================================== *)

Module FetchShaderTheorems.
Import FetchShader BuilderFacts.

(** *** Bytes and type names *)

Lemma ascii_of_N_inj a b : a < 256 -> b < 256 -> ascii_of_N a = ascii_of_N b -> a = b.
Proof.
  intros Ha Hb Heq. rewrite <- (N_ascii_embedding a Ha), <- (N_ascii_embedding b Hb).
  by rewrite Heq.
Qed.

Lemma u32_digits a : a < 4294967296 ->
  a = a mod 256 + 256 * ((a / 256) mod 256) + 65536 * ((a / 65536) mod 256)
      + 16777216 * ((a / 16777216) mod 256).
Proof.
  intros Ha.
  replace (a / 65536) with (a / 256 / 256) by (rewrite N.Div0.div_div; reflexivity).
  replace (a / 16777216) with (a / 256 / 256 / 256) by (rewrite !N.Div0.div_div; reflexivity).
  pose proof (N.div_mod a 256 ltac:(lia)) as H1.
  pose proof (N.div_mod (a / 256) 256 ltac:(lia)) as H2.
  pose proof (N.div_mod (a / 256 / 256) 256 ltac:(lia)) as H3.
  assert (a / 256 / 256 / 256 < 256) as H4.
  { rewrite !N.Div0.div_div. apply N.Div0.div_lt_upper_bound. simpl. lia. }
  rewrite (N.mod_small _ _ H4).
  lia.
Qed.

Lemma unsigned_bytes_inj a b :
  a < 2 ^ 32 -> b < 2 ^ 32 -> unsigned_bytes a = unsigned_bytes b -> a = b.
Proof.
  intros Ha Hb Heq. unfold unsigned_bytes in Heq.
  injection Heq as H0 H1 H2 H3.
  apply ascii_of_N_inj in H0, H1, H2, H3; try (apply N.mod_lt; lia).
  change (2 ^ 32) with 4294967296 in *.
  rewrite (u32_digits a Ha), (u32_digits b Hb). congruence.
Qed.

Lemma app_eq_prefixb (l1 l2 r1 r2 : list ascii) :
  l1 ++ r1 = l2 ++ r2 -> prefixb l1 l2 = true \/ prefixb l2 l1 = true.
Proof.
  revert l2. induction l1 as [|a l1 IH]; intros [|b l2]; simpl; auto.
  intros Heq. injection Heq as -> Heq. rewrite Ascii.eqb_refl. simpl. eauto.
Qed.

Lemma isFetchTy_enum t : isFetchTy t = true -> In t fetchTys.
Proof.
  assert (forall s, isFetchScalarTy s = true -> In s fetchScalarTys) as Hs.
  { intros []; simpl; try discriminate; intros Hb; auto 10.
    repeat (apply orb_true_iff in Hb as [Hb|Hb]); apply N.eqb_eq in Hb; subst; auto 10. }
  assert (forall s, In s fetchScalarTys -> In s fetchTys) as Hsub.
  { intros s Hin. unfold fetchTys. apply in_or_app. by left. }
  intros Hb. destruct t; simpl in Hb; try discriminate; try (by apply Hsub, Hs).
  apply andb_true_iff in Hb as [Hb Hle]. apply andb_true_iff in Hb as [Hb Hge].
  apply Hs in Hb. apply N.leb_le in Hle, Hge.
  assert (count = 2 \/ count = 3 \/ count = 4) as Hc by lia.
  unfold fetchTys. apply in_or_app. right. apply in_flat_map.
  exists count. split; [simpl; lia|]. by apply (in_map (fun e => VectorTy e count)).
Qed.

(** No name of a vertex input type is the beginning of the name of
    another one. *)
Lemma fetchTys_prefix_free :
  forallb (fun a => forallb (fun b =>
    negb (prefixb (list_ascii_of_string (getTypeName a))
                  (list_ascii_of_string (getTypeName b)))
    || Ty_eqb a b) fetchTys) fetchTys = true.
Proof. vm_compute. reflexivity. Qed.

Lemma fetchTy_name_inj t1 t2 r1 r2 :
  isFetchTy t1 = true -> isFetchTy t2 = true ->
  list_ascii_of_string (getTypeName t1) ++ r1 = list_ascii_of_string (getTypeName t2) ++ r2 ->
  t1 = t2.
Proof.
  intros H1%isFetchTy_enum H2%isFetchTy_enum Heq.
  pose proof fetchTys_prefix_free as Hpf.
  rewrite forallb_forall in Hpf.
  pose proof (Hpf _ H1) as Hp1. rewrite forallb_forall in Hp1. specialize (Hp1 _ H2).
  pose proof (Hpf _ H2) as Hp2. rewrite forallb_forall in Hp2. specialize (Hp2 _ H1).
  apply app_eq_prefixb in Heq as [Hp|Hp]; rewrite Hp in *; simpl in *.
  - by apply Ty_eqb_eq.
  - symmetry. by apply Ty_eqb_eq.
Qed.

Section Fingerprint.
Context `{Declarations}.

(** *** [getString] *)

Lemma foldl_appendFetchInfo acc fetches :
  foldl appendFetchInfo acc fetches = acc ++ foldl appendFetchInfo [] fetches.
Proof.
  revert acc. induction fetches as [|f fs IH]; intros acc; simpl.
  - by rewrite app_nil_r.
  - rewrite IH. rewrite (IH (appendFetchInfo [] f)).
    unfold appendFetchInfo. simpl. by rewrite <- !app_assoc.
Qed.

Lemma foldl_appendFetchInfo_cons x fetches :
  foldl appendFetchInfo [] (x :: fetches)
  = unsigned_bytes (location x) ++ unsigned_bytes (component x)
    ++ list_ascii_of_string (getTypeName (ty x)) ++ foldl appendFetchInfo [] fetches.
Proof.
  cbn [foldl]. rewrite foldl_appendFetchInfo. unfold appendFetchInfo at 1.
  cbv zeta. rewrite app_nil_l. by rewrite <- !app_assoc.
Qed.

Lemma foldl_appendDescription_pointee mem1 mem2 (ds1 ds2 : list pointer) acc :
  Forall2 (fun p q => pointee mem1 p = pointee mem2 q) ds1 ds2 ->
  foldl (appendDescription mem1) acc ds1 = foldl (appendDescription mem2) acc ds2.
Proof.
  intros HF. revert acc. induction HF as [|p q ds1 ds2 Hpq HF IH]; intros acc; simpl; [done|].
  assert (appendDescription mem1 acc p = appendDescription mem2 acc q) as ->; [|apply IH].
  unfold appendDescription, pointee in *.
  destruct acc; [|done].
  destruct p as [a|], q as [b|]; try done.
  - destruct (mem1 !! a), (mem2 !! b); congruence.
  - destruct (mem1 !! a); congruence.
  - destruct (mem2 !! b); congruence.
Qed.

Lemma foldl_appendDescription_None mem ds :
  foldl (appendDescription mem) None ds = None.
Proof. induction ds; simpl; auto. Qed.

Lemma foldl_appendDescription_app mem ds acc s :
  foldl (appendDescription mem) (Some acc) ds = Some s -> exists rest, s = acc ++ rest.
Proof.
  revert acc. induction ds as [|d ds IH]; intros acc; simpl.
  - intros [= <-]. exists []. by rewrite app_nil_r.
  - destruct d as [a|]; [destruct (mem !! a)|].
    + intros (rest & ->)%IH. eexists. by rewrite <- app_assoc.
    + by rewrite foldl_appendDescription_None.
    + intros (rest & ->)%IH. eexists. by rewrite <- app_assoc.
Qed.

Lemma foldl_appendDescription_defined mem (ds : list pointer) acc :
  Forall (fun p => pointee mem p <> Dangling) ds ->
  exists s, foldl (appendDescription mem) (Some acc) ds = Some s.
Proof.
  intros HF. revert acc. induction HF as [|p ds Hp HF IH]; intros acc; simpl; [eauto|].
  unfold pointee in Hp. destruct p as [a|]; [|apply IH].
  destruct (mem !! a); [apply IH|done].
Qed.

(** [getString] returns a string when no description pointer dangles. *)
Lemma getString_new_defined (ps : PipelineState) fetches info :
  (forall fetch, fetch ∈ fetches -> described ps (location fetch) <> Dangling) ->
  exists s, fst <$> getString (memory ps) (new ps fetches info) = Some s
            /\ buildString (memory ps) (new ps fetches info) = Some s.
Proof.
  intros Hvalid.
  destruct (foldl_appendDescription_defined (memory ps)
              (m_fetchDescriptions (new ps fetches info))
              (foldl appendFetchInfo [] fetches ++ VsEntryRegInfo_bytes info)) as [s Hs].
  { simpl. apply Forall_fmap, Forall_forall. intros fetch Hin. by apply Hvalid. }
  exists s. unfold getString, buildString. simpl in *. by rewrite Hs.
Qed.

Lemma fetches_bytes_inj (f1 f2 : list VertexFetchInfo) (r1 r2 : bytes) :
  length f1 = length f2 ->
  Forall wellFormedFetch f1 -> Forall wellFormedFetch f2 ->
  foldl appendFetchInfo [] f1 ++ r1 = foldl appendFetchInfo [] f2 ++ r2 ->
  f1 = f2.
Proof.
  revert f2 r1 r2. induction f1 as [|x f1 IH]; intros [|y f2] r1 r2 Hlen Hwf1 Hwf2 Heq;
    try discriminate; [reflexivity|].
  rewrite !foldl_appendFetchInfo_cons in Heq.
  apply Forall_cons in Hwf1 as [(Hlx & Hcx & Htx) Hwf1].
  apply Forall_cons in Hwf2 as [(Hly & Hcy & Hty) Hwf2].
  rewrite <- !app_assoc in Heq.
  apply app_inj_1 in Heq as [Hloc Heq]; [|reflexivity].
  apply app_inj_1 in Heq as [Hcomp Heq]; [|reflexivity].
  apply unsigned_bytes_inj in Hloc, Hcomp; try done.
  pose proof (fetchTy_name_inj _ _ _ _ Htx Hty Heq) as Hty'.
  rewrite Hty' in Heq. apply app_inv_head in Heq.
  apply IH in Heq; [|simpl in Hlen; lia|done|done].
  destruct x, y; simpl in *; congruence.
Qed.

Lemma foldl_appendDescription_chunks mem (ds : list pointer) acc :
  Forall (fun p => pointee mem p <> Dangling) ds ->
  foldl (appendDescription mem) (Some acc) ds
  = Some (acc ++ concat (map (descriptionChunk mem) ds)).
Proof.
  intros HF. revert acc. induction HF as [|p ds Hp HF IH]; intros acc; cbn [foldl map concat].
  - by rewrite app_nil_r.
  - unfold descriptionChunk at 1. unfold appendDescription at 2. unfold pointee in *.
    destruct p as [a|].
    + destruct (mem !! a); [|done]. rewrite IH. by rewrite <- app_assoc.
    + rewrite IH. by rewrite <- app_assoc.
Qed.

(** The string of a fresh object: the fetches, the registers, the
    descriptions. *)
Lemma getString_new_layout (ps : PipelineState) fetches info :
  (forall fetch, fetch ∈ fetches -> described ps (location fetch) <> Dangling) ->
  fst <$> getString (memory ps) (new ps fetches info)
  = Some (foldl appendFetchInfo [] fetches ++ VsEntryRegInfo_bytes info
          ++ concat (map (fun fetch =>
                            descriptionChunk (memory ps)
                              (findVertexInputDescription ps (location fetch)))
                         fetches)).
Proof.
  intros Hvalid.
  assert (buildString (memory ps) (new ps fetches info)
          = Some (foldl appendFetchInfo [] fetches ++ VsEntryRegInfo_bytes info
                  ++ concat (map (fun fetch =>
                                    descriptionChunk (memory ps)
                                      (findVertexInputDescription ps (location fetch)))
                                 fetches))) as Hbuild.
  { unfold buildString. cbn [m_shaderString m_fetches m_vsEntryRegInfo m_fetchDescriptions new].
    rewrite foldl_appendDescription_chunks.
    - by rewrite <- app_assoc, map_map.
    - apply Forall_map, Forall_forall. intros fetch Hin. by apply Hvalid. }
  unfold getString. cbn [m_shaderString new]. by rewrite Hbuild.
Qed.

(** C1.  Two fetch shaders constructed from the same fetch list and from
    register information with the same member values, by pipeline states
    whose vertex input descriptions for the fetched locations are equal or
    equally absent (none of the pointers dangling), wherever in memory the
    descriptions are: both calls of [getString] return a string, and the
    two strings are equal exactly when the objects [m_vsEntryRegInfo] of
    the two fetch shaders have the same bytes, padding included.  They are
    equal when the two objects hold the same bytes in their padding; the
    member values alone do not decide it. *)
Theorem getString_deterministic (ps1 ps2 : PipelineState)
    (fetches : list VertexFetchInfo) (info1 info2 : VsEntryRegInfo) :
  sameMembers info1 info2 ->
  (forall fetch, fetch ∈ fetches ->
     described ps1 (location fetch) = described ps2 (location fetch)) ->
  (forall fetch, fetch ∈ fetches -> described ps1 (location fetch) <> Dangling) ->
  exists s1 s2,
    fst <$> getString (memory ps1) (new ps1 fetches info1) = Some s1
    /\ fst <$> getString (memory ps2) (new ps2 fetches info2) = Some s2
    /\ (s1 = s2 <-> VsEntryRegInfo_bytes info1 = VsEntryRegInfo_bytes info2)
    /\ (padding info1 = padding info2 -> s1 = s2).
Proof.
  intros Hmembers Hsame Hvalid.
  assert (forall fetch, fetch ∈ fetches -> described ps2 (location fetch) <> Dangling)
    as Hvalid2.
  { intros fetch Hin. rewrite <- Hsame by done. by apply Hvalid. }
  assert (map (fun fetch => descriptionChunk (memory ps1)
                              (findVertexInputDescription ps1 (location fetch))) fetches
          = map (fun fetch => descriptionChunk (memory ps2)
                                (findVertexInputDescription ps2 (location fetch))) fetches)
    as Hchunks.
  { apply map_ext_in. intros fetch Hin%list_elem_of_In. unfold descriptionChunk.
    specialize (Hsame fetch Hin). unfold described in Hsame. by rewrite Hsame. }
  eexists _, _. split; [by apply getString_new_layout|].
  split; [by apply getString_new_layout|]. rewrite Hchunks.
  assert (foldl appendFetchInfo [] fetches ++ VsEntryRegInfo_bytes info1
          ++ concat (map (fun fetch => descriptionChunk (memory ps2)
                                         (findVertexInputDescription ps2 (location fetch)))
                         fetches)
          = foldl appendFetchInfo [] fetches ++ VsEntryRegInfo_bytes info2
            ++ concat (map (fun fetch => descriptionChunk (memory ps2)
                                           (findVertexInputDescription ps2 (location fetch)))
                           fetches)
          <-> VsEntryRegInfo_bytes info1 = VsEntryRegInfo_bytes info2) as Hiff.
  { split; [|by intros ->]. intros Heq%app_inv_head. by apply app_inv_tail in Heq. }
  split; [exact Hiff|]. intros Hpadding. apply Hiff. f_equal.
  destruct info1, info2. cbn in Hpadding.
  destruct Hmembers as (? & ? & ? & ? & ? & ? & ? & ? & ?). cbn in *. congruence.
Qed.

(** C2, as amended.  Two fetch shaders whose fetch lists have the same
    length and hold vertex input types (8 to 64-bit integers, 16 to 64-bit
    floats, vectors of two to four of them) and numbers that fit an
    [unsigned], and whose description pointers do not dangle, return
    different strings from [getString] when the fetch lists differ in a
    (location, component, type) triple. *)
Theorem getString_distinguishes_fetches (ps1 ps2 : PipelineState)
    (fetches1 fetches2 : list VertexFetchInfo) (info1 info2 : VsEntryRegInfo) :
  length fetches1 = length fetches2 ->
  Forall wellFormedFetch fetches1 -> Forall wellFormedFetch fetches2 ->
  (forall fetch, fetch ∈ fetches1 -> described ps1 (location fetch) <> Dangling) ->
  (forall fetch, fetch ∈ fetches2 -> described ps2 (location fetch) <> Dangling) ->
  fetches1 <> fetches2 ->
  exists s1 s2,
    fst <$> getString (memory ps1) (new ps1 fetches1 info1) = Some s1
    /\ fst <$> getString (memory ps2) (new ps2 fetches2 info2) = Some s2
    /\ s1 <> s2.
Proof.
  intros Hlen Hwf1 Hwf2 Hv1 Hv2 Hne.
  destruct (getString_new_defined ps1 fetches1 info1 Hv1) as (s1 & Hg1 & Hb1).
  destruct (getString_new_defined ps2 fetches2 info2 Hv2) as (s2 & Hg2 & Hb2).
  exists s1, s2. split; [done|]. split; [done|].
  intros ->. apply Hne.
  unfold buildString in Hb1, Hb2. simpl in Hb1, Hb2.
  apply foldl_appendDescription_app in Hb1 as [rest1 Hb1].
  apply foldl_appendDescription_app in Hb2 as [rest2 Hb2].
  rewrite Hb1 in Hb2. rewrite <- !app_assoc in Hb2.
  by eapply fetches_bytes_inj.
Qed.

End Fingerprint.

Section Generate.
Context `{Declarations}.

(** *** [generate] *)

Lemma copyInputs_spec argTys count i retVal :
  exists v insts,
    copyInputs argTys count i retVal = Ok (v, insts)
    /\ getType v = getType retVal
    /\ (forall k, k < i \/ i + N.of_nat count <= k -> structField v k = structField retVal k)
    /\ (forall k, i <= k < i + N.of_nat count ->
          structField v k = Argument k (nth (N.to_nat k) argTys VoidTy)).
Proof.
  revert i retVal. induction count as [|count IH]; intros i retVal.
  - exists retVal, []. simpl. repeat split; auto. intros k Hk. lia.
  - destruct (IH (i + 1) (InsertValueInst retVal (Argument i (nth (N.to_nat i) argTys VoidTy)) i))
      as (v & insts & Hrun & Hty & Hout & Hin).
    exists v, (InsertValueInst retVal (Argument i (nth (N.to_nat i) argTys VoidTy)) i :: insts).
    split; [|split; [|split]].
    + cbn [copyInputs]. unfold IR.bind, insert. rewrite Hrun. reflexivity.
    + rewrite Hty. reflexivity.
    + intros k Hk. rewrite Hout by lia. cbn [structField].
      destruct (N.eqb_spec i k); [lia|reflexivity].
    + intros k Hk. destruct (N.eq_dec k i) as [->|Hne].
      * rewrite Hout by lia. cbn [structField]. by rewrite N.eqb_refl.
      * apply Hin. lia.
Qed.

Lemma take_entry_types info (rest : list Ty) :
  take (N.to_nat (sgprCount info + vgprCount info))
       (replicate (N.to_nat (sgprCount info)) Int32Ty
        ++ replicate (N.to_nat (vgprCount info)) FloatTy ++ rest)
  = replicate (N.to_nat (sgprCount info)) Int32Ty
    ++ replicate (N.to_nat (vgprCount info)) FloatTy.
Proof.
  rewrite app_assoc. apply take_app_length'.
  rewrite length_app, !length_replicate. lia.
Qed.


Lemma take_returnFieldTypes (fs : FetchShader) :
  take (N.to_nat (sgprCount (m_vsEntryRegInfo fs) + vgprCount (m_vsEntryRegInfo fs)))
       (returnFieldTypes fs)
  = replicate (N.to_nat (sgprCount (m_vsEntryRegInfo fs))) Int32Ty
    ++ replicate (N.to_nat (vgprCount (m_vsEntryRegInfo fs))) FloatTy.
Proof. apply take_entry_types. Qed.

Lemma getArg_entry info k :
  getArg (replicate (N.to_nat (sgprCount info)) Int32Ty
          ++ replicate (N.to_nat (vgprCount info)) FloatTy) k
  = if k <? sgprCount info + vgprCount info
    then Ok (Argument k (if k <? sgprCount info then Int32Ty else FloatTy), [])
    else AssertionFailed "getArg() out of range!".
Proof.
  unfold getArg. destruct (N.ltb_spec k (sgprCount info + vgprCount info)) as [Hk|Hk].
  - destruct (N.ltb_spec k (sgprCount info)).
    + rewrite lookup_app_l by (rewrite length_replicate; lia).
      by rewrite lookup_replicate_2 by lia.
    + rewrite lookup_app_r by (rewrite length_replicate; lia).
      by rewrite lookup_replicate_2 by (rewrite length_replicate; lia).
  - rewrite lookup_ge_None_2; [done|]. rewrite length_app, !length_replicate. lia.
Qed.

(** [createFetchFunc] by cases: it fails the assertion of [getArg] unless
    the function has the arguments it takes, and otherwise returns the
    function whose block is the prologue of a merged shader, the copies of
    the registers and the return. *)
Lemma createFetchFunc_cases (fs : FetchShader) :
  let info := m_vsEntryRegInfo fs in
  let entryTys := replicate (N.to_nat (sgprCount info)) Int32Ty
                  ++ replicate (N.to_nat (vgprCount info)) FloatTy in
  createFetchFunc fs
  = if argsInRange info
    then
      match copyInputs entryTys (N.to_nat (sgprCount info + vgprCount info)) 0
              (UndefValue (StructTy (returnFieldTypes fs))) with
      | Ok (retVal, copies) =>
          Ok {| fnName := getGlueShaderName;
                fnCallingConv := callingConv info;
                fnRetTy := StructTy (returnFieldTypes fs);
                fnArgTys := entryTys;
                fnInReg := map N.of_nat (seq 0 (N.to_nat (sgprCount info)));
                fnArgNames :=
                  <[sgprCount info + instanceId info := "InstanceId"%string]>
                    (<[sgprCount info + vertexId info := "VertexId"%string]>
                      (<[baseInstance info := "BaseInstance"%string]>
                        (<[baseVertex info := "BaseVertex"%string]>
                          (<[vertexBufferTable info := "VertexBufferTable"%string]> ∅))));
                fnAttrs :=
                  (if 10 <=? gfxIpMajor (m_lgcContext fs)
                   then [("target-features",
                          if wave32 info then "+wavefrontsize32"
                          else "+wavefrontsize64")%string]
                   else []);
                fnMetadata := [];
                fnBlocks :=
                  [ {| bbId := 0%nat; bbName := "";
                       bbInsts :=
                         (if (callingConv info =? AMDGPU_HS)
                             || (callingConv info =? AMDGPU_GS)
                          then [IntrinsicInst amdgcn_init_exec_from_input VoidTy
                                  [Argument 3 (if 3 <? sgprCount info
                                               then Int32Ty else FloatTy);
                                   ConstantInt 32 0]]
                          else [])
                         ++ copies ++ [ReturnInst (Some retVal)] |} ] |}
      | AssertionFailed what => AssertionFailed what
      end
    else AssertionFailed "getArg() out of range!".
Proof.
  intros info entryTys. unfold createFetchFunc, argsInRange.
  rewrite take_returnFieldTypes. fold info entryTys.
  rewrite !(getArg_entry info).
  set (argCount := sgprCount info + vgprCount info).
  destruct (vertexBufferTable info <? argCount); [|reflexivity].
  destruct (baseVertex info <? argCount); [|reflexivity].
  destruct (baseInstance info <? argCount); [|reflexivity].
  destruct (sgprCount info + vertexId info <? argCount); [|reflexivity].
  destruct (sgprCount info + instanceId info <? argCount); [|reflexivity].
  cbn [andb IR.bind IR.ret app].
  destruct ((callingConv info =? AMDGPU_HS) || (callingConv info =? AMDGPU_GS)).
  - destruct (3 <? argCount); [|reflexivity].
    cbn [negb orb IR.bind IR.ret insert app].
    by destruct (copyInputs _ _ _ _) as [[retVal copies]|].
  - cbn [negb orb IR.bind IR.ret insert app].
    by destruct (copyInputs _ _ _ _) as [[retVal copies]|].
Qed.

(** The function [createFetchFunc] returns: its block ends with the return
    of a value whose fields for the wave dispatch registers are the
    arguments and whose other fields are undefined. *)
Lemma createFetchFunc_out_of_range (fs : FetchShader) :
  argsInRange (m_vsEntryRegInfo fs) = false ->
  createFetchFunc fs = AssertionFailed "getArg() out of range!".
Proof. intros Hrange. by rewrite createFetchFunc_cases, Hrange. Qed.

Lemma generate_out_of_range mem (fs : FetchShader) :
  argsInRange (m_vsEntryRegInfo fs) = false ->
  generate mem fs = AssertionFailed "getArg() out of range!".
Proof. intros Hrange. unfold generate. by rewrite createFetchFunc_out_of_range. Qed.

Lemma createFetchFunc_spec (fs : FetchShader) :
  argsInRange (m_vsEntryRegInfo fs) = true ->
  exists seedFunc seedInsts seed,
    createFetchFunc fs = Ok seedFunc
    /\ map bbInsts (fnBlocks seedFunc) = [seedInsts ++ [ReturnInst (Some seed)]]
    /\ getType seed = StructTy (returnFieldTypes fs)
    /\ (forall k, sgprCount (m_vsEntryRegInfo fs) + vgprCount (m_vsEntryRegInfo fs) <= k ->
          structField seed k = UndefValue (getElementType (StructTy (returnFieldTypes fs)) k))
    /\ (forall k, k < sgprCount (m_vsEntryRegInfo fs) + vgprCount (m_vsEntryRegInfo fs) ->
          exists t, structField seed k = Argument k t).
Proof.
  intros Hrange. rewrite createFetchFunc_cases, Hrange.
  set (info := m_vsEntryRegInfo fs).
  set (entryTys := replicate _ Int32Ty ++ replicate _ FloatTy).
  destruct (copyInputs_spec entryTys (N.to_nat (sgprCount info + vgprCount info)) 0
              (UndefValue (StructTy (returnFieldTypes fs))))
    as (seed & insts & Hrun & Hty & Hout & Hin).
  rewrite Hrun.
  destruct ((callingConv info =? AMDGPU_HS) || (callingConv info =? AMDGPU_GS)).
  - eexists _, (_ :: insts), seed. cbn. split; [reflexivity|].
    split; [reflexivity|]. split; [done|]. split.
    + intros k Hk. rewrite Hout by lia. reflexivity.
    + intros k Hk. eexists. apply Hin. lia.
  - eexists _, insts, seed. cbn. split; [reflexivity|].
    split; [reflexivity|]. split; [done|]. split.
    + intros k Hk. rewrite Hout by lia. reflexivity.
    + intros k Hk. eexists. apply Hin. lia.
Qed.

Lemma described_new_lookup (ps : PipelineState) fetches info (j : nat) f :
  fetches !! j = Some f ->
  m_fetchDescriptions (new ps fetches info) !! j
  = Some (findVertexInputDescription ps (location f)).
Proof. intros Hj. simpl. by rewrite list_lookup_fmap, Hj. Qed.

Lemma fetchOne_spec (ps : PipelineState) fetches info idx result f :
  fetches !! N.to_nat idx = Some f ->
  described ps (location f) <> Dangling ->
  exists r insts,
    fetchOne (memory ps) (new ps fetches info) idx result = Ok (r, insts)
    /\ getType r = getType result
    /\ match described ps (location f) with
       | Object d =>
           r = InsertValueInst result
                 (castField (getElementType (getType result) (structIdx info idx)) f d)
                 (structIdx info idx)
           /\ (forall i, i ∈ insts ->
                 i = FetchVertexInst (ty f) d (location f) (component f)
                 \/ i = BitCastInst (FetchVertexInst (ty f) d (location f) (component f))
                                    (getElementType (getType result) (structIdx info idx))
                 \/ i = r)
       | _ => r = result /\ insts = []
       end.
Proof.
  intros Hf Hvalid. unfold fetchOne.
  rewrite (described_new_lookup ps fetches info _ f Hf).
  cbn [m_fetches new m_vsEntryRegInfo]. rewrite Hf.
  unfold described, pointee in *.
  destruct (findVertexInputDescription ps (location f)) as [addr|].
  2: { exists result, []. by repeat split. }
  destruct (memory ps !! addr) as [d|]; [|done].
  unfold castField, CreateBitCast, insert, IR.bind, IR.ret. cbn [getType].
  destruct (Ty_eqb (ty f) (getElementType (getType result) (structIdx info idx))).
  - eexists _, _. split; [reflexivity|]. split; [reflexivity|]. split; [reflexivity|].
    intros i Hi. cbn in Hi. repeat (apply elem_of_cons in Hi as [->|Hi]); auto.
    by apply elem_of_nil in Hi.
  - eexists _, _. split; [reflexivity|]. split; [reflexivity|]. split; [reflexivity|].
    intros i Hi. cbn in Hi. repeat (apply elem_of_cons in Hi as [->|Hi]); auto.
    by apply elem_of_nil in Hi.
Qed.

(** The loop over the fetches: which fetches and insertions it makes and
    what each field of the result is. *)
Lemma fetchLoop_spec (ps : PipelineState) fetches info count :
  (forall f, f ∈ fetches -> described ps (location f) <> Dangling) ->
  forall idx result,
  (N.to_nat idx + count <= length fetches)%nat ->
  exists r insts,
    fetchLoop (memory ps) (new ps fetches info) count idx result = Ok (r, insts)
    /\ getType r = getType result
    /\ (forall t d l c, FetchVertexInst t d l c ∈ insts ->
          exists j f, fetches !! j = Some f /\ l = location f
                      /\ described ps l = Object d)
    /\ (forall agg v i, InsertValueInst agg v i ∈ insts ->
          exists j f d, fetches !! j = Some f /\ i = structIdx info (N.of_nat j)
                        /\ described ps (location f) = Object d)
    /\ (forall k, (forall j, idx <= j < idx + N.of_nat count -> k <> structIdx info j) ->
          structField r k = structField result k)
    /\ (forall j f, idx <= N.of_nat j < idx + N.of_nat count ->
          fetches !! j = Some f ->
          structField r (structIdx info (N.of_nat j))
          = match described ps (location f) with
            | Object d =>
                castField (getElementType (getType result) (structIdx info (N.of_nat j))) f d
            | _ => structField result (structIdx info (N.of_nat j))
            end).
Proof.
  intros Hvalid. induction count as [|count IH]; intros idx result Hlen.
  - exists result, []. split; [reflexivity|]. split; [reflexivity|].
    split; [intros ? ? ? ? Hin; by apply elem_of_nil in Hin|].
    split; [intros ? ? ? Hin; by apply elem_of_nil in Hin|].
    split; [done|]. intros j f Hj. lia.
  - destruct (lookup_lt_is_Some_2 fetches (N.to_nat idx) ltac:(lia)) as [f Hf].
    assert (described ps (location f) <> Dangling) as Hv.
    { apply Hvalid. by eapply list_elem_of_lookup_2. }
    destruct (fetchOne_spec ps fetches info idx result f Hf Hv)
      as (r1 & insts1 & Hrun1 & Hty1 & Hone).
    destruct (IH (idx + 1) r1 ltac:(lia)) as (r & insts & Hrun & Hty & Hfv & Hiv & Hout & Hin).
    exists r, (insts1 ++ insts).
    split. { cbn [fetchLoop]. unfold IR.bind. rewrite Hrun1, Hrun. reflexivity. }
    split. { congruence. }
    assert (forall k, k <> structIdx info idx -> structField r1 k = structField result k) as Hr1.
    { intros k Hk. destruct (described ps (location f)).
      - by destruct Hone as [-> _].
      - destruct Hone as [-> _]. cbn [structField].
        destruct (N.eqb_spec (structIdx info idx) k); [congruence|reflexivity].
      - by destruct Hone as [-> _]. }
    split; [|split; [|split]].
    + intros t d l c [Hin1|Hin2]%elem_of_app; [|by eapply Hfv].
      destruct (described ps (location f)) as [|d'|] eqn:Hd.
      * destruct Hone as [_ ->]. by apply elem_of_nil in Hin1.
      * destruct Hone as [Hr Hinsts]. destruct (Hinsts _ Hin1) as [Heq|[Heq|Heq]].
        -- injection Heq as -> -> -> ->. eauto.
        -- discriminate.
        -- rewrite Hr in Heq. discriminate.
      * done.
    + intros agg v i [Hin1|Hin2]%elem_of_app; [|by eapply Hiv].
      destruct (described ps (location f)) as [|d'|] eqn:Hd.
      * destruct Hone as [_ ->]. by apply elem_of_nil in Hin1.
      * destruct Hone as [Hr Hinsts]. destruct (Hinsts _ Hin1) as [Heq|[Heq|Heq]].
        -- discriminate.
        -- discriminate.
        -- rewrite Hr in Heq. injection Heq as -> -> ->.
           exists (N.to_nat idx), f, d'. rewrite N2Nat.id. done.
      * done.
    + intros k Hk. rewrite Hout.
      * apply Hr1. apply Hk. lia.
      * intros j Hj. apply Hk. lia.
    + intros j f' Hj Hf'. destruct (N.eq_dec (N.of_nat j) idx) as [Heq|Hne].
      * assert (j = N.to_nat idx) as -> by lia. rewrite Hf in Hf'. injection Hf' as <-.
        rewrite N2Nat.id.
        rewrite Hout by (intros j' Hj'; unfold structIdx; lia).
        destruct (described ps (location f)).
        -- by destruct Hone as [-> _].
        -- destruct Hone as [-> _]. cbn [structField]. by rewrite N.eqb_refl.
        -- by destruct Hone as [-> _].
      * rewrite (Hin j f') by (done || lia). rewrite Hty1.
        destruct (described ps (location f')); try done; apply Hr1; unfold structIdx; lia.
Qed.

Lemma returnFieldTypes_fetch (ps : PipelineState) fetches info (j : nat) f :
  fetches !! j = Some f ->
  getElementType (StructTy (returnFieldTypes (new ps fetches info)))
                 (structIdx info (N.of_nat j))
  = getVgprTy (ty f).
Proof.
  intros Hj. unfold getElementType, returnFieldTypes, structIdx.
  cbn [m_vsEntryRegInfo m_fetches new].
  replace (N.to_nat (N.of_nat j + sgprCount info + vgprCount info))
    with (N.to_nat (sgprCount info) + (N.to_nat (vgprCount info) + j))%nat by lia.
  rewrite app_nth2; rewrite length_replicate; [|lia].
  rewrite app_nth2; rewrite length_replicate; [|lia].
  replace (N.to_nat (sgprCount info) + (N.to_nat (vgprCount info) + j)
           - N.to_nat (sgprCount info) - N.to_nat (vgprCount info))%nat with j by lia.
  apply nth_lookup_Some with (d := VoidTy). by rewrite list_lookup_fmap, Hj.
Qed.

(** C7.  Let fetch [idx] of a fetch shader have no vertex input description
    (and let no description pointer dangle).  When the register information
    names a register the function has no argument for, [generate] fails the
    assertion of [getArg] in [createFetchFunc].  Otherwise [generate]
    returns a function whose block is the block of [createFetchFunc] with the fetch
    code before the return, in which no vertex fetch is made for the
    location of that fetch and no [insertvalue] writes its field of the
    return structure; that field of the returned value is the one of the
    seeded return value, which is undefined; and the field of every fetch
    is determined by that fetch alone: the fetched vertex (cast to the type
    of the field) when its description is present, undefined otherwise. *)
Theorem generate_skips_unbound_fetch (ps : PipelineState)
    (fetches : list VertexFetchInfo) (info : VsEntryRegInfo)
    (idx : nat) (fetch : VertexFetchInfo) :
  (forall f, f ∈ fetches -> described ps (location f) <> Dangling) ->
  fetches !! idx = Some fetch ->
  described ps (location fetch) = Null ->
  if argsInRange info
  then
   (exists seedFunc func seedInsts seed fetchInsts result,
    createFetchFunc (new ps fetches info) = Ok seedFunc
    /\ map bbInsts (fnBlocks seedFunc) = [seedInsts ++ [ReturnInst (Some seed)]]
    /\ generate (memory ps) (new ps fetches info) = Ok func
    /\ map bbInsts (fnBlocks func) = [seedInsts ++ fetchInsts ++ [ReturnInst (Some result)]]
    /\ (forall t d l c, FetchVertexInst t d l c ∈ fetchInsts -> l <> location fetch)
    /\ (forall agg v i, InsertValueInst agg v i ∈ fetchInsts ->
          i <> structIdx info (N.of_nat idx))
    /\ structField result (structIdx info (N.of_nat idx))
       = structField seed (structIdx info (N.of_nat idx))
    /\ structField seed (structIdx info (N.of_nat idx)) = UndefValue (getVgprTy (ty fetch))
    /\ (forall j f, fetches !! j = Some f ->
          structField result (structIdx info (N.of_nat j))
          = match described ps (location f) with
            | Object d => castField (getVgprTy (ty f)) f d
            | _ => UndefValue (getVgprTy (ty f))
            end))
  else generate (memory ps) (new ps fetches info)
       = AssertionFailed "getArg() out of range!".
Proof.
  intros Hvalid Hidx Hnull.
  destruct (argsInRange info) eqn:Hrange;
    [|by apply generate_out_of_range].
  destruct (createFetchFunc_spec (new ps fetches info) Hrange)
    as (seedFunc & seedInsts & seed & Hcreate & Hblocks & Hty & Hundef & _).
  destruct (fetchLoop_spec ps fetches info (length fetches) Hvalid 0 seed ltac:(lia))
    as (result & fetchInsts & Hloop & Htyr & Hfv & Hiv & _ & Hfield).
  assert (forall j f, fetches !! j = Some f ->
            structField seed (structIdx info (N.of_nat j)) = UndefValue (getVgprTy (ty f)))
    as Hseed.
  { intros j f Hj. rewrite Hundef by (cbn; unfold structIdx; lia).
    by erewrite returnFieldTypes_fetch. }
  assert (exists func, generate (memory ps) (new ps fetches info) = Ok func
            /\ map bbInsts (fnBlocks func)
               = [seedInsts ++ fetchInsts ++ [ReturnInst (Some result)]])
    as (func & Hgen & Hfblocks).
  { unfold generate. rewrite Hcreate.
    destruct (fnBlocks seedFunc) as [|back [|? ?]] eqn:Hbs; try discriminate.
    injection Hblocks as Hback. cbn [reverse rev_append]. change (reverse [back]) with [back].
    rewrite Hback, reverse_snoc. cbn [m_fetches new] in *. rewrite Hloop.
    eexists. split; [reflexivity|]. cbn. by rewrite reverse_involutive. }
  exists seedFunc, func, seedInsts, seed, fetchInsts, result.
  split; [done|]. split; [done|]. split; [done|]. split; [done|].
  split; [|split; [|split; [|split]]].
  - intros t d l c Hin Heq. destruct (Hfv _ _ _ _ Hin) as (j & f & _ & _ & Hd).
    rewrite Heq in Hd. congruence.
  - intros agg v i Hin Heq. destruct (Hiv _ _ _ Hin) as (j & f & d & Hj & Hi & Hd).
    assert (j = idx) as -> by (unfold structIdx in *; lia).
    rewrite Hidx in Hj. injection Hj as <-. congruence.
  - rewrite (Hfield idx fetch) by (done || apply lookup_lt_Some in Hidx; lia).
    by rewrite Hnull.
  - by apply Hseed.
  - intros j f Hj. rewrite (Hfield j f) by (done || apply lookup_lt_Some in Hj; lia).
    rewrite Hty. erewrite returnFieldTypes_fetch by done.
    destruct (described ps (location f)); [by apply Hseed|done|by apply Hseed].
Qed.

End Generate.

(** *** The theorems at the example inputs *)

Lemma exampleFetches_described addr fetch :
  fetch ∈ exampleFetches -> described (examplePipelineAt addr) (location fetch) <> Dangling.
Proof.
  intros Hin. unfold exampleFetches in Hin.
  repeat (apply elem_of_cons in Hin as [->|Hin]); [| |by apply elem_of_nil in Hin];
    unfold described, pointee; cbn; [|done].
  by rewrite lookup_singleton_eq.
Qed.

Lemma unboundPipeline_described fetch : described unboundPipeline (location fetch) = Null.
Proof. reflexivity. Qed.

Lemma exampleFetches_described_alike fetch :
  fetch ∈ exampleFetches ->
  described (examplePipelineAt 4096) (location fetch)
  = described (examplePipelineAt 8192) (location fetch).
Proof.
  intros Hin. unfold exampleFetches in Hin.
  repeat (apply elem_of_cons in Hin as [->|Hin]); [| |by apply elem_of_nil in Hin];
    unfold described, pointee; cbn; [|done].
  by rewrite !lookup_singleton_eq.
Qed.

(** The description of location 0 at address 4096 in one pipeline state and
    at address 8192 in the other, the register information with zeros in
    the padding of both objects: one string. *)
Lemma getString_deterministic_witness :
  exists s,
    fst <$> getString (H := exampleDeclarations) (memory (examplePipelineAt 4096))
              (new (examplePipelineAt 4096) exampleFetches exampleRegInfo) = Some s
    /\ fst <$> getString (H := exampleDeclarations) (memory (examplePipelineAt 8192))
                 (new (examplePipelineAt 8192) exampleFetches exampleRegInfo) = Some s.
Proof.
  destruct (getString_deterministic (H := exampleDeclarations) (examplePipelineAt 4096)
              (examplePipelineAt 8192) exampleFetches exampleRegInfo exampleRegInfo)
    as (s1 & s2 & Hs1 & Hs2 & _ & Hequal).
  - by repeat split.
  - apply exampleFetches_described_alike.
  - apply exampleFetches_described.
  - exists s1. split; [exact Hs1|]. by rewrite (Hequal eq_refl).
Defined.

(** C1, the claim as the spec words it, fails: two fetch shaders made from
    the same pipeline state, the same fetch list and register information
    with the same member values return different strings when the padding
    of one [m_vsEntryRegInfo] holds zeros and the padding of the other holds
    what its storage held before. *)
Lemma getString_differs_by_padding :
  sameMembers exampleRegInfo exampleRegInfoStale
  /\ exists s1 s2,
       fst <$> getString (H := exampleDeclarations) (memory (examplePipelineAt 4096))
                 (new (examplePipelineAt 4096) exampleFetches exampleRegInfo) = Some s1
       /\ fst <$> getString (H := exampleDeclarations) (memory (examplePipelineAt 4096))
                    (new (examplePipelineAt 4096) exampleFetches exampleRegInfoStale)
          = Some s2
       /\ s1 <> s2.
Proof.
  split; [by repeat split|]. vm_compute. eexists _, _.
  split; [reflexivity|]. split; [reflexivity|]. discriminate.
Qed.

(** A fetch of four floats against a fetch of four 32-bit integers at the
    same location: two strings. *)
Lemma getString_distinguishes_fetches_witness :
  exists s1 s2,
    fst <$> getString (H := exampleDeclarations) (memory unboundPipeline)
              (new unboundPipeline [ {| location := 0; component := 0; ty := VectorTy FloatTy 4 |} ]
                   exampleRegInfo) = Some s1
    /\ fst <$> getString (H := exampleDeclarations) (memory unboundPipeline)
                 (new unboundPipeline
                      [ {| location := 0; component := 0; ty := VectorTy (IntegerTy 32) 4 |} ]
                      exampleRegInfo) = Some s2
    /\ s1 <> s2.
Proof.
  apply getString_distinguishes_fetches.
  - reflexivity.
  - repeat constructor; vm_compute; by repeat split.
  - repeat constructor; vm_compute; by repeat split.
  - intros fetch _. by rewrite unboundPipeline_described.
  - intros fetch _. by rewrite unboundPipeline_described.
  - intros Heq. discriminate Heq.
Defined.

(** C2, the claim as the spec words it, fails: the two fetch lists
    [collidingFetchesA] and [collidingFetchesB] differ in both of their
    triples, and the fetch shaders for them (same registers, no
    descriptions) return the same string.  The name [i1] followed by the first bytes of the
    next location reads as the name [i128]. *)
Lemma getString_collision :
  collidingFetchesA <> collidingFetchesB
  /\ (exists x y, collidingFetchesA = [x; y] /\ ~ x ∈ collidingFetchesB /\ ~ y ∈ collidingFetchesB)
  /\ fst <$> getString (H := exampleDeclarations) (memory unboundPipeline)
               (new unboundPipeline collidingFetchesA exampleRegInfo)
     = fst <$> getString (H := exampleDeclarations) (memory unboundPipeline)
                 (new unboundPipeline collidingFetchesB exampleRegInfo)
  /\ is_Some (getString (H := exampleDeclarations) (memory unboundPipeline)
                (new unboundPipeline collidingFetchesA exampleRegInfo)).
Proof.
  split; [discriminate|]. split.
  - eexists _, _. split; [reflexivity|].
    split; intros Hin; unfold collidingFetchesB in Hin;
      repeat (apply elem_of_cons in Hin as [Heq|Hin]); try discriminate Heq;
      by apply elem_of_nil in Hin.
  - split; [by vm_compute|]. vm_compute. eauto.
Qed.

(** Location 1 of the example has no description: its field of the return
    value, field 7 after four SGPRs and two VGPRs and the field of location
    0, stays undefined. *)
Lemma generate_skips_unbound_fetch_witness :
  exists seedFunc func seedInsts seed fetchInsts result,
    createFetchFunc (H := exampleDeclarations)
      (new (examplePipelineAt 4096) exampleFetches exampleRegInfo) = Ok seedFunc
    /\ map bbInsts (fnBlocks seedFunc) = [seedInsts ++ [ReturnInst (Some seed)]]
    /\ generate (H := exampleDeclarations) (memory (examplePipelineAt 4096))
         (new (examplePipelineAt 4096) exampleFetches exampleRegInfo) = Ok func
    /\ map bbInsts (fnBlocks func) = [seedInsts ++ fetchInsts ++ [ReturnInst (Some result)]]
    /\ (forall t d l c, FetchVertexInst t d l c ∈ fetchInsts -> l <> 1)
    /\ (forall agg v i, InsertValueInst agg v i ∈ fetchInsts -> i <> 7)
    /\ structField result 7 = structField seed 7
    /\ structField seed 7 = UndefValue FloatTy
    /\ (forall j f, exampleFetches !! j = Some f ->
          structField result (structIdx exampleRegInfo (N.of_nat j))
          = match described (examplePipelineAt 4096) (location f) with
            | Object d => castField (getVgprTy (Declarations := exampleDeclarations) (ty f)) f d
            | _ => UndefValue (getVgprTy (Declarations := exampleDeclarations) (ty f))
            end).
Proof.
  exact (generate_skips_unbound_fetch (H := exampleDeclarations) (examplePipelineAt 4096)
           exampleFetches exampleRegInfo 1
           {| location := 1; component := 0; ty := FloatTy |}
           (exampleFetches_described 4096) eq_refl eq_refl).
Defined.

End FetchShaderTheorems.

(* ===================================================================== *)
(** ** The copy shader: scan, streams and exports                        *)
(* ===================================================================== *)

Module PatchCopyShaderTheorems.
Import PatchCopyShader BuilderFacts.

Section Generation.
Context `{Declarations}.

(** *** The instructions the routines append *)

Lemma Calc_satisfies pass location compIdx streamId :
  satisfies (CalcGsVsRingOffsetForInput pass location compIdx streamId)
            (fun _ => True) plainInst.
Proof.
  unfold CalcGsVsRingOffsetForInput. repeat builder_step; done.
Qed.

Lemma loadRingElements_satisfies pass pLoadTy pElemTy desc location streamId elemCount
    count i v :
  notConstantVector v ->
  satisfies (loadRingElements pass pLoadTy pElemTy desc location streamId elemCount count i v)
            notConstantVector plainInst.
Proof.
  revert i v. induction count as [|count IH]; intros i v Hv; cbn [loadRingElements].
  - by apply satisfies_ret.
  - eapply satisfies_bind; [apply Calc_satisfies|]. intros off _.
    eapply satisfies_bind; [apply satisfies_insert with (Q := notConstantVector); done|].
    intros elem Helem.
    eapply satisfies_bind with (Q1 := notConstantVector).
    + repeat builder_step; done.
    + intros v' Hv'. by apply IH.
Qed.

Lemma LoadValueFromGsVsRing_satisfies pass pLoadTy location streamId :
  satisfies (LoadValueFromGsVsRing pass pLoadTy location streamId)
            notConstantVector exportInst.
Proof.
  unfold LoadValueFromGsVsRing.
  eapply satisfies_bind; [apply satisfies_assert with (Q := fun _ => True); exact I|].
  intros _ _. destruct (enableNgg _).
  { apply satisfies_insert; done. }
  destruct (isGsOnChip _).
  - destruct (m_pLds pass) as [pLds|]; [|done].
    eapply satisfies_bind with (Q1 := fun _ => True).
    { eapply satisfies_impl; [apply Calc_satisfies|done|by intros []]. }
    intros off _.
    eapply satisfies_bind; [apply satisfies_insert with (Q := fun _ => True); done|].
    intros ptr _.
    eapply satisfies_bind; [apply CreateBitCast_satisfies; done|].
    intros ptr' _. apply satisfies_insert; done.
  - destruct (m_pGsVsRingBufDesc pass) as [desc|]; [|done].
    eapply satisfies_impl; [by apply loadRingElements_satisfies|done|by intros []].
Qed.

Lemma CreateTrunc_satisfies v ty (P : Value -> Prop) :
  (P (TruncInst v ty)) ->
  satisfies (CreateTrunc v ty)
            (fun r => r = v \/ r = ConstantExpr Trunc v ty \/ r = TruncInst v ty) P.
Proof.
  intros HP. unfold CreateTrunc. destruct (Ty_eqb _ _); [|destruct (isConstant v)].
  - apply satisfies_ret. auto.
  - apply satisfies_ret. auto.
  - apply satisfies_insert; auto.
Qed.

Lemma CreateTrunc_notConstantVector v ty (P : Value -> Prop) :
  notConstantVector v -> P (TruncInst v ty) ->
  satisfies (CreateTrunc v ty) notConstantVector P.
Proof.
  intros Hv HP. eapply satisfies_impl; [by apply CreateTrunc_satisfies| |done].
  by intros ? [->|[->| ->]].
Qed.

Lemma narrowTo16bit_satisfies v :
  notConstantVector v ->
  satisfies (narrowTo16bit v) notConstantVector exportInst.
Proof.
  intros Hv. unfold narrowTo16bit.
  builder_step; [builder_step; done|].
  destruct (1 <? _).
  - eapply satisfies_bind; [by apply CreateBitCast_notConstantVector|]. intros ? ?.
    eapply satisfies_bind; [by apply CreateTrunc_notConstantVector|]. intros ? ?.
    by apply CreateBitCast_notConstantVector.
  - eapply satisfies_bind; [by apply CreateBitCast_notConstantVector|]. intros ? ?.
    by apply satisfies_ret.
Qed.

Lemma ExportGenericOutput_satisfies pass v location streamId :
  notConstantVector v ->
  satisfies (ExportGenericOutput pass v location streamId) (fun _ => True) exportInst.
Proof.
  intros Hv. unfold ExportGenericOutput, exportGenericXfb.
  eapply satisfies_bind with (Q1 := fun _ => True).
  - destruct (enableXfb _); [|by apply satisfies_ret].
    destruct (findOutLoc _ _ _); [|done].
    destruct (xfbOutsInfo _ !! _); [|by apply satisfies_ret].
    eapply satisfies_bind with (Q1 := notConstantVector).
    { destruct (is16bit _); [by apply narrowTo16bit_satisfies|by apply satisfies_ret]. }
    intros ? Hv'. repeat builder_step; done.
  - intros ? _. repeat builder_step; done.
Qed.

Lemma ExportBuiltInOutput_satisfies pass v builtInId streamId :
  notConstantVector v ->
  satisfies (ExportBuiltInOutput pass v builtInId streamId) (fun _ => True) exportInst.
Proof.
  intros Hv. unfold ExportBuiltInOutput.
  eapply satisfies_bind with (Q1 := fun _ => True).
  - repeat builder_step; done.
  - intros ? _. repeat builder_step; done.
Qed.

Lemma forEach_satisfies {A} (f : A -> Builder unit) (l : list A) (P : Value -> Prop) :
  (forall x, x ∈ l -> satisfies (f x) (fun _ => True) P) ->
  satisfies (forEach f l) (fun _ => True) P.
Proof.
  induction l as [|x l IH]; intros Hf; cbn [forEach].
  - by apply satisfies_ret.
  - eapply satisfies_bind; [apply Hf; left|].
    intros ? _. apply IH. intros y Hy. apply Hf. by right.
Qed.

Lemma exportGenericEntry_satisfies pass streamId entry :
  satisfies (exportGenericEntry pass streamId entry) (fun _ => True) exportInst.
Proof.
  unfold exportGenericEntry.
  builder_step; [builder_step; done|]. builder_step; [builder_step; done|].
  eapply satisfies_bind; [apply LoadValueFromGsVsRing_satisfies|].
  intros v Hv. by apply ExportGenericOutput_satisfies.
Qed.

Lemma exportBuiltInPair_satisfies pass streamId pair :
  satisfies (exportBuiltInPair pass streamId pair) (fun _ => True) exportInst.
Proof.
  unfold exportBuiltInPair. destruct (_ !! _); [|done].
  eapply satisfies_bind; [apply LoadValueFromGsVsRing_satisfies|].
  intros v Hv. by apply ExportBuiltInOutput_satisfies.
Qed.

Lemma exportInst_not_dummy i :
  exportInst i -> isDummyPositionExport i || isDummyPositionXfbExport i = false.
Proof.
  intros Hi. destruct i; try done. destruct base; try done.
  - destruct args as [|a [|v [|? ?]]]; try done.
    cbn in *. by destruct v.
  - destruct args as [|a [|b [|c [|v [|? ?]]]]]; try done.
    cbn in *. by destruct v.
Qed.

Lemma exportInst_not_switch i : exportInst i -> isSwitch i = false.
Proof. by destruct i. Qed.

(** What [ExportBuiltInOutput] appends for the dummy position. *)
Lemma ExportBuiltInOutput_dummy pass streamId' :
  exists insts,
    ExportBuiltInOutput pass dummyPosition BuiltInPosition streamId' = Ok (tt, insts)
    /\ existsb isDummyPositionExport insts
       = (rasterStream (resUsage (m_pPipelineState pass)) =? streamId')
    /\ existsb isDummyPositionXfbExport insts
       = enableXfb (resUsage (m_pPipelineState pass))
         && bool_decide (is_Some (xfbOutsInfo (resUsage (m_pPipelineState pass))
                                    !! positionKey streamId')).
Proof.
  unfold ExportBuiltInOutput, positionKey.
  destruct (rasterStream _ =? streamId'); destruct (enableXfb _);
    try destruct (xfbOutsInfo _ !! _); eexists; (split; [reflexivity|split; reflexivity]).
Qed.

(** C6, as amended.  Among the instructions [ExportOutput] appends for a
    stream there is a built-in export call of the constant [(0, 0, 0, 1)]
    exactly when transform feedback is enabled, the built-in usage records
    no position and the stream is the raster stream; and there is a
    transform feedback export call of that constant exactly when transform
    feedback is enabled, no position is recorded and the transform feedback
    table has an entry for the position of the stream.  So none is there
    with transform feedback disabled. *)
Theorem ExportOutput_dummy_position (pass : PatchCopyShader) (streamId' : N)
    (insts : list Value) :
  let pResUsage := resUsage (m_pPipelineState pass) in
  emitted (ExportOutput pass streamId') = Some insts ->
  existsb isDummyPositionExport insts
  = enableXfb pResUsage && negb (position (builtInUsage pResUsage))
    && (rasterStream pResUsage =? streamId')
  /\ existsb isDummyPositionXfbExport insts
     = enableXfb pResUsage && negb (position (builtInUsage pResUsage))
       && bool_decide (is_Some (xfbOutsInfo pResUsage !! positionKey streamId')).
Proof.
  intros pResUsage. unfold ExportOutput, emitted.
  destruct (IR.bind _ _) as [[[] insts']|] eqn:Hrun; [|discriminate].
  intros [= <-].
  apply bind_Ok_inv in Hrun as ([] & generic & rest & Hgeneric & Hrun & ->).
  apply bind_Ok_inv in Hrun as ([] & builtIns & dummy & HbuiltIns & Hdummy & ->).
  assert (existsb isDummyPositionExport generic || existsb isDummyPositionXfbExport generic
          = false) as Hg.
  { rewrite <- existsb_orb. apply existsb_none.
    eapply Forall_impl; [|apply exportInst_not_dummy].
    eapply (satisfies_emitted (forEach _ _)); [|by rewrite Hgeneric].
    apply forEach_satisfies. intros. apply exportGenericEntry_satisfies. }
  assert (existsb isDummyPositionExport builtIns || existsb isDummyPositionXfbExport builtIns
          = false) as Hb.
  { rewrite <- existsb_orb. apply existsb_none.
    eapply Forall_impl; [|apply exportInst_not_dummy].
    eapply (satisfies_emitted (forEach _ _)); [|by rewrite HbuiltIns].
    apply forEach_satisfies. intros. apply exportBuiltInPair_satisfies. }
  apply orb_false_iff in Hg as [Hg1 Hg2]. apply orb_false_iff in Hb as [Hb1 Hb2].
  rewrite !existsb_app, Hg1, Hg2, Hb1, Hb2. cbn [orb].
  fold pResUsage in Hdummy.
  destruct (enableXfb pResUsage && negb _) eqn:Hcond.
  - destruct (ExportBuiltInOutput_dummy pass streamId') as (insts & Hrun & Hex1 & Hex2).
    rewrite Hrun in Hdummy. injection Hdummy as <-.
    fold pResUsage in Hex1, Hex2. rewrite Hex1, Hex2.
    apply andb_true_iff in Hcond as [-> _]. done.
  - injection Hdummy as <-. done.
Qed.

(** *** The streams *)

Lemma streamIds_eq : streamIds = [0; 1; 2; 3].
Proof. reflexivity. Qed.

Lemma countOutputStreams_active pResUsage :
  countOutputStreams pResUsage
  = (N.of_nat (length (activeStreams pResUsage)), hd InvalidValue (activeStreams pResUsage)).
Proof.
  unfold countOutputStreams, activeStreams. rewrite streamIds_eq. cbn.
  destruct (0 <? outLocCount pResUsage 0), (0 <? outLocCount pResUsage 1),
    (0 <? outLocCount pResUsage 2), (0 <? outLocCount pResUsage 3); reflexivity.
Qed.

(** *** The scan and the prologue *)

Lemma andThen_Ok_inv {A B} (m : Result A) (f : A -> Result B) b :
  andThen m f = Ok b -> exists a, m = Ok a /\ f a = Ok b.
Proof. destruct m as [a|]; [|discriminate]. simpl. eauto. Qed.

Lemma foldl_andThen_failed {A B} (f : A -> B -> Result A) (l : list B) what :
  foldl (fun acc x => andThen acc (fun a => f a x)) (AssertionFailed what) l
  = AssertionFailed what.
Proof. induction l; simpl; auto. Qed.

Lemma foldl_andThen_invariant {A B} (f : A -> B -> Result A) (I : A -> Prop)
    (l : list B) a a' :
  (forall x a a', x ∈ l -> I a -> f a x = Ok a' -> I a') ->
  I a ->
  foldl (fun acc x => andThen acc (fun a => f a x)) (Ok a) l = Ok a' ->
  I a'.
Proof.
  revert a. induction l as [|x l IH]; intros a Hstep Ha; simpl.
  - by intros [= <-].
  - destruct (f a x) as [a1|what] eqn:Hf.
    + apply IH; [|by eapply Hstep; [left|..]].
      intros y b b' Hy. apply Hstep. by right.
    + by rewrite foldl_andThen_failed.
Qed.

Lemma sameButSizes_refl r : sameButSizes r r.
Proof. by destruct r. Qed.

Lemma collectUser_sameButSizes gs r0 r r' u :
  sameButSizes r0 r -> collectUser gs r u = Ok r' -> sameButSizes r0 r'.
Proof.
  intros Hr. unfold collectUser.
  destruct (user u); try (by intros [= <-]).
  destruct (negb _); [by intros [= <-]|].
  destruct args as [|op0 [|op1 [|op2 [|pOutput [|? ?]]]]]; try discriminate.
  unfold andThen.
  destruct (getZExtValue op0) as [value|]; [|discriminate].
  destruct (getZExtValue op2) as [streamId'|]; [|discriminate].
  destruct (outputLocMap r !! _) as [location'|]; [|by intros [= <-]].
  destruct (getZExtValue op1) as [compIdx|]; [|discriminate].
  destruct (compIdx <? 4); [|discriminate].
  intros [= <-]. unfold sameButSizes in *. rewrite Hr. reflexivity.
Qed.

Lemma CollectGsGenericOutputInfo_sameButSizes module gs r r' :
  CollectGsGenericOutputInfo module gs r = Ok r' -> sameButSizes r r'.
Proof.
  unfold CollectGsGenericOutputInfo.
  apply (foldl_andThen_invariant
           (fun r func => match namePrefix func with
                          | Some OutputExportGeneric => collectUsers gs r (users func)
                          | _ => Ok r
                          end) (sameButSizes r)); [|apply sameButSizes_refl].
  intros func r1 r2 _ Hr1.
  destruct (namePrefix func) as [[]|]; try (by intros [= <-]).
  unfold collectUsers.
  apply (foldl_andThen_invariant (fun r u => collectUser gs r u) (sameButSizes r)); [|done].
  intros u r3 r4 _ Hr3. by apply collectUser_sameButSizes.
Qed.

Lemma u32_mod_4 n : u32 n mod 4 = n mod 4.
Proof.
  unfold u32. rewrite (N.div_mod n 4294967296) at 2 by lia.
  replace (4294967296 * (n / 4294967296) + n mod 4294967296)
    with (n mod 4294967296 + (n / 4294967296 * 1073741824) * 4) by lia.
  by rewrite N.Div0.mod_add.
Qed.

Lemma outputByteSize_aligned t : dwordAligned t -> outputByteSize t mod 4 = 0.
Proof.
  unfold dwordAligned, outputByteSize, componentBitWidth.
  set (w := getScalarSizeInBits _). set (c := match t with VectorTy _ n => n | _ => 1 end).
  intros Hw. rewrite u32_mod_4. apply N.Lcm0.mod_divide. apply N.divide_mul_l.
  destruct (N.ltb_spec w 32) as [Hlt|Hge].
  - by exists 1.
  - destruct Hw as [Hw|Hw]; [lia|].
    apply N.Lcm0.mod_divide in Hw as [k ->]. exists (k * 1).
    replace (k * 32) with (k * 4 * 8) by lia. rewrite N.div_mul by lia. lia.
Qed.

Lemma outputByteSize_narrow_scalar t :
  isVectorTy t = false -> componentBitWidth t < 32 -> outputByteSize t = 4.
Proof.
  unfold outputByteSize, componentBitWidth. intros Hv Hw.
  destruct t; try discriminate; cbn in *; try reflexivity; try lia.
  destruct (N.ltb_spec bits 32); [reflexivity|lia].
Qed.

Lemma recordByteSize_aligned sizes streamId location compIdx byteSize :
  sizesAligned sizes -> byteSize mod 4 = 0 ->
  sizesAligned (recordByteSize sizes streamId location compIdx byteSize).
Proof.
  intros Hall Hb s loc l. unfold recordByteSize.
  destruct (N.eqb_spec s streamId) as [->|Hs]; [|apply Hall].
  destruct (decide (loc = location)) as [->|Hloc].
  - rewrite lookup_insert_eq. intros [= <-].
    apply Forall_insert; [|done].
    apply Forall_resize; [done|].
    destruct (sizes streamId !! location) as [l'|] eqn:Hl'; cbn; [by eapply Hall|constructor].
  - rewrite lookup_insert_ne by done. apply Hall.
Qed.

Lemma recordByteSize_lookup sizes streamId location compIdx byteSize :
  compIdx < 4 ->
  exists l,
    recordByteSize sizes streamId location compIdx byteSize streamId !! location = Some l
    /\ length l = 4%nat
    /\ l !! N.to_nat compIdx = Some byteSize.
Proof.
  intros Hidx. unfold recordByteSize. rewrite N.eqb_refl, lookup_insert_eq.
  eexists. split; [reflexivity|]. split.
  - by rewrite length_insert, length_resize.
  - apply list_lookup_insert_eq. rewrite length_resize. lia.
Qed.

(** What the body of the scan does with one export call of the geometry
    shader whose key is in the output location map. *)
Lemma collectUser_found gs r u base suffix retTy bits0 value bits1 compIdx bits2 stream
    pOutput location' :
  user u = CallInst base suffix retTy
             [ConstantInt bits0 value; ConstantInt bits1 compIdx; ConstantInt bits2 stream;
              pOutput] ->
  userFunction u = gs ->
  outputLocMap r
    !! GsOutLocInfo_u32All
         {| location := u32 value; isBuiltIn := false; streamId := u32 stream |}
  = Some location' ->
  u32 compIdx < 4 ->
  collectUser gs r u
  = Ok (setGenericOutByteSizes r
          (recordByteSize (genericOutByteSizes r) (u32 stream) location' (u32 compIdx)
             (outputByteSize (getType pOutput)))).
Proof.
  intros Huser <- Hkey Hidx. unfold collectUser. rewrite Huser, String.eqb_refl.
  cbn. rewrite Hkey. cbn. by destruct (N.ltb_spec (u32 compIdx) 4); [|lia].
Qed.

Lemma collectUser_aligned gs r r' u :
  (forall base suffix retTy op0 op1 op2 pOutput,
     user u = CallInst base suffix retTy [op0; op1; op2; pOutput] ->
     dwordAligned (getType pOutput)) ->
  sizesAligned (genericOutByteSizes r) ->
  collectUser gs r u = Ok r' ->
  sizesAligned (genericOutByteSizes r').
Proof.
  intros Hty Hall. unfold collectUser.
  destruct (user u) eqn:Hu; try (by intros [= <-]).
  destruct (negb _); [by intros [= <-]|].
  destruct args as [|op0 [|op1 [|op2 [|pOutput [|? ?]]]]]; try discriminate.
  unfold andThen.
  destruct (getZExtValue op0) as [value|]; [|discriminate].
  destruct (getZExtValue op2) as [streamId'|]; [|discriminate].
  destruct (outputLocMap r !! _) as [location'|]; [|by intros [= <-]].
  destruct (getZExtValue op1) as [compIdx|]; [|discriminate].
  destruct (compIdx <? 4); [|discriminate].
  intros [= <-]. cbn [genericOutByteSizes setGenericOutByteSizes].
  apply recordByteSize_aligned; [done|].
  apply outputByteSize_aligned. by eapply Hty.
Qed.

(** C4.  Let the values the geometry shader exports have components of
    less than 32 bits or of whole dwords, and let every byte size recorded
    before the scan be a multiple of four.  Then after the scan of the
    export calls every recorded byte size is a multiple of four.  The scan
    records, for an export call whose key is in the output location map, at
    the stream, mapped location and component of the call, a list of four
    sizes whose entry for the component is the byte size computed from the
    widened width; that byte size is a multiple of four, and it is 4 for a
    single component of 8 or 16 bits. *)
Theorem CollectGsGenericOutputInfo_byte_sizes (module : Module) (pGsEntryPoint : string)
    (pResUsage pResUsage' : ResourceUsage) :
  (forall func pUser base suffix retTy op0 op1 op2 pOutput,
     func ∈ functions module -> pUser ∈ users func ->
     user pUser = CallInst base suffix retTy [op0; op1; op2; pOutput] ->
     dwordAligned (getType pOutput)) ->
  sizesAligned (genericOutByteSizes pResUsage) ->
  CollectGsGenericOutputInfo module pGsEntryPoint pResUsage = Ok pResUsage' ->
  sizesAligned (genericOutByteSizes pResUsage')
  /\ (forall r pUser base suffix retTy bits0 value bits1 compIdx bits2 stream pOutput
             location',
        user pUser = CallInst base suffix retTy
                       [ConstantInt bits0 value; ConstantInt bits1 compIdx;
                        ConstantInt bits2 stream; pOutput] ->
        userFunction pUser = pGsEntryPoint ->
        outputLocMap r
          !! GsOutLocInfo_u32All
               {| location := u32 value; isBuiltIn := false; streamId := u32 stream |}
        = Some location' ->
        u32 compIdx < 4 ->
        dwordAligned (getType pOutput) ->
        exists r' sizes,
          collectUser pGsEntryPoint r pUser = Ok r'
          /\ genericOutByteSizes r' (u32 stream) !! location' = Some sizes
          /\ length sizes = 4%nat
          /\ sizes !! N.to_nat (u32 compIdx) = Some (outputByteSize (getType pOutput))
          /\ outputByteSize (getType pOutput) mod 4 = 0
          /\ (isVectorTy (getType pOutput) = false ->
              componentBitWidth (getType pOutput) = 8
              \/ componentBitWidth (getType pOutput) = 16 ->
              outputByteSize (getType pOutput) = 4)).
Proof.
  intros Hty Hall Hrun. split.
  - revert Hrun. unfold CollectGsGenericOutputInfo.
    apply (foldl_andThen_invariant
             (fun r func => match namePrefix func with
                            | Some OutputExportGeneric => collectUsers pGsEntryPoint r (users func)
                            | _ => Ok r
                            end)
             (fun r => sizesAligned (genericOutByteSizes r))); [|done].
    intros func r r' Hfunc Hr.
    destruct (namePrefix func) as [[]|]; try (by intros [= <-]).
    unfold collectUsers.
    apply (foldl_andThen_invariant (fun r u => collectUser pGsEntryPoint r u)
             (fun r => sizesAligned (genericOutByteSizes r))); [|done].
    intros u r1 r2 Hu Hr1. apply collectUser_aligned; [|done].
    intros. by eapply Hty.
  - intros r pUser base suffix retTy bits0 value bits1 compIdx bits2 stream pOutput
      location' Huser Hgs Hkey Hidx Haligned.
    destruct (recordByteSize_lookup (genericOutByteSizes r) (u32 stream) location'
                (u32 compIdx) (outputByteSize (getType pOutput)) Hidx)
      as (sizes & Hsizes & Hlen & Hcomp).
    eexists _, sizes. split; [by eapply collectUser_found|].
    split; [done|]. split; [done|]. split; [done|].
    split; [by apply outputByteSize_aligned|].
    intros Hv Hw. apply outputByteSize_narrow_scalar; [done|lia].
Qed.

Lemma prepare_resUsage module gs state pass prelude :
  prepare module gs state = Ok (pass, prelude) ->
  sameButSizes (resUsage state) (resUsage (m_pPipelineState pass))
  /\ CollectGsGenericOutputInfo module gs (resUsage state)
     = Ok (resUsage (m_pPipelineState pass))
  /\ isGsOnChip (m_pPipelineState pass) = isGsOnChip state
  /\ enableNgg (m_pPipelineState pass) = enableNgg state
  /\ enableMultiView (m_pPipelineState pass) = enableMultiView state
  /\ Forall (fun i => isSwitch i = false) prelude.
Proof.
  unfold prepare. intros (r' & Hscan & Hrest)%andThen_Ok_inv.
  pose proof (CollectGsGenericOutputInfo_sameButSizes _ _ _ _ Hscan) as Hsame.
  assert (Forall (fun i => isSwitch i = false) prelude
          /\ m_pPipelineState pass
             = (if gfxIpMajor (setResUsage state r') <=? 8
                then setUserDataUsage (setResUsage state r') 2 3
                else setUserDataUsage (setResUsage state r') 3 2)) as [Hsw Hst].
  { destruct (isGsOnChip _).
    - injection Hrest as <- <-. split; [constructor|done].
    - destruct LoadGsVsRingBufferDescriptor as [[desc insts]|] eqn:Hd; [|discriminate].
      injection Hrest as <- <-. split; [|done].
      revert Hd. unfold LoadGsVsRingBufferDescriptor, CreateBitCast. cbn.
      intros [= <- <-]. repeat constructor. }
  rewrite Hst. by destruct (_ <=? 8).
Qed.

(** *** The blocks of the function *)

Lemma addStreamBlock_failed pass l what :
  foldl (addStreamBlock pass) (AssertionFailed what) l = AssertionFailed what.
Proof. induction l; simpl; auto. Qed.

Lemma addStreamBlock_Ok pass cases blocks s :
  addStreamBlock pass (Ok (cases, blocks)) s
  = if 0 <? outLocCount (resUsage (m_pPipelineState pass)) s
    then match (ExportOutput pass s ;;; insert (BranchInst endBlockId))%builder with
         | Ok (_, insts) =>
             Ok (cases ++ [(s, (2 + length blocks)%nat)],
                 blocks ++ [ {| bbId := (2 + length blocks)%nat;
                                bbName := (".stream" +:+ pretty s)%string;
                                bbInsts := insts |} ])
         | AssertionFailed what => AssertionFailed what
         end
    else Ok (cases, blocks).
Proof. reflexivity. Qed.

Lemma addStreamBlocks_spec pass l : forall cases blocks cases' blocks',
  foldl (addStreamBlock pass) (Ok (cases, blocks)) l = Ok (cases', blocks') ->
  exists newBlocks,
    blocks' = blocks ++ newBlocks
    /\ cases' = cases ++ zip (List.filter
                               (fun i => 0 <? outLocCount (resUsage (m_pPipelineState pass)) i) l)
                            (map bbId newBlocks)
    /\ Forall2 (streamBlockOf pass)
         (List.filter (fun i => 0 <? outLocCount (resUsage (m_pPipelineState pass)) i) l)
         newBlocks
    /\ map bbId newBlocks = seq (2 + length blocks) (length newBlocks).
Proof.
  induction l as [|s l IH]; intros cases blocks cases' blocks'; cbn [foldl List.filter].
  - intros [= <- <-]. exists []. rewrite !app_nil_r. repeat split; constructor.
  - rewrite addStreamBlock_Ok.
    destruct (0 <? outLocCount _ s).
    + destruct (IR.bind _ _) as [[v insts]|] eqn:Hrun;
        [|by rewrite addStreamBlock_failed].
      intros (newBlocks & -> & -> & HF & Hids)%IH.
      apply bind_Ok_inv in Hrun as ([] & exportInsts & br & HE & Hbr & ->).
      injection Hbr as _ <-.
      eexists (_ :: newBlocks). rewrite <- !app_assoc. split; [reflexivity|].
      split; [reflexivity|]. split.
      * constructor; [|done]. exists exportInsts. cbn. by rewrite HE.
      * cbn. f_equal. rewrite Hids, length_app. cbn. f_equal. lia.
    + apply IH.
Qed.

Lemma ExportOutput_no_switch pass s insts :
  emitted (ExportOutput pass s) = Some insts -> Forall (fun i => isSwitch i = false) insts.
Proof.
  intros Hrun.
  eapply satisfies_emitted with (Q := fun _ => True); [|done].
  unfold ExportOutput.
  eapply satisfies_bind with (Q1 := fun _ => True).
  { eapply satisfies_impl; [|done|apply exportInst_not_switch].
    apply forEach_satisfies. intros. apply exportGenericEntry_satisfies. }
  intros _ _. eapply satisfies_bind with (Q1 := fun _ => True).
  { eapply satisfies_impl; [|done|apply exportInst_not_switch].
    apply forEach_satisfies. intros. apply exportBuiltInPair_satisfies. }
  intros _ _. destruct (_ && _); [|by apply satisfies_ret].
  unfold ExportBuiltInOutput.
  eapply satisfies_bind with (Q1 := fun _ => True).
  - repeat builder_step; done.
  - intros ? _. repeat builder_step; done.
Qed.

Lemma runOnModule_Ok_inv module gs state res :
  gsEntryPoint module = Some gs ->
  runOnModule module state = Ok res ->
  exists pass prelude entryInsts streamBlocks func,
    prepare module gs state = Ok (pass, prelude)
    /\ exportStreams pass = Ok (entryInsts, streamBlocks)
    /\ copyShader res = Some func
    /\ fnBlocks func
       = {| bbId := entryBlockId; bbName := ""; bbInsts := prelude ++ entryInsts |}
         :: streamBlocks ++ [endBlock].
Proof.
  intros Hgs. unfold runOnModule. rewrite Hgs.
  intros ([pass prelude] & Hprep & Hrest)%andThen_Ok_inv.
  apply andThen_Ok_inv in Hrest as ([entryInsts streamBlocks] & Hexp & Hres).
  injection Hres as <-. cbn. eauto 10.
Qed.

(** What [exportStreams] leaves in the entry block and which blocks it
    adds, by the streams with output locations. *)
Lemma exportStreams_spec pass entryInsts streamBlocks :
  exportStreams pass = Ok (entryInsts, streamBlocks) ->
  let pResUsage := resUsage (m_pPipelineState pass) in
  let active := activeStreams pResUsage in
  if (1 <? length active)%nat && enableXfb pResUsage
  then
    entryInsts
    = [streamIdField;
       SwitchInst streamIdField endBlockId (zip active (map bbId streamBlocks))]
    /\ Forall2 (streamBlockOf pass) active streamBlocks
    /\ map bbId streamBlocks = seq 2 (length streamBlocks)
  else
    exists exportInsts,
      ExportOutput pass (hd 0 active) = Ok (tt, exportInsts)
      /\ entryInsts = exportInsts ++ [BranchInst endBlockId]
      /\ streamBlocks = [].
Proof.
  intros Hexp pResUsage active. revert Hexp. unfold exportStreams.
  rewrite countOutputStreams_active. fold pResUsage active. cbn [fst snd].
  replace (1 <? N.of_nat (length active)) with (1 <? length active)%nat; cycle 1.
  { destruct (Nat.ltb_spec 1 (length active)), (N.ltb_spec 1 (N.of_nat (length active)));
      (done || lia). }
  destruct ((1 <? length active)%nat && enableXfb pResUsage).
  - intros ([cases blocks] & Hfold & Hres)%andThen_Ok_inv.
    injection Hres as <- <-.
    apply addStreamBlocks_spec in Hfold as (newBlocks & -> & -> & HF & Hids).
    by cbn [app] in *.
  - destruct (IR.bind _ _) as [[v insts]|] eqn:HE; [|discriminate].
    intros [= <- <-].
    apply bind_Ok_inv in HE as ([] & exportInsts & br & HE & Hbr & ->).
    injection Hbr as _ <-.
    assert ((if N.of_nat (length active) =? 0 then 0 else hd InvalidValue active)
            = hd 0 active) as Hsid.
    { destruct active; reflexivity. }
    rewrite Hsid in HE. by exists exportInsts.
Qed.

Lemma prepare_activeStreams module gs state pass prelude :
  prepare module gs state = Ok (pass, prelude) ->
  activeStreams (resUsage (m_pPipelineState pass)) = activeStreams (resUsage state)
  /\ enableXfb (resUsage (m_pPipelineState pass)) = enableXfb (resUsage state)
  /\ builtInUsage (resUsage (m_pPipelineState pass)) = builtInUsage (resUsage state).
Proof.
  intros (Hsame & _)%prepare_resUsage. rewrite Hsame. unfold activeStreams.
  by destruct (resUsage state).
Qed.

(** C3.  When [runOnModule] generates a copy shader for a module with a
    geometry shader: the stream-id value is the 2-bit field at bit 24 of
    the stream-info SGPR; if more than one stream has output locations and
    transform feedback is enabled, the entry block ends with that value and
    a switch on it whose default target is the ending block and whose cases
    are the active streams in order, one each, paired with the blocks added
    between the entry and the ending block, where the block of a stream
    holds the exports of that stream and a branch to the ending block, and
    all the blocks are distinct; otherwise the function has the entry block
    and the ending block only, the entry block ends with the exports of the
    first active stream (of stream 0 if none is active) and a branch to the
    ending block, and no block holds a switch. *)
Theorem runOnModule_stream_multiplexing (module : Module) (gs : string)
    (state : PipelineState) (res : PassResult) :
  gsEntryPoint module = Some gs ->
  runOnModule module state = Ok res ->
  let active := activeStreams (resUsage state) in
  exists pass prelude func,
    prepare module gs state = Ok (pass, prelude)
    /\ copyShader res = Some func
    /\ streamIdField
       = IntrinsicInst amdgcn_ubfe Int32Ty
           [Argument CopyShaderUserSgprIdxStreamInfo Int32Ty;
            ConstantInt 32 24; ConstantInt 32 2]
    /\ if (1 <? length active)%nat && enableXfb (resUsage state)
       then
         exists streamBlocks,
           fnBlocks func
           = {| bbId := entryBlockId; bbName := "";
                bbInsts := prelude ++
                  [streamIdField;
                   SwitchInst streamIdField endBlockId
                     (zip active (map bbId streamBlocks))] |}
             :: streamBlocks ++ [endBlock]
           /\ Forall2 (streamBlockOf pass) active streamBlocks
           /\ NoDup (entryBlockId :: map bbId streamBlocks ++ [endBlockId])
       else
         exists exportInsts,
           emitted (ExportOutput pass (hd 0 active)) = Some exportInsts
           /\ fnBlocks func
              = [ {| bbId := entryBlockId; bbName := "";
                     bbInsts := prelude ++ exportInsts ++ [BranchInst endBlockId] |};
                  endBlock ]
           /\ Forall (fun b => Forall (fun i => isSwitch i = false) (bbInsts b))
                     (fnBlocks func).
Proof.
  intros Hgs Hrun active.
  destruct (runOnModule_Ok_inv _ _ _ _ Hgs Hrun)
    as (pass & prelude & entryInsts & streamBlocks & func & Hprep & Hexp & Hfunc & Hblocks).
  exists pass, prelude, func. split; [done|]. split; [done|]. split; [reflexivity|].
  destruct (prepare_resUsage _ _ _ _ _ Hprep) as (_ & _ & _ & _ & _ & Hpre).
  destruct (prepare_activeStreams _ _ _ _ _ Hprep) as (Hactive & HenableXfb & _).
  apply exportStreams_spec in Hexp. cbv zeta in Hexp.
  rewrite Hactive, HenableXfb in Hexp. fold active in Hexp.
  destruct ((1 <? length active)%nat && enableXfb (resUsage state)).
  - destruct Hexp as (-> & HF & Hids).
    exists streamBlocks. split; [done|]. split; [done|].
    rewrite Hids. unfold entryBlockId, endBlockId.
    apply NoDup_cons. split.
    + intros [Hin|Hin]%elem_of_app.
      * apply elem_of_seq in Hin. lia.
      * apply list_elem_of_singleton in Hin. lia.
    + apply NoDup_app. split; [apply NoDup_seq|]. split; [|apply NoDup_singleton].
      intros x Hx Hx'. apply elem_of_seq in Hx. apply list_elem_of_singleton in Hx'. lia.
  - destruct Hexp as (exportInsts & HE & -> & ->).
    exists exportInsts. split; [by rewrite HE|]. split; [done|].
    rewrite Hblocks. repeat constructor; cbn.
    apply Forall_app. split; [done|]. apply Forall_app. split; [|by repeat constructor].
    eapply ExportOutput_no_switch. by rewrite HE.
Qed.

(** *** Built-in export calls, counted *)








(** *** Loads and generic exports, counted *)

Lemma Calc_no_load pass location compIdx streamId :
  satisfies (CalcGsVsRingOffsetForInput pass location compIdx streamId)
            (fun _ => True) notLoadOrExport.
Proof. unfold CalcGsVsRingOffsetForInput. repeat builder_step; done. Qed.

Lemma loadRingElements_count pass pLoadTy pElemTy desc location streamId elemCount
    count : forall i v0 v insts,
  loadRingElements pass pLoadTy pElemTy desc location streamId elemCount count i v0
  = Ok (v, insts) ->
  countInsts isOutputLoad insts = count /\ countInsts isGenericExport insts = 0%nat
  /\ (getType v0 = pLoadTy ->
      pElemTy = match pLoadTy with ArrayTy e _ | VectorTy e _ => e | _ => pLoadTy end ->
      getType v = pLoadTy).
Proof.
  induction count as [|count IH]; intros i v0 v insts; cbn [loadRingElements].
  - intros [= <- <-]. done.
  - intros (off & offInsts & rest & Hoff & Hrest & ->)%bind_Ok_inv.
    apply bind_Ok_inv in Hrest as (elem & elemInsts & rest' & Helem & Hrest & ->).
    injection Helem as <- <-.
    apply bind_Ok_inv in Hrest as (v1 & insInsts & loopInsts & Hins & Hloop & ->).
    apply IH in Hloop as (Hc1 & Hc2 & Hty).
    pose proof (Calc_no_load pass (u32 (location + i / 4)) (i mod 4) streamId) as Hcalc.
    unfold satisfies in Hcalc. rewrite Hoff in Hcalc. destruct Hcalc as [_ Hcalc].
    assert (countInsts isOutputLoad insInsts = 0%nat
            /\ countInsts isGenericExport insInsts = 0%nat
            /\ (getType v0 = pLoadTy ->
                pElemTy = match pLoadTy with ArrayTy e _ | VectorTy e _ => e | _ => pLoadTy end ->
                getType v1 = pLoadTy)) as (Hi1 & Hi2 & Hi3).
    { revert Hins. destruct (isArrayTy pLoadTy) eqn:Ha; [|destruct (isVectorTy pLoadTy) eqn:Hv].
      - intros [= <- <-]. done.
      - intros [= <- <-]. done.
      - intros ([] & aInsts & rInsts & Hassert & Hret & ->)%bind_Ok_inv.
        injection Hret as <- <-. unfold IR.assert in Hassert.
        destruct (elemCount =? 1); [|discriminate]. injection Hassert as <-.
        repeat split. intros _ ->. by destruct pLoadTy. }
    rewrite !countInsts_app. cbn [countInsts isOutputLoad isGenericExport].
    rewrite Hc1, Hc2, Hi1, Hi2.
    rewrite (countInsts_none isOutputLoad offInsts)
      by (eapply Forall_impl; [done|by intros ? [? ?]]).
    rewrite (countInsts_none isGenericExport offInsts)
      by (eapply Forall_impl; [done|by intros ? [? ?]]).
    split; [lia|]. split; [lia|]. intros Hv0 He. apply Hty; [|done]. by apply Hi3.
Qed.

Lemma LoadValueFromGsVsRing_count pass pLoadTy location streamId v insts :
  LoadValueFromGsVsRing pass pLoadTy location streamId = Ok (v, insts) ->
  getType v = pLoadTy
  /\ countInsts isOutputLoad insts
     = (if enableNgg (m_pPipelineState pass) || isGsOnChip (m_pPipelineState pass)
        then 1%nat
        else N.to_nat (match pLoadTy with ArrayTy _ n | VectorTy _ n => n | _ => 1 end))
  /\ countInsts isGenericExport insts = 0%nat.
Proof.
  unfold LoadValueFromGsVsRing.
  intros ([] & aInsts & rest & Hassert & Hrest & ->)%bind_Ok_inv.
  unfold IR.assert in Hassert. destruct (_ || _) eqn:Helem; [|discriminate].
  injection Hassert as <-. cbn [app].
  destruct (enableNgg _).
  { injection Hrest as <- <-. done. }
  destruct (isGsOnChip _).
  - destruct (m_pLds pass) as [pLds|]; [|discriminate].
    apply bind_Ok_inv in Hrest as (off & offInsts & rest' & Hoff & Hrest & ->).
    apply bind_Ok_inv in Hrest as (ptr & ptrInsts & rest'' & Hptr & Hrest & ->).
    injection Hptr as <- <-.
    apply bind_Ok_inv in Hrest as (ptr' & castInsts & loadInsts & Hcast & Hload & ->).
    injection Hload as <- <-.
    pose proof (Calc_no_load pass location 0 streamId) as Hcalc.
    unfold satisfies in Hcalc. rewrite Hoff in Hcalc. destruct Hcalc as [_ Hcalc].
    assert (countInsts isOutputLoad castInsts = 0%nat
            /\ countInsts isGenericExport castInsts = 0%nat) as [Hc1 Hc2].
    { revert Hcast. unfold CreateBitCast. destruct (Ty_eqb _ _); by intros [= <- <-]. }
    rewrite !countInsts_app. cbn [countInsts isOutputLoad isGenericExport orb].
    rewrite Hc1, Hc2.
    rewrite (countInsts_none isOutputLoad offInsts)
      by (eapply Forall_impl; [done|by intros ? [? ?]]).
    rewrite (countInsts_none isGenericExport offInsts)
      by (eapply Forall_impl; [done|by intros ? [? ?]]).
    done.
  - destruct (m_pGsVsRingBufDesc pass) as [desc|]; [|discriminate].
    apply loadRingElements_count in Hrest as (Hc1 & Hc2 & Hty).
    cbn [orb]. split; [by apply Hty|]. done.
Qed.

Lemma ExportGenericOutput_count pass v location streamId' insts :
  ExportGenericOutput pass v location streamId' = Ok (tt, insts) ->
  countInsts isOutputLoad insts = 0%nat
  /\ countInsts isGenericExport insts
     = (if rasterStream (resUsage (m_pPipelineState pass)) =? streamId' then 1%nat else 0%nat).
Proof.
  unfold ExportGenericOutput.
  intros (v' & xfbInsts & rasterInsts & Hxfb & Hraster & ->)%bind_Ok_inv.
  assert (Forall notLoadOrExport xfbInsts) as Hx.
  { assert (satisfies
              (if enableXfb (resUsage (m_pPipelineState pass))
               then exportGenericXfb (resUsage (m_pPipelineState pass)) v location streamId'
               else IR.ret v) (fun _ => True) notLoadOrExport) as Hs.
    { destruct (enableXfb _); [|by apply satisfies_ret].
      unfold exportGenericXfb, narrowTo16bit, CreateBitCast, CreateTrunc.
      repeat builder_step; done. }
    unfold satisfies in Hs. rewrite Hxfb in Hs. by destruct Hs. }
  rewrite !countInsts_app.
  rewrite (countInsts_none isOutputLoad xfbInsts)
    by (eapply Forall_impl; [done|by intros ? [? ?]]).
  rewrite (countInsts_none isGenericExport xfbInsts)
    by (eapply Forall_impl; [done|by intros ? [? ?]]).
  destruct (rasterStream _ =? streamId').
  - apply bind_Ok_inv in Hraster as ([] & aInsts & rest & Hassert & Hrest & ->).
    unfold IR.assert in Hassert. destruct (isSingleValueType _); [|discriminate].
    injection Hassert as <-. injection Hrest as <-. done.
  - injection Hraster as <-. done.
Qed.

Lemma exportGenericEntry_exportsLocation pass streamId' entry insts :
  exportGenericEntry pass streamId' entry = Ok (tt, insts) ->
  exportsLocation pass streamId' entry insts.
Proof.
  unfold exportGenericEntry.
  intros ([] & aInsts & rest & Hassert & Hrest & ->)%bind_Ok_inv.
  unfold IR.assert in Hassert. destruct (_ =? 0); [|discriminate].
  injection Hassert as <-. cbn [app].
  apply bind_Ok_inv in Hrest as ([] & aInsts & rest' & Hassert & Hrest & ->).
  unfold IR.assert in Hassert. destruct (0 <? _); [|discriminate].
  injection Hassert as <-. cbn [app].
  apply bind_Ok_inv in Hrest as (v & loadInsts & exportInsts & Hload & Hexport & ->).
  destruct (LoadValueFromGsVsRing_count _ _ _ _ _ _ Hload) as (Hty & Hl1 & Hl2).
  destruct (ExportGenericOutput_count _ _ _ _ _ Hexport) as (He1 & He2).
  exists v, loadInsts, exportInsts. done.
Qed.

Lemma forEach_Ok_inv {A} (f : A -> Builder unit) (l : list A) insts :
  forEach f l = Ok (tt, insts) ->
  exists perElement,
    insts = concat perElement /\ Forall2 (fun x xInsts => f x = Ok (tt, xInsts)) l perElement.
Proof.
  revert insts. induction l as [|x l IH]; intros insts; cbn [forEach].
  - intros [= <-]. exists []. split; [done|constructor].
  - intros ([] & xInsts & rest & Hx & Hrest & ->)%bind_Ok_inv.
    apply IH in Hrest as (perElement & -> & HF).
    exists (xInsts :: perElement). split; [done|]. by constructor.
Qed.

(** C8, as amended.  The instructions [ExportOutput] appends for a stream
    start with one group per location recorded for the stream, in the order
    of the iteration.  The group of a location is the load of a vector of
    as many floats as the location has dwords (its byte sizes added up,
    divided by four), which is one load from LDS or one import call under
    NGG and one buffer load per dword from the ring off chip, and then what
    [ExportGenericOutput] appends for the loaded value, where the generic
    export call is there once if the stream is the raster stream and not at
    all otherwise. *)
Theorem ExportOutput_generic_outputs (pass : PatchCopyShader) (streamId' : N)
    (insts : list Value) :
  emitted (ExportOutput pass streamId') = Some insts ->
  exists perLocation rest,
    insts = concat perLocation ++ rest
    /\ Forall2 (exportsLocation pass streamId')
         (map_to_list (genericOutByteSizes (resUsage (m_pPipelineState pass)) streamId'))
         perLocation.
Proof.
  unfold emitted. destruct (ExportOutput pass streamId') as [[[] insts']|] eqn:Hrun;
    [|discriminate].
  intros [= <-]. unfold ExportOutput in Hrun.
  apply bind_Ok_inv in Hrun as ([] & generic & rest & Hgeneric & _ & ->).
  apply forEach_Ok_inv in Hgeneric as (perLocation & -> & HF).
  exists perLocation, rest. split; [done|].
  eapply Forall2_impl; [done|]. intros entry entryInsts.
  apply exportGenericEntry_exportsLocation.
Qed.

(** *** Keys missing from the output location map *)

Lemma find_none_iff {A} (p : A -> bool) (l : list A) :
  List.find p l = None <-> forall x, x ∈ l -> p x = false.
Proof.
  induction l as [|y l IH]; cbn.
  - split; [|done]. intros _ x Hx. by apply elem_of_nil in Hx.
  - destruct (p y) eqn:Hy.
    + split; [discriminate|]. intros Hall. rewrite Hall in Hy by left. discriminate.
    + rewrite IH. split.
      * intros Hall x [->|Hx]%elem_of_cons; auto.
      * intros Hall x Hx. apply Hall. by right.
Qed.

Lemma elem_of_entriesByKey (m : gmap N N) key loc :
  (key, loc) ∈ entriesByKey m <-> m !! key = Some loc.
Proof.
  unfold entriesByKey. by rewrite merge_sort_Permutation, elem_of_map_to_list.
Qed.

Lemma findOutLoc_None outLocMap location' streamId' :
  findOutLoc outLocMap location' streamId' = None
  <-> (forall key loc, outLocMap !! key = Some loc ->
         ~ (loc = location' /\ streamId (GsOutLocInfo_cast key) = streamId')).
Proof.
  unfold findOutLoc. rewrite find_none_iff. split.
  - intros Hall key loc Hkey [Hl Hs].
    specialize (Hall (key, loc)). rewrite elem_of_entriesByKey in Hall.
    specialize (Hall Hkey). cbn in Hall. subst. by rewrite !N.eqb_refl in Hall.
  - intros Hall [key loc] Hin. apply elem_of_entriesByKey in Hin. cbn.
    destruct (N.eqb_spec loc location'); [|done].
    destruct (N.eqb_spec (streamId (GsOutLocInfo_cast key)) streamId'); [|done].
    by destruct (Hall key loc Hin).
Qed.

Lemma forEach_failed {A} (f : A -> Builder unit) (l : list A) x :
  x ∈ l -> (exists what, f x = AssertionFailed what) ->
  exists what, forEach f l = AssertionFailed what.
Proof.
  intros Hx [what Hf]. induction l as [|y l IH]; [by apply elem_of_nil in Hx|].
  cbn [forEach]. unfold IR.bind.
  apply elem_of_cons in Hx as [<-|Hx].
  - rewrite Hf. eauto.
  - destruct (f y) as [[[] insts]|what']; [|eauto].
    destruct (IH Hx) as [what'' ->]. eauto.
Qed.

Lemma ExportGenericOutput_unmapped pass v location' streamId' :
  enableXfb (resUsage (m_pPipelineState pass)) = true ->
  findOutLoc (outputLocMap (resUsage (m_pPipelineState pass))) location' streamId' = None ->
  ExportGenericOutput pass v location' streamId'
  = AssertionFailed "locIter != outLocMap.end()".
Proof.
  intros Hxfb Hfind. unfold ExportGenericOutput, exportGenericXfb.
  by rewrite Hxfb, Hfind.
Qed.

(** C9, as amended.  The scan skips an export call whose packed key is not
    in the output location map: the body of its loop returns the resource
    usage as it was, without an error.  With transform feedback enabled, a
    location recorded for a stream to which no key of that stream in the
    output location map maps makes [ExportGenericOutput] fail the
    assertion [locIter != outLocMap.end()], and [ExportOutput] of that
    stream fail with it. *)
Theorem unmapped_location_key (pGsEntryPoint : string) (pResUsage : ResourceUsage)
    (pUser : Use) (base : lgcName) (suffix : string) (retTy : Ty)
    (bits0 value bits2 stream : N) (op1 pOutput : Value)
    (pass : PatchCopyShader) (streamId' loc : N) (sizes : list N) :
  (user pUser = CallInst base suffix retTy
                  [ConstantInt bits0 value; op1; ConstantInt bits2 stream; pOutput] ->
   outputLocMap pResUsage
     !! GsOutLocInfo_u32All
          {| location := u32 value; isBuiltIn := false; streamId := u32 stream |} = None ->
   collectUser pGsEntryPoint pResUsage pUser = Ok pResUsage)
  /\ (enableXfb (resUsage (m_pPipelineState pass)) = true ->
      genericOutByteSizes (resUsage (m_pPipelineState pass)) streamId' !! loc = Some sizes ->
      (forall key loc', outputLocMap (resUsage (m_pPipelineState pass)) !! key = Some loc' ->
         ~ (loc' = loc /\ streamId (GsOutLocInfo_cast key) = streamId')) ->
      (forall pOutputValue,
         ExportGenericOutput pass pOutputValue loc streamId'
         = AssertionFailed "locIter != outLocMap.end()")
      /\ exists what, ExportOutput pass streamId' = AssertionFailed what).
Proof.
  split.
  - intros Huser Hkey. unfold collectUser. rewrite Huser.
    destruct (negb _); [done|]. cbn. by rewrite Hkey.
  - intros Hxfb Hsizes Hnone. apply findOutLoc_None in Hnone.
    assert (forall v, ExportGenericOutput pass v loc streamId'
                      = AssertionFailed "locIter != outLocMap.end()") as Hfail.
    { intros v. by apply ExportGenericOutput_unmapped. }
    split; [done|].
    destruct (forEach_failed (exportGenericEntry pass streamId')
                (map_to_list (genericOutByteSizes (resUsage (m_pPipelineState pass)) streamId'))
                (loc, sizes)) as [what Hwhat].
    + by apply elem_of_map_to_list.
    + unfold exportGenericEntry. cbn [fst snd].
      unfold IR.assert. destruct (_ =? 0); [|by eexists].
      cbn [IR.bind IR.ret]. destruct (0 <? _); [|by eexists].
      cbn [IR.bind IR.ret].
      destruct (LoadValueFromGsVsRing _ _ _ _) as [[v insts]|what]; [|by eexists].
      unfold IR.bind. rewrite Hfail. by eexists.
    + unfold ExportOutput. unfold IR.bind at 1. rewrite Hwhat. by eexists.
Qed.

(** *** 16-bit transform feedback outputs *)

Lemma narrowTo16bit_single_component v :
  isConstant v = false ->
  isFPOrFPVectorTy (getType v) && (getScalarSizeInBits (getType v) =? 32) = true ->
  (match getType v with VectorTy _ n => n | _ => 1 end) <= 1 ->
  narrowTo16bit v
  = Ok (BitCastInst (TruncInst (BitCastInst v Int32Ty) Int16Ty) HalfTy,
        [BitCastInst v Int32Ty]).
Proof.
  intros Hinst Hfp Hcount. unfold narrowTo16bit. rewrite Hfp.
  cbn [IR.assert IR.bind IR.ret].
  destruct (N.ltb_spec 1 (match getType v with VectorTy _ n => n | _ => 1 end)); [lia|].
  unfold CreateBitCast. rewrite Hinst.
  assert (Ty_eqb (getType v) Int32Ty = false) as ->; [|reflexivity].
  destruct (getType v); try done.
Qed.

Lemma narrowTo16bit_vector v n :
  isConstant v = false ->
  getType v = VectorTy FloatTy n -> 1 < n ->
  narrowTo16bit v
  = Ok (BitCastInst (TruncInst (BitCastInst v (VectorTy Int32Ty n)) (VectorTy Int16Ty n))
                    (VectorTy HalfTy n),
        [BitCastInst v (VectorTy Int32Ty n);
         TruncInst (BitCastInst v (VectorTy Int32Ty n)) (VectorTy Int16Ty n);
         BitCastInst (TruncInst (BitCastInst v (VectorTy Int32Ty n)) (VectorTy Int16Ty n))
                     (VectorTy HalfTy n)]).
Proof.
  intros Hinst Hty Hn. unfold narrowTo16bit. rewrite Hty. cbn.
  destruct (N.ltb_spec 1 n); [|lia].
  unfold CreateBitCast, CreateTrunc. cbn. rewrite Hty, Hinst. cbn. reflexivity.
Qed.

(** For a constant the builder folds every cast it is asked for: the
    narrowing inserts nothing. *)
Lemma narrowTo16bit_constant v :
  isConstant v = true ->
  isFPOrFPVectorTy (getType v) && (getScalarSizeInBits (getType v) =? 32) = true ->
  exists narrowed,
    narrowTo16bit v = Ok (narrowed, []) /\ isSingleValueType (getType narrowed) = true.
Proof.
  intros Hconst Hfp. unfold narrowTo16bit. rewrite Hfp.
  cbn [IR.assert IR.bind IR.ret].
  assert (forall ty, getScalarSizeInBits ty <> 32 -> Ty_eqb (getType v) ty = false)
    as Hother.
  { intros ty Hsize. destruct (Ty_eqb (getType v) ty) eqn:Heq; [|done].
    apply Ty_eqb_eq in Heq. subst ty. apply andb_true_iff in Hfp as [_ ?%N.eqb_eq]. done. }
  assert (forall ty, isFPOrFPVectorTy ty = false -> Ty_eqb (getType v) ty = false)
    as Hint.
  { intros ty Hfloat. destruct (Ty_eqb (getType v) ty) eqn:Heq; [|done].
    apply Ty_eqb_eq in Heq. subst ty. apply andb_true_iff in Hfp as [Hfp _]. congruence. }
  destruct (1 <? _).
  - unfold CreateBitCast, CreateTrunc. rewrite Hint, Hconst by done.
    cbn [IR.bind IR.ret getType isConstant Ty_eqb Int32Ty Int16Ty N.eqb Pos.eqb andb app].
    eexists; split; reflexivity.
  - unfold CreateBitCast. rewrite Hint, Hconst by done. eexists; split; reflexivity.
Qed.

(** C5.  What the transform feedback part of [ExportGenericOutput] appends
    for an output in the transform feedback table and which value the
    export call writes.  Not flagged 16-bit: the call alone, writing the
    value as it is.  Flagged 16-bit, a vector of more than one float that
    is an instruction, as a value loaded from the ring is: the bit cast to
    integers, the truncation to 16 bits and the bit cast to halves, then
    the call writing the last of them.  Flagged 16-bit, a single 32-bit
    float component that is an instruction: the bit cast to [i32] and the
    call; the call writes a bit cast of a truncation of that bit cast, and
    neither the truncation nor the outer bit cast is appended to the block.
    Flagged 16-bit, a constant: the builder folds the casts it is asked
    for, and the call alone is appended. *)
Theorem exportGenericXfb_narrowing (pResUsage : ResourceUsage) (pOutputValue : Value)
    (location' streamId' : N) (locIter : N * N) (packed : N) :
  findOutLoc (outputLocMap pResUsage) location' streamId' = Some locIter ->
  xfbOutsInfo pResUsage !! fst locIter = Some packed ->
  let pXfbOutInfo := XfbOutInfo_cast packed in
  let call v :=
    let args := [getInt32 (xfbBuffer pXfbOutInfo); getInt32 (xfbOffset pXfbOutInfo);
                 getInt32 (xfbExtraOffset pXfbOutInfo); v] in
    CallInst OutputExportXfb (AddTypeMangling args "") VoidTy args in
  (is16bit pXfbOutInfo = false ->
   exportGenericXfb pResUsage pOutputValue location' streamId'
   = Ok (pOutputValue, [call pOutputValue]))
  /\ (is16bit pXfbOutInfo = true ->
      isConstant pOutputValue = false ->
      forall n, getType pOutputValue = VectorTy FloatTy n -> 1 < n ->
      let ints := BitCastInst pOutputValue (VectorTy Int32Ty n) in
      let shorts := TruncInst ints (VectorTy Int16Ty n) in
      let halves := BitCastInst shorts (VectorTy HalfTy n) in
      exportGenericXfb pResUsage pOutputValue location' streamId'
      = Ok (halves, [ints; shorts; halves; call halves]))
  /\ (is16bit pXfbOutInfo = true ->
      isConstant pOutputValue = false ->
      isFPOrFPVectorTy (getType pOutputValue)
      && (getScalarSizeInBits (getType pOutputValue) =? 32) = true ->
      (match getType pOutputValue with VectorTy _ n => n | _ => 1 end) <= 1 ->
      let int := BitCastInst pOutputValue Int32Ty in
      let half := BitCastInst (TruncInst int Int16Ty) HalfTy in
      exportGenericXfb pResUsage pOutputValue location' streamId'
      = Ok (half, [int; call half])
      /\ countInsts isTrunc [int; call half] = 0%nat
      /\ ~ half ∈ [int; call half])
  /\ (is16bit pXfbOutInfo = true ->
      isConstant pOutputValue = true ->
      isFPOrFPVectorTy (getType pOutputValue)
      && (getScalarSizeInBits (getType pOutputValue) =? 32) = true ->
      exists narrowed,
        exportGenericXfb pResUsage pOutputValue location' streamId'
        = Ok (narrowed, [call narrowed])).
Proof.
  intros Hfind Hinfo pXfbOutInfo call.
  unfold exportGenericXfb. rewrite Hfind, Hinfo. fold pXfbOutInfo.
  split; [|split; [|split]].
  - intros Hflag. by rewrite Hflag.
  - intros Hflag Hinst n Hty Hn. rewrite Hflag.
    by rewrite (narrowTo16bit_vector _ n Hinst Hty Hn).
  - intros Hflag Hinst Hfp Hcount. rewrite Hflag.
    rewrite (narrowTo16bit_single_component _ Hinst Hfp Hcount).
    split; [reflexivity|]. split; [reflexivity|].
    intros Hin. repeat (apply elem_of_cons in Hin as [Heq|Hin]); try discriminate Heq.
    by apply elem_of_nil in Hin.
  - intros Hflag Hconst Hfp. rewrite Hflag.
    destruct (narrowTo16bit_constant _ Hconst Hfp) as (narrowed & -> & _).
    by exists narrowed.
Qed.

End Generation.

(** *** The theorems at the example inputs *)

Section Examples.
Local Existing Instance exampleDeclarations.

(** Streams 0 and 2 active with transform feedback: a switch with the two
    cases 0 and 2, two stream blocks, and the ending block as default. *)
Lemma runOnModule_stream_multiplexing_witness :
  exists res pass prelude func streamBlocks,
    runOnModule (exampleModule multiStreamExports) (exampleState multiStreamUsage) = Ok res
    /\ prepare (exampleModule multiStreamExports) "gs" (exampleState multiStreamUsage)
       = Ok (pass, prelude)
    /\ copyShader res = Some func
    /\ fnBlocks func
       = {| bbId := entryBlockId; bbName := "";
            bbInsts := prelude ++
              [streamIdField;
               SwitchInst streamIdField endBlockId (zip [0; 2] (map bbId streamBlocks))] |}
         :: streamBlocks ++ [endBlock]
    /\ Forall2 (streamBlockOf pass) [0; 2] streamBlocks
    /\ NoDup (entryBlockId :: map bbId streamBlocks ++ [endBlockId]).
Proof.
  assert (exists res,
            runOnModule (exampleModule multiStreamExports) (exampleState multiStreamUsage)
            = Ok res) as [res Hrun] by (vm_compute; eauto).
  destruct (runOnModule_stream_multiplexing (exampleModule multiStreamExports) "gs"
              (exampleState multiStreamUsage) res eq_refl Hrun)
    as (pass & prelude & func & Hprep & Hfunc & _ & Hcase).
  change (activeStreams (resUsage (exampleState multiStreamUsage))) with [0; 2] in Hcase.
  change ((1 <? length [0; 2])%nat && enableXfb (resUsage (exampleState multiStreamUsage)))
    with true in Hcase.
  destruct Hcase as (streamBlocks & Hblocks & Hstreams & Hids).
  exists res, pass, prelude, func, streamBlocks. repeat split; assumption.
Defined.

(** The byte sizes of an 8-bit integer, a 16-bit float and two doubles. *)
Lemma CollectGsGenericOutputInfo_byte_sizes_witness :
  exists pResUsage',
    CollectGsGenericOutputInfo (exampleModule narrowExports) "gs" narrowUsage = Ok pResUsage'
    /\ genericOutByteSizes pResUsage' 0 !! 0 = Some [4; 4; 0; 0]
    /\ genericOutByteSizes pResUsage' 0 !! 1 = Some [16; 0; 0; 0]
    /\ sizesAligned (genericOutByteSizes pResUsage').
Proof.
  assert (exists r, CollectGsGenericOutputInfo (exampleModule narrowExports) "gs" narrowUsage
                    = Ok r
                    /\ genericOutByteSizes r 0 !! 0 = Some [4; 4; 0; 0]
                    /\ genericOutByteSizes r 0 !! 1 = Some [16; 0; 0; 0])
    as (r & Hrun & Hsizes0 & Hsizes1) by (vm_compute; eauto).
  exists r. split; [exact Hrun|]. split; [exact Hsizes0|]. split; [exact Hsizes1|].
  apply (CollectGsGenericOutputInfo_byte_sizes (exampleModule narrowExports) "gs"
           narrowUsage r).
  - intros func pUser base suffix retTy op0 op1 op2 pOutput Hfunc HpUser Huser.
    apply list_elem_of_singleton in Hfunc. subst func.
    cbn [users] in HpUser. unfold narrowExports in HpUser.
    repeat (apply elem_of_cons in HpUser as [->|HpUser]);
      [| | |by apply elem_of_nil in HpUser];
      injection Huser as _ _ _ _ _ _ <-; vm_compute; (by left) || (by right).
  - intros s loc l Hl. cbn in Hl. by rewrite lookup_empty in Hl.
  - exact Hrun.
Defined.

(** Transform feedback without a position, at the raster stream: the
    dummy position goes to the built-in export, and to no transform
    feedback export as the table has no entry for the position. *)
Lemma ExportOutput_dummy_position_witness :
  exists insts,
    emitted (ExportOutput (examplePass [] noStreamUsage) 0) = Some insts
    /\ existsb isDummyPositionExport insts = true
    /\ existsb isDummyPositionXfbExport insts = false.
Proof.
  assert (exists insts,
            emitted (ExportOutput (examplePass [] noStreamUsage) 0) = Some insts)
    as [insts Hinsts] by (vm_compute; eauto).
  exists insts. split; [exact Hinsts|].
  exact (ExportOutput_dummy_position (examplePass [] noStreamUsage) 0 insts Hinsts).
Defined.

(** C6, the claim as the spec words it, fails: with transform feedback
    enabled and no position recorded, the exports of stream 1, which is not
    the raster stream, hold no instruction at all, and the copy shader
    generated for a geometry shader with outputs in stream 1 only has no
    export of the dummy position in any block. *)
Lemma ExportOutput_no_dummy_position_off_raster_stream :
  enableXfb xfbStream1Usage = true
  /\ position (builtInUsage xfbStream1Usage) = false
  /\ emitted (ExportOutput (examplePass [] xfbStream1Usage) 1) = Some []
  /\ exists res func,
       runOnModule (exampleModule []) (exampleState xfbStream1Usage) = Ok res
       /\ copyShader res = Some func
       /\ forallb (fun b => negb (existsb isDummyPositionExport (bbInsts b))
                            && negb (existsb isDummyPositionXfbExport (bbInsts b)))
                  (fnBlocks func) = true.
Proof.
  split; [reflexivity|]. split; [reflexivity|]. split; [by vm_compute|].
  vm_compute. eauto.
Qed.

(** Four floats at location 0 of the raster stream, from the ring. *)
Lemma ExportOutput_generic_outputs_witness :
  exists insts perLocation rest,
    emitted (ExportOutput (examplePass multiStreamExports multiStreamUsage) 0) = Some insts
    /\ insts = concat perLocation ++ rest
    /\ Forall2 (exportsLocation (examplePass multiStreamExports multiStreamUsage) 0)
         [(0, [16; 0; 0; 0])] perLocation.
Proof.
  assert (exists insts,
            emitted (ExportOutput (examplePass multiStreamExports multiStreamUsage) 0)
            = Some insts) as [insts Hinsts] by (vm_compute; eauto).
  destruct (ExportOutput_generic_outputs
              (examplePass multiStreamExports multiStreamUsage) 0 insts Hinsts)
    as (perLocation & rest & Heq & Hall).
  exists insts, perLocation, rest. split; [exact Hinsts|]. split; [exact Heq|].
  exact Hall.
Defined.

(** C8, the claim as the spec words it, fails: for two floats at location 0
    the ring is read by two buffer loads, and the generic export call
    follows in the raster stream 0 only; in stream 1 none does. *)
Lemma ExportOutput_two_loads_no_export :
  (exists insts,
     emitted (ExportOutput (examplePass (twoFloatExports 0) (twoFloatUsage 0)) 0) = Some insts
     /\ genericOutByteSizes
          (resUsage (m_pPipelineState (examplePass (twoFloatExports 0) (twoFloatUsage 0)))) 0
        = {[ 0 := [4; 4; 0; 0] ]}
     /\ countInsts isOutputLoad insts = 2%nat
     /\ countInsts isGenericExport insts = 1%nat)
  /\ (exists insts,
        emitted (ExportOutput (examplePass (twoFloatExports 1) (twoFloatUsage 1)) 1)
        = Some insts
        /\ genericOutByteSizes
             (resUsage (m_pPipelineState (examplePass (twoFloatExports 1) (twoFloatUsage 1))))
             1
           = {[ 0 := [4; 4; 0; 0] ]}
        /\ countInsts isOutputLoad insts = 2%nat
        /\ countInsts isGenericExport insts = 0%nat).
Proof.
  split; vm_compute; eauto.
Qed.

(** A byte size recorded for a location that no key of the output location
    map maps to, with transform feedback enabled: the exports fail the
    assertion. *)
Lemma unmapped_location_key_witness :
  (forall pOutputValue,
     ExportGenericOutput (examplePass [] inconsistentUsage) pOutputValue 0 0
     = AssertionFailed "locIter != outLocMap.end()")
  /\ exists what, ExportOutput (examplePass [] inconsistentUsage) 0 = AssertionFailed what.
Proof.
  apply (unmapped_location_key "gs" inconsistentUsage (exampleExport 0 0 0 FloatTy)
           OutputExportGeneric "" VoidTy 32 0 32 0 (ConstantInt 32 0) (UndefValue FloatTy)
           (examplePass [] inconsistentUsage) 0 0 [4; 0; 0; 0]).
  - reflexivity.
  - reflexivity.
  - intros key loc' Hkey. vm_compute in Hkey. discriminate Hkey.
Defined.

(** C9, the claim as the spec words it, fails: the geometry shader exports
    location 5, whose key is not in the output location map; the scan
    leaves the resource usage as it was, and the copy shader is generated
    (with transform feedback enabled), no assertion failing. *)
Lemma unmapped_export_skipped :
  outputLocMap unmappedUsage
    !! GsOutLocInfo_u32All {| location := 5; isBuiltIn := false; streamId := 0 |} = None
  /\ CollectGsGenericOutputInfo (exampleModule unmappedExports) "gs" unmappedUsage
     = Ok unmappedUsage
  /\ exists res func,
       runOnModule (exampleModule unmappedExports) (exampleState unmappedUsage) = Ok res
       /\ changed res = true
       /\ copyShader res = Some func
       /\ length (fnBlocks func) = 2%nat.
Proof.
  split; [reflexivity|]. split; [reflexivity|]. vm_compute. eauto 10.
Qed.



(** A single float loaded from the ring and flagged 16-bit: the
    truncation is in no list of appended instructions. *)
Lemma exportGenericXfb_narrowing_witness :
  exists v loadInsts,
    LoadValueFromGsVsRing (examplePass halfExports halfUsage) (VectorTy FloatTy 1) 0 0
    = Ok (v, loadInsts)
    /\ let int := BitCastInst v Int32Ty in
       let half := BitCastInst (TruncInst int Int16Ty) HalfTy in
       let call :=
         CallInst OutputExportXfb ".i32.i32.i32.f16" VoidTy
           [ConstantInt 32 0; ConstantInt 32 0; ConstantInt 32 0; half] in
       exportGenericXfb halfUsage v 0 0 = Ok (half, [int; call])
       /\ countInsts isTrunc [int; call] = 0%nat
       /\ ~ half ∈ [int; call].
Proof.
  assert (exists v loadInsts,
            LoadValueFromGsVsRing (examplePass halfExports halfUsage)
              (VectorTy FloatTy 1) 0 0 = Ok (v, loadInsts)
            /\ isConstant v = false
            /\ getType v = VectorTy FloatTy 1)
    as (v & loadInsts & Hload & Hinst & Hty) by (vm_compute; eauto 10).
  exists v, loadInsts. split; [exact Hload|].
  assert (findOutLoc (outputLocMap halfUsage) 0 0 = Some (exampleKey 0, 0)) as Hfind
    by reflexivity.
  assert (xfbOutsInfo halfUsage !! fst (exampleKey 0, 0) = Some exampleXfb16bit) as Hinfo
    by reflexivity.
  destruct (exportGenericXfb_narrowing halfUsage v 0 0
              (exampleKey 0, 0) exampleXfb16bit Hfind Hinfo) as (_ & _ & Hsingle & _).
  apply Hsingle.
  - reflexivity.
  - exact Hinst.
  - by rewrite Hty.
  - rewrite Hty. vm_compute. discriminate.
Defined.

(** The copy shader generated for a geometry shader with one 16-bit float
    captured by transform feedback: a transform feedback export call
    writes a bit cast of a truncation, and no block of the function holds a
    truncation. *)
Lemma runOnModule_16bit_truncation_not_inserted :
  exists res func,
    runOnModule (exampleModule halfExports) (exampleState halfUsage) = Ok res
    /\ copyShader res = Some func
    /\ existsb (fun b => existsb isNarrowedXfbExport (bbInsts b)) (fnBlocks func) = true
    /\ forallb (fun b => Nat.eqb (countInsts isTrunc (bbInsts b)) 0) (fnBlocks func) = true.
Proof.
  eexists _, _. split; [vm_compute; reflexivity|].
  split; [vm_compute; reflexivity|]. split; vm_compute; reflexivity.
Qed.

End Examples.

End PatchCopyShaderTheorems.

(* ===================================================================== *)
(** ** The fetch shader: further properties                              *)
(* ===================================================================== *)

Module FetchShaderProperties.
Import FetchShader BuilderFacts FetchShaderTheorems.

Section Fingerprint.
Context `{Declarations}.

(** *** The cached string *)

(** Once [getString] has returned a string that is not empty, the object
    holds it in [m_shaderString] and every later call returns it as it is,
    whatever has become of the descriptions in memory: a later call reads
    neither the fetches nor the descriptions. *)
Theorem getString_cached (mem mem' : Memory) (fs fs' : FetchShader) (s : bytes) :
  getString mem fs = Some (s, fs') ->
  s <> [] ->
  m_shaderString fs' = s
  /\ m_fetches fs' = m_fetches fs
  /\ m_fetchDescriptions fs' = m_fetchDescriptions fs
  /\ m_vsEntryRegInfo fs' = m_vsEntryRegInfo fs
  /\ getString mem' fs' = Some (s, fs').
Proof.
  unfold getString. destruct (m_shaderString fs) as [|c cached] eqn:Hcache.
  - destruct (buildString mem fs) as [built|]; [|discriminate].
    intros [= <- <-] Hne. cbn. repeat split.
    destruct built; [done|reflexivity].
  - intros [= <- <-] _. by rewrite Hcache.
Qed.

(** *** Registers and descriptions in the string *)

Lemma concat_inj_lengths {A} (l1 l2 : list (list A)) :
  Forall2 (fun a b => length a = length b) l1 l2 ->
  concat l1 = concat l2 -> l1 = l2.
Proof.
  induction 1 as [|a b l1 l2 Hlen _ IH]; [done|]. cbn [concat]. intros Heq.
  apply app_inj_1 in Heq as [-> Heq]; [|done]. by rewrite IH.
Qed.

(** With the fetch list fixed, let the register information of two
    objects take as many bytes, let every description take as many bytes
    as any other, and let the same fetches be without a description in
    both.  Then the two strings are equal exactly when the bytes of the
    register information are equal and, fetch by fetch, the bytes of the
    descriptions are. *)
Theorem getString_same_fetches (ps1 ps2 : PipelineState) (fetches : list VertexFetchInfo)
    (info1 info2 : VsEntryRegInfo) :
  (forall fetch, fetch ∈ fetches -> described ps1 (location fetch) <> Dangling) ->
  (forall fetch, fetch ∈ fetches -> described ps2 (location fetch) <> Dangling) ->
  length (VsEntryRegInfo_bytes info1) = length (VsEntryRegInfo_bytes info2) ->
  (forall d d', length (VertexInputDescription_bytes d)
                = length (VertexInputDescription_bytes d')) ->
  (forall fetch, fetch ∈ fetches ->
     described ps1 (location fetch) = Null <-> described ps2 (location fetch) = Null) ->
  exists s1 s2,
    fst <$> getString (memory ps1) (new ps1 fetches info1) = Some s1
    /\ fst <$> getString (memory ps2) (new ps2 fetches info2) = Some s2
    /\ (s1 = s2 <->
        VsEntryRegInfo_bytes info1 = VsEntryRegInfo_bytes info2
        /\ forall fetch d1 d2, fetch ∈ fetches ->
             described ps1 (location fetch) = Object d1 ->
             described ps2 (location fetch) = Object d2 ->
             VertexInputDescription_bytes d1 = VertexInputDescription_bytes d2).
Proof.
  intros Hv1 Hv2 Hreg Hsize Hnull.
  eexists _, _. split; [by apply getString_new_layout|].
  split; [by apply getString_new_layout|].
  set (chunk1 := fun fetch => descriptionChunk (memory ps1)
                                (findVertexInputDescription ps1 (location fetch))).
  set (chunk2 := fun fetch => descriptionChunk (memory ps2)
                                (findVertexInputDescription ps2 (location fetch))).
  assert (forall fetch, fetch ∈ fetches -> length (chunk1 fetch) = length (chunk2 fetch))
    as Hlen.
  { intros fetch Hin. unfold chunk1, chunk2, descriptionChunk.
    specialize (Hv1 fetch Hin). specialize (Hv2 fetch Hin). specialize (Hnull fetch Hin).
    unfold described in *.
    destruct (pointee (memory ps1) _), (pointee (memory ps2) _);
      (done || by apply Hsize || by destruct Hnull as [Hn1 Hn2]; (discriminate Hn1 || discriminate Hn2)). }
  assert (forall fetch, fetch ∈ fetches ->
            (chunk1 fetch = chunk2 fetch <->
             forall d1 d2, described ps1 (location fetch) = Object d1 ->
                           described ps2 (location fetch) = Object d2 ->
                           VertexInputDescription_bytes d1 = VertexInputDescription_bytes d2))
    as Hchunk.
  { intros fetch Hin. unfold chunk1, chunk2, descriptionChunk.
    specialize (Hv1 fetch Hin). specialize (Hv2 fetch Hin). specialize (Hnull fetch Hin).
    unfold described in *.
    destruct (pointee (memory ps1) _) as [|d1|], (pointee (memory ps2) _) as [|d2|];
      try done.
    - by destruct Hnull as [Hn _]; discriminate Hn.
    - by destruct Hnull as [_ Hn]; discriminate Hn.
    - split; [by intros Heq ? ? [= <-] [= <-]|]. intros Hall. by apply Hall. }
  split.
  - intros Heq. apply app_inv_head in Heq.
    apply app_inj_1 in Heq as [HR HD]; [|done]. split; [done|].
    apply concat_inj_lengths in HD.
    + intros fetch d1 d2 Hin. apply Hchunk; [done|].
      apply list_elem_of_lookup in Hin as [j Hj].
      apply (f_equal (fun l => l !! j)) in HD. rewrite !list_lookup_fmap, Hj in HD.
      by injection HD.
    + apply Forall2_fmap, Forall_Forall2_diag, Forall_forall. intros fetch Hin.
      by apply Hlen.
  - intros [-> Hall]. do 2 f_equal. f_equal.
    apply list_eq. intros j. rewrite !list_lookup_fmap.
    destruct (fetches !! j) as [fetch|] eqn:Hj; [|done]. cbn. f_equal.
    apply Hchunk; [by eapply list_elem_of_lookup_2|].
    intros d1 d2. apply Hall. by eapply list_elem_of_lookup_2.
Qed.

End Fingerprint.

Section Generate.
Context `{Declarations}.

(** *** The function [createFetchFunc] creates *)






(** *** The code [generate] adds *)











End Generate.

(** *** The properties at the example inputs *)

Section Examples.
Local Existing Instance exampleDeclarations.

(** The string of the example is returned again after the description
    was freed. *)
Lemma getString_cached_witness :
  exists s fs',
    getString (memory (examplePipelineAt 4096))
      (new (examplePipelineAt 4096) exampleFetches exampleRegInfo) = Some (s, fs')
    /\ m_shaderString fs' = s
    /\ getString (memory freedPipeline) fs' = Some (s, fs').
Proof.
  assert (exists s fs',
            getString (memory (examplePipelineAt 4096))
              (new (examplePipelineAt 4096) exampleFetches exampleRegInfo) = Some (s, fs')
            /\ s <> []) as (s & fs' & Hrun & Hne).
  { vm_compute. eexists _, _. split; [reflexivity|discriminate]. }
  exists s, fs'. split; [exact Hrun|].
  destruct (getString_cached (memory (examplePipelineAt 4096)) (memory freedPipeline)
              _ fs' s Hrun Hne) as (Hcache & _ & _ & _ & Hagain).
  split; [exact Hcache|exact Hagain].
Defined.

(** The same description at two addresses: the same registers and the
    same description bytes, so the same string. *)
Lemma getString_same_fetches_witness :
  exists s1 s2,
    fst <$> getString (memory (examplePipelineAt 4096))
              (new (examplePipelineAt 4096) exampleFetches exampleRegInfo) = Some s1
    /\ fst <$> getString (memory (examplePipelineAt 8192))
                 (new (examplePipelineAt 8192) exampleFetches exampleRegInfo) = Some s2
    /\ (s1 = s2 <->
        VsEntryRegInfo_bytes exampleRegInfo = VsEntryRegInfo_bytes exampleRegInfo
        /\ forall fetch d1 d2, fetch ∈ exampleFetches ->
             described (examplePipelineAt 4096) (location fetch) = Object d1 ->
             described (examplePipelineAt 8192) (location fetch) = Object d2 ->
             VertexInputDescription_bytes d1 = VertexInputDescription_bytes d2).
Proof.
  apply getString_same_fetches.
  - apply exampleFetches_described.
  - apply exampleFetches_described.
  - reflexivity.
  - intros d d'. reflexivity.
  - intros fetch Hin. unfold exampleFetches in Hin.
    repeat (apply elem_of_cons in Hin as [->|Hin]); [| |by apply elem_of_nil in Hin];
      unfold described, pointee; cbn; [|done].
    by rewrite !lookup_singleton_eq.
Defined.





End Examples.
End FetchShaderProperties.

(* ===================================================================== *)
(** ** The copy shader: further properties                               *)
(* ===================================================================== *)

Module PatchCopyShaderProperties.
Import PatchCopyShader BuilderFacts PatchCopyShaderTheorems.

Section Scan.
Context `{Declarations}.

(** *** The scan as a sequence of writes *)

Lemma andThen_Ok {A B} (a : A) (f : A -> Result B) : andThen (Ok a) f = f a.
Proof. reflexivity. Qed.

Lemma collectUsers_cons gs r u l :
  collectUsers gs r (u :: l)
  = andThen (collectUser gs r u) (fun r' => collectUsers gs r' l).
Proof.
  unfold collectUsers. cbn [foldl]. rewrite andThen_Ok.
  destruct (collectUser gs r u) as [r'|what]; [reflexivity|].
  apply foldl_andThen_failed.
Qed.

Lemma collectUsers_app gs r l1 l2 :
  collectUsers gs r (l1 ++ l2)
  = andThen (collectUsers gs r l1) (fun r' => collectUsers gs r' l2).
Proof.
  revert r. induction l1 as [|u l1 IH]; intros r; [reflexivity|].
  cbn [app]. rewrite !collectUsers_cons.
  destruct (collectUser gs r u) as [r'|what]; [|reflexivity]. apply IH.
Qed.

(** The scan is one pass over [scannedUsers]. *)
Lemma CollectGsGenericOutputInfo_flat module gs r :
  CollectGsGenericOutputInfo module gs r = collectUsers gs r (scannedUsers module).
Proof.
  unfold CollectGsGenericOutputInfo, scannedUsers.
  revert r. induction (functions module) as [|func funcs IH]; intros r; [reflexivity|].
  cbn [foldl flat_map]. rewrite andThen_Ok, collectUsers_app.
  destruct (namePrefix func) as [[]|]; try apply IH.
  destruct (collectUsers gs r (users func)) as [r'|what]; [apply IH|].
  apply foldl_andThen_failed.
Qed.

(** A user that is no call, or is outside the geometry shader, changes
    nothing. *)
Lemma collectUser_skipped gs r u :
  isCall (user u) && String.eqb (userFunction u) gs = false ->
  collectUser gs r u = Ok r.
Proof.
  unfold collectUser. destruct (user u); try done. cbn. by intros ->.
Qed.

Lemma collectUsers_filter gs l : forall r,
  collectUsers gs r
    (List.filter (fun u => isCall (user u) && String.eqb (userFunction u) gs) l)
  = collectUsers gs r l.
Proof.
  induction l as [|u l IH]; intros r; [reflexivity|]. cbn [List.filter].
  destruct (isCall (user u) && String.eqb (userFunction u) gs) eqn:Hu.
  - rewrite !collectUsers_cons. destruct (collectUser gs r u); [apply IH|reflexivity].
  - rewrite collectUsers_cons, collectUser_skipped by done. apply IH.
Qed.

(** The scan looks at the module only through the calls of the generic
    export functions that are inside the geometry shader: two modules with
    the same such calls, in the same order, are scanned alike, whatever
    other functions and users they have. *)
Theorem CollectGsGenericOutputInfo_gs_calls_only (module1 module2 : Module)
    (pGsEntryPoint : string) (pResUsage : ResourceUsage) :
  gsExportCalls module1 pGsEntryPoint = gsExportCalls module2 pGsEntryPoint ->
  CollectGsGenericOutputInfo module1 pGsEntryPoint pResUsage
  = CollectGsGenericOutputInfo module2 pGsEntryPoint pResUsage.
Proof.
  intros Hcalls. rewrite !CollectGsGenericOutputInfo_flat.
  rewrite <- (collectUsers_filter pGsEntryPoint (scannedUsers module1)).
  rewrite <- (collectUsers_filter pGsEntryPoint (scannedUsers module2)).
  unfold gsExportCalls in Hcalls. by rewrite Hcalls.
Qed.

(** What one step of the scan does when it fails no assertion. *)
Lemma collectUser_write gs r r' u :
  collectUser gs r u = Ok r' ->
  r' = applyWrite r (exportWrite gs (outputLocMap r) u).
Proof.
  unfold collectUser, exportWrite.
  destruct (user u) eqn:Hu; try (by intros [= <-]).
  destruct (String.eqb (userFunction u) gs); cbn [negb]; [|destruct args as [|[] [|[] [|[] [|? [|? ?]]]]]; by intros [= <-]].
  destruct args as [|op0 [|op1 [|op2 [|pOutput [|? ?]]]]]; try discriminate.
  unfold andThen, getZExtValue.
  destruct op0; try discriminate. destruct op2; try discriminate.
  destruct (outputLocMap r !! _) as [loc|]; [|destruct op1; by intros [= <-]].
  destruct op1; try discriminate.
  destruct (u32 _ <? 4); [|discriminate]. by intros [= <-].
Qed.


(** Whether a step fails an assertion does not depend on the byte sizes
    recorded so far. *)
Lemma collectUser_Ok_transfer gs r1 r2 r1' u :
  outputLocMap r1 = outputLocMap r2 ->
  collectUser gs r1 u = Ok r1' ->
  collectUser gs r2 u = Ok (applyWrite r2 (exportWrite gs (outputLocMap r1) u)).
Proof.
  intros Hmap Hrun.
  assert (exists r2', collectUser gs r2 u = Ok r2') as [r2' Hrun2].
  { revert Hrun. unfold collectUser. rewrite Hmap.
    destruct (user u); try (by eexists).
    destruct (negb _); [by eexists|].
    destruct args as [|op0 [|op1 [|op2 [|pOutput [|? ?]]]]]; try discriminate.
    unfold andThen.
    destruct (getZExtValue op0); [|discriminate].
    destruct (getZExtValue op2); [|discriminate].
    destruct (outputLocMap r2 !! _); [|by eexists].
    destruct (getZExtValue op1); [|discriminate].
    destruct (_ <? 4); [by eexists|discriminate]. }
  rewrite Hrun2. f_equal. rewrite Hmap. by apply collectUser_write.
Qed.

Lemma applyWrite_outputLocMap r w : outputLocMap (applyWrite r w) = outputLocMap r.
Proof. by destruct w as [[[[s loc] c] b]|]. Qed.

Lemma applyWrite_sameButSizes r0 r w : sameButSizes r0 r -> sameButSizes r0 (applyWrite r w).
Proof.
  unfold sameButSizes. intros Hr. destruct w as [[[[s loc] c] b]|]; [|done].
  rewrite Hr at 1. reflexivity.
Qed.

Lemma applyWrite_cell r w s loc :
  genericOutByteSizes (applyWrite r w) s !! loc
  = cellWrite s loc (genericOutByteSizes r s !! loc) w.
Proof.
  destruct w as [[[[s' loc'] c] b]|]; [|reflexivity].
  cbn [applyWrite genericOutByteSizes setGenericOutByteSizes cellWrite]. unfold recordByteSize.
  rewrite (N.eqb_sym s' s).
  destruct (N.eqb_spec s s') as [->|Hs]; [|reflexivity]. cbn [andb].
  destruct (N.eqb_spec loc' loc) as [->|Hloc].
  - by rewrite lookup_insert_eq.
  - by rewrite lookup_insert_ne.
Qed.

(** The scan, when it fails no assertion, is the sequence of the writes
    of the scanned users; started from another resource usage with the
    same output location map it fails none either. *)
Lemma collectUsers_writes gs l : forall r r' r2,
  collectUsers gs r l = Ok r' ->
  outputLocMap r2 = outputLocMap r ->
  collectUsers gs r2 l
  = Ok (foldl applyWrite r2 (map (exportWrite gs (outputLocMap r)) l)).
Proof.
  induction l as [|u l IH]; intros r r' r2 Hrun Hmap; [reflexivity|].
  rewrite collectUsers_cons in *.
  destruct (collectUser gs r u) as [r1|] eqn:Hu; [|discriminate]. cbn [andThen] in Hrun.
  rewrite (collectUser_Ok_transfer gs r r2 r1 u) by done. cbn [andThen map foldl].
  pose proof (collectUser_write _ _ _ _ Hu) as ->.
  rewrite (IH _ _ (applyWrite r2 (exportWrite gs (outputLocMap r) u)) Hrun)
    by (by rewrite !applyWrite_outputLocMap).
  by rewrite applyWrite_outputLocMap.
Qed.

Lemma foldl_applyWrite_cell ws : forall r s loc,
  genericOutByteSizes (foldl applyWrite r ws) s !! loc
  = foldl (cellWrite s loc) (genericOutByteSizes r s !! loc) ws.
Proof.
  induction ws as [|w ws IH]; intros r s loc; [reflexivity|].
  cbn [foldl]. by rewrite IH, applyWrite_cell.
Qed.

Lemma foldl_applyWrite_sameButSizes ws : forall r0 r,
  sameButSizes r0 r -> sameButSizes r0 (foldl applyWrite r ws).
Proof.
  induction ws as [|w ws IH]; intros r0 r Hr; [done|].
  cbn [foldl]. by apply IH, applyWrite_sameButSizes.
Qed.

(** *** Writing twice *)

Lemma cellWrite_twice s loc cell w w' :
  (exists c b c' b', w = Some (s, loc, c, b) /\ w' = Some (s, loc, c', b') /\ c <> c'
                     /\ cellWrite s loc (cellWrite s loc cell w) w'
                        = cellWrite s loc (cellWrite s loc cell w') w)
  \/ cellWrite s loc (cellWrite s loc cell w) w' = cellWrite s loc cell w'
  \/ (forall cell', cellWrite s loc cell' w = cell')
  \/ (forall cell', cellWrite s loc cell' w' = cell').
Proof.
  destruct w as [[[[s1 loc1] c] b]|]; [|by right; right; left].
  destruct w' as [[[[s2 loc2] c'] b']|]; [|by right; right; right].
  cbn [cellWrite].
  destruct ((s1 =? s) && (loc1 =? loc)) eqn:H1; [|by right; right; left].
  destruct ((s2 =? s) && (loc2 =? loc)) eqn:H2; [|by right; right; right].
  apply andb_true_iff in H1 as [->%N.eqb_eq ->%N.eqb_eq].
  apply andb_true_iff in H2 as [->%N.eqb_eq ->%N.eqb_eq].
  cbn [from_option id].
  rewrite !(resize_all_alt (<[_:=_]> _)) by (by rewrite length_insert, length_resize).
  destruct (N.eq_dec c c') as [->|Hne].
  - right; left. by rewrite list_insert_insert_eq.
  - left. exists c, b, c', b'. repeat split; [done|]. f_equal.
    apply list_insert_insert_ne. lia.
Qed.

(** A write that is made again at the end need not be made before. *)
Lemma cellWrite_absorb s loc ws : forall cell w,
  cellWrite s loc (foldl (cellWrite s loc) (cellWrite s loc cell w) ws) w
  = cellWrite s loc (foldl (cellWrite s loc) cell ws) w.
Proof.
  induction ws as [|w' ws IH]; intros cell w; cbn [foldl].
  - destruct (cellWrite_twice s loc cell w w)
      as [(c & b & c' & b' & -> & [= <- <-] & Hne & _)|[Hsame|[Hid|Hid]]];
      [done|done|by rewrite Hid|by rewrite Hid].
  - destruct (cellWrite_twice s loc cell w w')
      as [(c & b & c' & b' & -> & -> & Hne & Hcomm)|[Hover|[Hid|Hid]]].
    + rewrite Hcomm. apply IH.
    + by rewrite Hover.
    + by rewrite !Hid.
    + rewrite !Hid. apply IH.
Qed.

Lemma cellWrite_idempotent s loc ws : forall cell,
  foldl (cellWrite s loc) (foldl (cellWrite s loc) cell ws) ws
  = foldl (cellWrite s loc) cell ws.
Proof.
  induction ws as [|w ws IH] using rev_ind; intros cell; [reflexivity|].
  rewrite !foldl_app. cbn [foldl]. by rewrite cellWrite_absorb, IH.
Qed.

(** Scanning a second time changes nothing: when the scan has failed no
    assertion, the scan of the same module from its result fails none
    and returns the same resource usage, with the same byte sizes at
    every stream and location. *)
Theorem CollectGsGenericOutputInfo_idempotent (module : Module) (pGsEntryPoint : string)
    (pResUsage pResUsage' : ResourceUsage) :
  CollectGsGenericOutputInfo module pGsEntryPoint pResUsage = Ok pResUsage' ->
  exists pResUsage'',
    CollectGsGenericOutputInfo module pGsEntryPoint pResUsage' = Ok pResUsage''
    /\ sameButSizes pResUsage' pResUsage''
    /\ sameSizes (genericOutByteSizes pResUsage') (genericOutByteSizes pResUsage'').
Proof.
  rewrite !CollectGsGenericOutputInfo_flat. intros Hrun.
  set (ws := map (exportWrite pGsEntryPoint (outputLocMap pResUsage))
                 (scannedUsers module)).
  pose proof (collectUsers_writes _ _ _ _ pResUsage Hrun eq_refl) as Hfirst.
  rewrite Hrun in Hfirst. injection Hfirst as Hfirst. fold ws in Hfirst.
  assert (outputLocMap pResUsage' = outputLocMap pResUsage) as Hmap.
  { rewrite Hfirst. clear. generalize pResUsage. induction ws as [|w ws IH]; intros r; [done|].
    cbn [foldl]. by rewrite IH, applyWrite_outputLocMap. }
  exists (foldl applyWrite pResUsage' ws).
  split; [by apply (collectUsers_writes _ _ pResUsage pResUsage')|].
  split; [apply foldl_applyWrite_sameButSizes, sameButSizes_refl|].
  intros s. apply map_eq. intros loc.
  rewrite foldl_applyWrite_cell. rewrite Hfirst at 1 2. rewrite foldl_applyWrite_cell.
  by rewrite cellWrite_idempotent.
Qed.

(** The scan changes the resource usage in [genericOutByteSizes] only.
    There, the entry of a location to which the output location map maps
    no key stays as it was, in every stream, and an entry that was
    changed holds four byte sizes. *)
Theorem CollectGsGenericOutputInfo_frame (module : Module) (pGsEntryPoint : string)
    (pResUsage pResUsage' : ResourceUsage) :
  CollectGsGenericOutputInfo module pGsEntryPoint pResUsage = Ok pResUsage' ->
  sameButSizes pResUsage pResUsage'
  /\ (forall s loc,
        (forall key, outputLocMap pResUsage !! key <> Some loc) ->
        genericOutByteSizes pResUsage' s !! loc = genericOutByteSizes pResUsage s !! loc)
  /\ (forall s loc,
        genericOutByteSizes pResUsage' s !! loc = genericOutByteSizes pResUsage s !! loc
        \/ exists sizes, genericOutByteSizes pResUsage' s !! loc = Some sizes
                         /\ length sizes = 4%nat).
Proof.
  rewrite CollectGsGenericOutputInfo_flat. intros Hrun.
  pose proof (collectUsers_writes _ _ _ _ pResUsage Hrun eq_refl) as Hfirst.
  rewrite Hrun in Hfirst. injection Hfirst as ->. clear Hrun.
  split; [apply foldl_applyWrite_sameButSizes, sameButSizes_refl|].
  split.
  - intros s loc Hunmapped. rewrite foldl_applyWrite_cell.
    generalize (genericOutByteSizes pResUsage s !! loc) as cell.
    induction (scannedUsers module) as [|u l IH]; intros cell; [reflexivity|].
    cbn [map foldl]. rewrite IH. unfold cellWrite, exportWrite.
    destruct (user u); try done.
    destruct args as [|[] [|[] [|[] [|? [|? ?]]]]]; try done.
    destruct (String.eqb _ _); [|done].
    destruct (outputLocMap pResUsage !! _) as [loc'|] eqn:Hkey; [|done].
    destruct (_ <? 4); [|done].
    destruct (N.eqb_spec loc' loc) as [->|]; [by apply Hunmapped in Hkey|].
    by rewrite andb_false_r.
  - intros s loc. rewrite foldl_applyWrite_cell.
    generalize (map (exportWrite pGsEntryPoint (outputLocMap pResUsage))
                    (scannedUsers module)) as ws.
    generalize (genericOutByteSizes pResUsage s !! loc) as cell.
    intros cell ws. induction ws as [|w ws IH] using rev_ind; [by left|].
    rewrite foldl_app. cbn [foldl].
    remember (foldl (cellWrite s loc) cell ws) as cell' eqn:Hcell'.
    destruct w as [[[[s' loc'] c] b]|]; [|exact IH]. cbn [cellWrite].
    destruct (_ && _); [|exact IH].
    right. eexists. split; [reflexivity|]. by rewrite length_insert, length_resize.
Qed.

End Scan.

Section Ring.
Context `{Declarations}.

(** *** Offsets into the GS-VS ring *)

Lemma u32_u32 a : u32 (u32 a) = u32 a.
Proof. unfold u32. by rewrite N.Div0.mod_mod. Qed.

Lemma u32_add_congr a a' b b' :
  u32 a = u32 a' -> u32 b = u32 b' -> u32 (a + b) = u32 (a' + b').
Proof.
  unfold u32. intros Ha Hb.
  rewrite (N.Div0.add_mod a), (N.Div0.add_mod a'). by rewrite Ha, Hb.
Qed.

Lemma u32_mul_congr a a' b b' :
  u32 a = u32 a' -> u32 b = u32 b' -> u32 (a * b) = u32 (a' * b').
Proof.
  unfold u32. intros Ha Hb.
  rewrite (N.Div0.mul_mod a), (N.Div0.mul_mod a'). by rewrite Ha, Hb.
Qed.

Ltac u32_congr :=
  repeat first
    [ reflexivity
    | rewrite !u32_u32; reflexivity
    | rewrite ?u32_u32; apply u32_add_congr
    | rewrite ?u32_u32; apply u32_mul_congr ].

(** The ring offset as a number: on chip
    [esGsLdsSize + vertexOffset + location * 4 + compIdx], off chip
    [vertexOffset * 4 + (location * 4 + compIdx) * 64 * outputVertices],
    in 32-bit arithmetic, where [vertexOffset] is argument 10 of the copy
    shader.  The routine fails no assertion, appends arithmetic only, and
    makes no use of the stream: the offset of an output is the same in
    every stream. *)
Theorem CalcGsVsRingOffsetForInput_value (pass : PatchCopyShader)
    (location' compIdx streamId' : N) (args : N -> N) :
  let state := m_pPipelineState pass in
  exists pRingOffset insts,
    CalcGsVsRingOffsetForInput pass location' compIdx streamId' = Ok (pRingOffset, insts)
    /\ evalI32 args pRingOffset
       = Some (if isGsOnChip state
               then u32 (esGsLdsSize (resUsage state) + args 10
                         + (location' * 4 + compIdx))
               else u32 (args 10 * 4
                         + (location' * 4 + compIdx) * 64 * outputVertices state))
    /\ Forall plainInst insts
    /\ forall otherStream,
         CalcGsVsRingOffsetForInput pass location' compIdx otherStream
         = Ok (pRingOffset, insts).
Proof.
  intros state. unfold CalcGsVsRingOffsetForInput. fold state.
  destruct (isGsOnChip state).
  - eexists _, _. split; [reflexivity|]. split; [|split; [by repeat constructor|done]].
    cbn [evalI32 getInt32 GetFunctionArgument isIntegerTy Int32Ty N.eqb Pos.eqb].
    f_equal. u32_congr.
  - eexists _, _. split; [reflexivity|]. split; [|split; [by repeat constructor|done]].
    cbn [evalI32 getInt32 GetFunctionArgument isIntegerTy Int32Ty N.eqb Pos.eqb].
    f_equal. u32_congr.
Qed.

Lemma CalcGsVsRingOffsetForInput_Ok pass location' compIdx streamId' :
  exists v insts,
    CalcGsVsRingOffsetForInput pass location' compIdx streamId' = Ok (v, insts).
Proof.
  unfold CalcGsVsRingOffsetForInput. destruct (isGsOnChip _); by eexists _, _.
Qed.

Lemma Calc_offchip_value pass location' compIdx streamId' args :
  isGsOnChip (m_pPipelineState pass) = false ->
  exists pRingOffset insts,
    CalcGsVsRingOffsetForInput pass location' compIdx streamId' = Ok (pRingOffset, insts)
    /\ evalI32 args pRingOffset
       = Some (u32 (args 10 * 4
                    + (location' * 4 + compIdx) * 64
                      * outputVertices (m_pPipelineState pass)))
    /\ Forall (fun i => isBufferLoad i = false) insts.
Proof.
  intros HonChip. unfold CalcGsVsRingOffsetForInput. rewrite HonChip.
  eexists _, _. split; [reflexivity|]. split; [|by repeat constructor].
  cbn [evalI32 getInt32 GetFunctionArgument isIntegerTy Int32Ty N.eqb Pos.eqb].
  f_equal. u32_congr.
Qed.

Lemma ring_slot location' k :
  u32 (u32 (location' + k / 4) * 4 + k mod 4) = u32 (location' * 4 + k).
Proof.
  replace (location' * 4 + k) with ((location' + k / 4) * 4 + k mod 4).
  - apply u32_add_congr; [|done]. apply u32_mul_congr; [apply u32_u32|done].
  - rewrite (N.div_mod k 4) at 3 by lia. lia.
Qed.

(** The loop over the elements of a vector, off chip. *)
Lemma loadRingElements_vector pass elemTy n desc location' streamId' elemCount args
    count : forall i v0,
  isGsOnChip (m_pPipelineState pass) = false ->
  exists v insts,
    loadRingElements pass (VectorTy elemTy n) elemTy desc location' streamId' elemCount
      count i v0 = Ok (v, insts)
    /\ length (List.filter isBufferLoad insts) = count
    /\ (forall k, k < i -> vectorElement v k = vectorElement v0 k)
    /\ (forall k, i <= k < i + N.of_nat count ->
          exists pRingOffset,
            vectorElement v k
            = Some (IntrinsicInst amdgcn_raw_buffer_load elemTy
                      [desc; pRingOffset; getInt32 0; getInt32 CoherentFlag_glc_slc])
            /\ evalI32 args pRingOffset
               = Some (u32 (args 10 * 4
                            + (location' * 4 + k) * 64
                              * outputVertices (m_pPipelineState pass)))
            /\ IntrinsicInst amdgcn_raw_buffer_load elemTy
                 [desc; pRingOffset; getInt32 0; getInt32 CoherentFlag_glc_slc] ∈ insts).
Proof.
  induction count as [|count IH]; intros i v0 HonChip.
  - exists v0, []. split; [reflexivity|]. split; [reflexivity|]. split; [done|].
    intros k Hk. lia.
  - destruct (Calc_offchip_value pass (u32 (location' + i / 4)) (i mod 4) streamId' args
                HonChip) as (off & offInsts & Hoff & Hval & HoffInsts).
    set (load := IntrinsicInst amdgcn_raw_buffer_load elemTy
                   [desc; off; getInt32 0; getInt32 CoherentFlag_glc_slc]).
    destruct (IH (i + 1) (InsertElementInst v0 load i) HonChip)
      as (v & insts & Hrun & Hcount & Hbelow & Hin).
    exists v, (offInsts ++ [load] ++ [InsertElementInst v0 load i] ++ insts).
    split.
    { cbn [loadRingElements isArrayTy isVectorTy]. unfold IR.bind at 1. rewrite Hoff.
      unfold insert, IR.bind. fold load. by rewrite Hrun. }
    split.
    { rewrite !List.filter_app, !length_app. cbn [List.filter isBufferLoad load length].
      rewrite Hcount.
      assert (List.filter isBufferLoad offInsts = []) as ->; [|reflexivity].
      clear -HoffInsts. induction HoffInsts as [|x l Hx _ IHl]; [done|].
      cbn. by rewrite Hx. }
    split.
    { intros k Hk. rewrite Hbelow by lia. cbn [vectorElement].
      by destruct (N.eqb_spec i k); [lia|]. }
    intros k Hk. destruct (N.eq_dec k i) as [->|Hne].
    + exists off. split; [|split].
      * rewrite Hbelow by lia. cbn [vectorElement]. by rewrite N.eqb_refl.
      * rewrite Hval. f_equal.
        apply u32_add_congr; [done|].
        apply u32_mul_congr; [|done]. apply u32_mul_congr; [|done]. apply ring_slot.
      * apply elem_of_app. right. by left.
    + destruct (Hin k ltac:(lia)) as (off' & Helem & Hval' & Hmem).
      exists off'. split; [done|]. split; [done|].
      apply elem_of_app. right. right. by right.
Qed.

(** Off chip, a vector is loaded element by element: the routine issues
    as many buffer loads as the vector has elements, and element [k] of
    the value it returns is the buffer load at the ring offset of dword
    [location * 4 + k], that is component [k mod 4] of location
    [location + k / 4]: a vector of more than four dwords goes on in the
    locations that follow. *)
Theorem LoadValueFromGsVsRing_ring_elements (pass : PatchCopyShader) (elemTy : Ty)
    (n location' streamId' : N) (desc : Value) (args : N -> N) :
  enableNgg (m_pPipelineState pass) = false ->
  isGsOnChip (m_pPipelineState pass) = false ->
  m_pGsVsRingBufDesc pass = Some desc ->
  isIntegerTy 32 elemTy || isFloatTy elemTy = true ->
  exists pLoadValue insts,
    LoadValueFromGsVsRing pass (VectorTy elemTy n) location' streamId'
    = Ok (pLoadValue, insts)
    /\ length (List.filter isBufferLoad insts) = N.to_nat n
    /\ forall k, k < n ->
         exists pRingOffset,
           vectorElement pLoadValue k
           = Some (IntrinsicInst amdgcn_raw_buffer_load elemTy
                     [desc; pRingOffset; getInt32 0; getInt32 CoherentFlag_glc_slc])
           /\ evalI32 args pRingOffset
              = Some (u32 (args 10 * 4
                           + (location' * 4 + k) * 64
                             * outputVertices (m_pPipelineState pass)))
           /\ IntrinsicInst amdgcn_raw_buffer_load elemTy
                [desc; pRingOffset; getInt32 0; getInt32 CoherentFlag_glc_slc] ∈ insts.
Proof.
  intros Hngg HonChip Hdesc Helem.
  destruct (loadRingElements_vector pass elemTy n desc location' streamId' n args
              (N.to_nat n) 0 (UndefValue (VectorTy elemTy n)) HonChip)
    as (v & insts & Hrun & Hcount & _ & Hin).
  exists v, insts. split.
  { unfold LoadValueFromGsVsRing. rewrite Helem, Hngg, HonChip, Hdesc.
    cbn [IR.assert IR.bind IR.ret]. rewrite Hrun. by rewrite app_nil_l. }
  split; [exact Hcount|]. intros k Hk. apply Hin. lia.
Qed.


(** *** When a load succeeds *)

Lemma loadRingElements_Ok pass pLoadTy pElemTy desc location' streamId' elemCount count :
  isArrayTy pLoadTy || isVectorTy pLoadTy || (elemCount =? 1) = true ->
  forall i v0,
  exists v insts,
    loadRingElements pass pLoadTy pElemTy desc location' streamId' elemCount count i v0
    = Ok (v, insts).
Proof.
  intros Hshape. induction count as [|count IH]; intros i v0; [by eexists _, _|].
  cbn [loadRingElements].
  destruct (CalcGsVsRingOffsetForInput_Ok pass (u32 (location' + i / 4)) (i mod 4) streamId')
    as (off & offInsts & ->).
  unfold IR.bind at 1. unfold insert at 1. unfold IR.bind at 1.
  destruct (isArrayTy pLoadTy).
  { unfold insert at 1. unfold IR.bind at 1.
    destruct (IH (i + 1) (InsertValueInst v0
                (IntrinsicInst amdgcn_raw_buffer_load pElemTy
                   [desc; off; getInt32 0; getInt32 CoherentFlag_glc_slc]) i))
      as (v & insts & ->). by eexists _, _. }
  destruct (isVectorTy pLoadTy).
  { unfold insert at 1. unfold IR.bind at 1.
    destruct (IH (i + 1) (InsertElementInst v0
                (IntrinsicInst amdgcn_raw_buffer_load pElemTy
                   [desc; off; getInt32 0; getInt32 CoherentFlag_glc_slc]) i))
      as (v & insts & ->). by eexists _, _. }
  cbn [orb] in Hshape. rewrite Hshape. cbn [IR.assert IR.bind IR.ret].
  destruct (IH (i + 1) (IntrinsicInst amdgcn_raw_buffer_load pElemTy
                          [desc; off; getInt32 0; getInt32 CoherentFlag_glc_slc]))
    as (v & insts & ->). by eexists _, _.
Qed.

Lemma LoadValueFromGsVsRing_Ok pass pLoadTy location' streamId' :
  isIntegerTy 32 (loadElemTy pLoadTy) || isFloatTy (loadElemTy pLoadTy) = true ->
  ringReadable pass = true ->
  exists v insts,
    LoadValueFromGsVsRing pass pLoadTy location' streamId' = Ok (v, insts)
    /\ getType v = pLoadTy.
Proof.
  intros Helem Hreadable.
  assert (exists v insts,
            LoadValueFromGsVsRing pass pLoadTy location' streamId' = Ok (v, insts))
    as (v & insts & Hrun).
  { unfold LoadValueFromGsVsRing. fold (loadElemTy pLoadTy) (loadElemCount pLoadTy).
    rewrite Helem. cbn [IR.assert IR.bind IR.ret].
    unfold ringReadable in Hreadable.
    destruct (enableNgg _); [by eexists _, _|]. cbn [orb] in Hreadable.
    destruct (isGsOnChip _).
    - destruct (m_pLds pass) as [pLds|]; [|by apply bool_decide_eq_true in Hreadable as [? ?]].
      destruct (CalcGsVsRingOffsetForInput_Ok pass location' 0 streamId')
        as (off & offInsts & ->).
      unfold IR.bind, insert, CreateBitCast. destruct (Ty_eqb _ _); by eexists _, _.
    - destruct (m_pGsVsRingBufDesc pass) as [desc|];
        [|by apply bool_decide_eq_true in Hreadable as [? ?]].
      destruct (loadRingElements_Ok pass pLoadTy (loadElemTy pLoadTy) desc location' streamId'
                  (loadElemCount pLoadTy) (N.to_nat (loadElemCount pLoadTy))
                  ltac:(by destruct pLoadTy) 0 (UndefValue pLoadTy))
        as (v & insts & ->). by eexists _, _. }
  exists v, insts. split; [exact Hrun|].
  by apply LoadValueFromGsVsRing_count in Hrun as [Hty _].
Qed.

Lemma LoadValueFromGsVsRing_Ok_inv pass pLoadTy location' streamId' v insts :
  LoadValueFromGsVsRing pass pLoadTy location' streamId' = Ok (v, insts) ->
  isIntegerTy 32 (loadElemTy pLoadTy) || isFloatTy (loadElemTy pLoadTy) = true
  /\ ringReadable pass = true.
Proof.
  unfold LoadValueFromGsVsRing. fold (loadElemTy pLoadTy) (loadElemCount pLoadTy).
  destruct (isIntegerTy 32 _ || isFloatTy _); [|discriminate].
  cbn [IR.assert IR.bind IR.ret]. unfold ringReadable.
  destruct (enableNgg _); [done|]. cbn [orb].
  destruct (isGsOnChip _).
  - destruct (m_pLds pass); [|discriminate]. intros _. split; [done|].
    by apply bool_decide_eq_true.
  - destruct (m_pGsVsRingBufDesc pass); [|discriminate]. intros _. split; [done|].
    by apply bool_decide_eq_true.
Qed.

(** [LoadValueFromGsVsRing] fails an assertion exactly when the element
    type is neither [i32] nor [float], or when, without NGG, the member it
    reads from is missing: the LDS variable on chip, the ring buffer
    descriptor off chip.  When it fails none, the value it returns has the
    type asked for. *)
Theorem LoadValueFromGsVsRing_succeeds (pass : PatchCopyShader) (pLoadTy : Ty)
    (location' streamId' : N) :
  ((exists v insts,
      LoadValueFromGsVsRing pass pLoadTy location' streamId' = Ok (v, insts))
   <-> (isIntegerTy 32 (loadElemTy pLoadTy) || isFloatTy (loadElemTy pLoadTy))
       && ringReadable pass = true)
  /\ (forall v insts,
        LoadValueFromGsVsRing pass pLoadTy location' streamId' = Ok (v, insts) ->
        getType v = pLoadTy).
Proof.
  split; [split|].
  - intros (v & insts & Hrun). apply andb_true_iff.
    by eapply LoadValueFromGsVsRing_Ok_inv.
  - intros [Helem Hreadable]%andb_true_iff.
    destruct (LoadValueFromGsVsRing_Ok pass pLoadTy location' streamId' Helem Hreadable)
      as (v & insts & Hrun & _). by exists v, insts.
  - intros v insts Hrun. destruct (LoadValueFromGsVsRing_Ok_inv _ _ _ _ _ _ Hrun).
    destruct (LoadValueFromGsVsRing_Ok pass pLoadTy location' streamId')
      as (v' & insts' & Hrun' & Hty); [done|done|]. congruence.
Qed.

End Ring.

Section Exports.
Context `{Declarations}.

(** *** What the exports of a stream may append *)

Lemma Calc_allowed pass s location' compIdx streamId' :
  satisfies (CalcGsVsRingOffsetForInput pass location' compIdx streamId')
            (fun _ => True) (allowedInst pass s).
Proof. unfold CalcGsVsRingOffsetForInput. repeat builder_step; done. Qed.

Lemma loadRingElements_allowed pass s pLoadTy pElemTy desc location' streamId' elemCount
    count : forall i v,
  enableNgg (m_pPipelineState pass) = false ->
  isGsOnChip (m_pPipelineState pass) = false ->
  satisfies (loadRingElements pass pLoadTy pElemTy desc location' streamId' elemCount
               count i v)
            (fun _ => True) (allowedInst pass s).
Proof.
  induction count as [|count IH]; intros i v Hngg HonChip; cbn [loadRingElements].
  - by apply satisfies_ret.
  - eapply satisfies_bind; [apply Calc_allowed|]. intros off _.
    eapply satisfies_bind with (Q1 := fun _ => True); [by apply satisfies_insert|].
    intros elem _.
    eapply satisfies_bind with (Q1 := fun _ => True); [repeat builder_step; done|].
    intros v' _. by apply IH.
Qed.

Lemma LoadValueFromGsVsRing_allowed pass s pLoadTy location' streamId' :
  satisfies (LoadValueFromGsVsRing pass pLoadTy location' streamId')
            (fun _ => True) (allowedInst pass s).
Proof.
  unfold LoadValueFromGsVsRing.
  eapply satisfies_bind; [apply satisfies_assert with (Q := fun _ => True); exact I|].
  intros _ _. destruct (enableNgg _) eqn:Hngg; [by apply satisfies_insert|].
  destruct (isGsOnChip _) eqn:HonChip.
  - destruct (m_pLds pass) as [pLds|]; [|done].
    eapply satisfies_bind; [apply Calc_allowed|]. intros off _.
    eapply satisfies_bind with (Q1 := fun _ => True); [by apply satisfies_insert|].
    intros ptr _.
    eapply satisfies_bind; [by apply CreateBitCast_satisfies|].
    intros ptr' _. by apply satisfies_insert.
  - destruct (m_pGsVsRingBufDesc pass) as [desc|]; [|done].
    by apply loadRingElements_allowed.
Qed.

Lemma narrowTo16bit_allowed pass s v :
  satisfies (narrowTo16bit v) (fun _ => True) (allowedInst pass s).
Proof.
  unfold narrowTo16bit, CreateBitCast, CreateTrunc. repeat builder_step; done.
Qed.

Lemma ExportGenericOutput_allowed pass v location' s :
  satisfies (ExportGenericOutput pass v location' s) (fun _ => True) (allowedInst pass s).
Proof.
  unfold ExportGenericOutput, exportGenericXfb.
  eapply satisfies_bind with (Q1 := fun _ => True).
  - destruct (enableXfb _) eqn:Hxfb; [|by apply satisfies_ret].
    destruct (findOutLoc _ _ _); [|done].
    destruct (xfbOutsInfo _ !! _); [|by apply satisfies_ret].
    eapply satisfies_bind with (Q1 := fun _ => True).
    { destruct (is16bit _); [apply narrowTo16bit_allowed|by apply satisfies_ret]. }
    intros ? _. repeat builder_step; done.
  - intros ? _. destruct (N.eqb_spec (rasterStream (resUsage (m_pPipelineState pass))) s);
      repeat builder_step; done.
Qed.

Lemma ExportBuiltInOutput_allowed pass v builtInId s :
  satisfies (ExportBuiltInOutput pass v builtInId s) (fun _ => True) (allowedInst pass s).
Proof.
  unfold ExportBuiltInOutput.
  eapply satisfies_bind with (Q1 := fun _ => True).
  - destruct (enableXfb _) eqn:Hxfb; [|by apply satisfies_ret].
    destruct (xfbOutsInfo _ !! _); repeat builder_step; done.
  - intros ? _. destruct (N.eqb_spec (rasterStream (resUsage (m_pPipelineState pass))) s);
      repeat builder_step; done.
Qed.

Lemma ExportOutput_allowed pass s :
  satisfies (ExportOutput pass s) (fun _ => True) (allowedInst pass s).
Proof.
  unfold ExportOutput.
  eapply satisfies_bind with (Q1 := fun _ => True).
  { apply forEach_satisfies. intros entry _. unfold exportGenericEntry.
    eapply satisfies_bind; [apply satisfies_assert with (Q := fun _ => True); exact I|].
    intros _ _.
    eapply satisfies_bind; [apply satisfies_assert with (Q := fun _ => True); exact I|].
    intros _ _. eapply satisfies_bind; [apply LoadValueFromGsVsRing_allowed|].
    intros v _. apply ExportGenericOutput_allowed. }
  intros _ _. eapply satisfies_bind with (Q1 := fun _ => True).
  { apply forEach_satisfies. intros pair _. unfold exportBuiltInPair.
    destruct (builtInOutputLocMap _ !! _); [|done].
    eapply satisfies_bind; [apply LoadValueFromGsVsRing_allowed|].
    intros v _. apply ExportBuiltInOutput_allowed. }
  intros _ _. destruct (_ && _); [|by apply satisfies_ret].
  apply ExportBuiltInOutput_allowed.
Qed.

(** Whatever [ExportOutput] appends for a stream, it appends a transform
    feedback export call only when transform feedback is enabled, a
    generic or built-in export call only when the stream is the raster
    stream, an import call only under NGG, a buffer load only off chip
    without NGG, a load from LDS only on chip without NGG, and never a
    branch, a switch or a return. *)
Theorem ExportOutput_appends_allowed (pass : PatchCopyShader) (streamId' : N)
    (insts : list Value) :
  emitted (ExportOutput pass streamId') = Some insts ->
  Forall (allowedInst pass streamId') insts
  /\ (enableXfb (resUsage (m_pPipelineState pass)) = false ->
      Forall (fun i => match i with CallInst OutputExportXfb _ _ _ => False | _ => True end)
             insts)
  /\ (rasterStream (resUsage (m_pPipelineState pass)) <> streamId' ->
      Forall (fun i => match i with
                       | CallInst OutputExportGeneric _ _ _
                       | CallInst OutputExportBuiltIn _ _ _ => False
                       | _ => True
                       end) insts).
Proof.
  intros Hrun.
  assert (Forall (allowedInst pass streamId') insts) as Hall.
  { eapply satisfies_emitted with (Q := fun _ => True); [|exact Hrun].
    apply ExportOutput_allowed. }
  split; [exact Hall|]. split.
  - intros Hxfb. eapply Forall_impl; [exact Hall|]. intros i Hi.
    destruct i as [| | | | | |[] ? ? ?| | | | | | | | | | | | | | | |]; try done.
    cbn in Hi. congruence.
  - intros Hraster. eapply Forall_impl; [exact Hall|]. intros i Hi.
    destruct i as [| | | | | |[] ? ? ?| | | | | | | | | | | | | | | |]; done.
Qed.

(** *** When the exports of a stream succeed *)

Lemma forEach_Ok_iff {A} (f : A -> Builder unit) (l : list A) :
  (exists insts, forEach f l = Ok (tt, insts))
  <-> forall x, x ∈ l -> exists insts, f x = Ok (tt, insts).
Proof.
  induction l as [|x l IH]; cbn [forEach].
  - split; [|by eexists]. intros _ x Hx. by apply elem_of_nil in Hx.
  - split.
    + intros (insts & ([] & xInsts & rest & Hx & Hrest & ->)%bind_Ok_inv).
      intros y [->|Hy]%elem_of_cons; [by eexists|].
      apply IH; [by eexists|done].
    + intros Hall. destruct (Hall x ltac:(left)) as [xInsts Hx].
      destruct IH as [_ IH]. destruct IH as [rest Hrest].
      { intros y Hy. apply Hall. by right. }
      unfold IR.bind. rewrite Hx, Hrest. by eexists.
Qed.

Lemma ExportBuiltInOutput_Ok pass v builtInId s :
  exists insts, ExportBuiltInOutput pass v builtInId s = Ok (tt, insts).
Proof.
  unfold ExportBuiltInOutput, IR.bind, insert, IR.ret.
  destruct (enableXfb _); [destruct (xfbOutsInfo _ !! _)|];
    destruct (_ =? s); by eexists.
Qed.

Lemma narrowTo16bit_float_vector v n :
  getType v = VectorTy FloatTy n ->
  exists v' insts,
    narrowTo16bit v = Ok (v', insts) /\ isSingleValueType (getType v') = true.
Proof.
  intros Hty. destruct (isConstant v) eqn:Hconst.
  { destruct (narrowTo16bit_constant v Hconst) as (v' & -> & Hsingle);
      [by rewrite Hty|]. by eexists _, _. }
  destruct (N.ltb_spec 1 n) as [Hn|Hn].
  - rewrite (narrowTo16bit_vector v n Hconst Hty Hn). by eexists _, _.
  - rewrite narrowTo16bit_single_component;
      [by eexists _, _|done|by rewrite Hty|by rewrite Hty].
Qed.

Lemma ExportGenericOutput_Ok_iff pass v location' s n :
  getType v = VectorTy FloatTy n ->
  (exists insts, ExportGenericOutput pass v location' s = Ok (tt, insts))
  <-> (enableXfb (resUsage (m_pPipelineState pass)) = true ->
       is_Some (findOutLoc (outputLocMap (resUsage (m_pPipelineState pass))) location' s)).
Proof.
  intros Hty. unfold ExportGenericOutput, exportGenericXfb.
  destruct (enableXfb _).
  - destruct (findOutLoc _ _ _) as [locIter|].
    2: { split; [by intros [? ?]|]. intros Hsome. by destruct (Hsome eq_refl). }
    split; [by eauto|]. intros _.
    destruct (xfbOutsInfo _ !! _) as [packed|].
    + destruct (is16bit _).
      * destruct (narrowTo16bit_float_vector v n Hty) as (v' & insts & -> & Hsingle).
        unfold IR.bind, insert, IR.ret, IR.assert. destruct (_ =? s); [|by eexists].
        rewrite Hsingle. by eexists.
      * unfold IR.bind, insert, IR.ret, IR.assert. destruct (_ =? s); [|by eexists].
        rewrite Hty. by eexists.
    + unfold IR.bind, insert, IR.ret, IR.assert. destruct (_ =? s); [|by eexists].
      rewrite Hty. by eexists.
  - split; [done|]. intros _.
    unfold IR.bind, insert, IR.ret, IR.assert. destruct (_ =? s); [|by eexists].
    rewrite Hty. by eexists.
Qed.

Lemma dwords_positive byteSize :
  byteSize mod 4 = 0 -> (0 <? byteSize / 4) = true <-> 0 < byteSize.
Proof.
  intros Haligned. rewrite N.ltb_lt.
  pose proof (N.div_mod byteSize 4 ltac:(done)) as Hdiv. rewrite Haligned in Hdiv. lia.
Qed.

Lemma exportGenericEntry_Ok_iff pass s entry :
  (exists insts, exportGenericEntry pass s entry = Ok (tt, insts))
  <-> totalByteSize (snd entry) mod 4 = 0
      /\ 0 < totalByteSize (snd entry)
      /\ ringReadable pass = true
      /\ (enableXfb (resUsage (m_pPipelineState pass)) = true ->
          is_Some (findOutLoc (outputLocMap (resUsage (m_pPipelineState pass)))
                     (fst entry) s)).
Proof.
  unfold exportGenericEntry. split.
  - intros (insts & ([] & aInsts & rest & Hassert & Hrest & ->)%bind_Ok_inv).
    unfold IR.assert in Hassert.
    destruct (N.eqb_spec (totalByteSize (snd entry) mod 4) 0) as [Haligned|];
      [|discriminate].
    apply bind_Ok_inv in Hrest as ([] & aInsts' & rest' & Hassert' & Hrest & ->).
    unfold IR.assert in Hassert'.
    destruct (0 <? totalByteSize (snd entry) / 4) eqn:Hpositive; [|discriminate].
    apply dwords_positive in Hpositive; [|done].
    apply bind_Ok_inv in Hrest as (v & loadInsts & exportInsts & Hload & Hexport & ->).
    split; [done|]. split; [done|].
    destruct (LoadValueFromGsVsRing_Ok_inv _ _ _ _ _ _ Hload) as [_ Hreadable].
    split; [done|].
    apply LoadValueFromGsVsRing_count in Hload as [Hty _].
    apply (ExportGenericOutput_Ok_iff pass v (fst entry) s _ Hty). by eexists.
  - intros (Haligned & Hpositive & Hreadable & Hfind). rewrite Haligned.
    apply dwords_positive in Hpositive; [|done]. rewrite Hpositive.
    cbn [N.eqb IR.assert IR.bind IR.ret].
    destruct (LoadValueFromGsVsRing_Ok pass
                (VectorTy FloatTy (totalByteSize (snd entry) / 4)) (fst entry) s)
      as (v & loadInsts & Hload & Hty); [done|done|].
    rewrite Hload.
    destruct (ExportGenericOutput_Ok_iff pass v (fst entry) s _ Hty) as [_ [insts Hexport]];
      [done|].
    unfold IR.bind. rewrite Hexport. by eexists.
Qed.

Lemma builtInPairs_loadable state pair :
  pair ∈ builtInPairs state ->
  isIntegerTy 32 (loadElemTy (snd pair)) || isFloatTy (loadElemTy (snd pair)) = true.
Proof.
  unfold builtInPairs. intros Hin.
  repeat match type of Hin with
         | _ ∈ _ ++ _ => apply elem_of_app in Hin as [Hin|Hin]
         end;
    match type of Hin with
    | _ ∈ (if ?c then _ else _) => destruct c
    end;
    try (by apply elem_of_nil in Hin);
    apply list_elem_of_singleton in Hin as ->;
    first [reflexivity | by destruct (enableMultiView state)].
Qed.

Lemma exportBuiltInPair_Ok_iff pass s pair :
  pair ∈ builtInPairs (m_pPipelineState pass) ->
  (exists insts, exportBuiltInPair pass s pair = Ok (tt, insts))
  <-> is_Some (builtInOutputLocMap (resUsage (m_pPipelineState pass))
                 !! BuiltInKind_value (fst pair))
      /\ ringReadable pass = true.
Proof.
  intros Hin%builtInPairs_loadable. unfold exportBuiltInPair.
  destruct (builtInOutputLocMap _ !! _) as [loc|].
  2: { split; [by intros [? ?]|]. by intros [[? ?] _]. }
  split.
  - intros (insts & (v & loadInsts & exportInsts & Hload & _)%bind_Ok_inv).
    split; [done|]. by destruct (LoadValueFromGsVsRing_Ok_inv _ _ _ _ _ _ Hload).
  - intros [_ Hreadable].
    destruct (LoadValueFromGsVsRing_Ok pass (snd pair) loc s Hin Hreadable)
      as (v & loadInsts & Hload & _).
    destruct (ExportBuiltInOutput_Ok pass v (fst pair) s) as [exportInsts Hexport].
    unfold IR.bind. rewrite Hload, Hexport. by eexists.
Qed.

Lemma ExportOutput_Ok_parts pass s :
  (exists insts, ExportOutput pass s = Ok (tt, insts))
  <-> (exists insts,
         forEach (exportGenericEntry pass s)
           (map_to_list (genericOutByteSizes (resUsage (m_pPipelineState pass)) s))
         = Ok (tt, insts))
      /\ (exists insts,
            forEach (exportBuiltInPair pass s) (builtInPairs (m_pPipelineState pass))
            = Ok (tt, insts)).
Proof.
  unfold ExportOutput. split.
  - intros (insts & ([] & generic & rest & Hgeneric & Hrest & ->)%bind_Ok_inv).
    apply bind_Ok_inv in Hrest as ([] & builtIns & dummy & HbuiltIns & _).
    split; by eexists.
  - intros [[generic Hgeneric] [builtIns HbuiltIns]].
    unfold IR.bind at 1. rewrite Hgeneric. unfold IR.bind at 1. rewrite HbuiltIns.
    destruct (_ && _); [|by eexists].
    destruct (ExportBuiltInOutput_Ok pass dummyPosition BuiltInPosition s) as [dummy ->].
    by eexists.
Qed.

(** Let every location recorded for a stream hold four byte sizes, as the
    scan leaves them.  Then [ExportOutput] for the stream fails no
    assertion exactly when, for every location recorded for the stream,
    the byte sizes add up to a multiple of four that is not zero (a vector
    type has at least one element), the ring can be read (NGG, or the LDS
    variable on chip, or the ring buffer descriptor off chip) and, with
    transform feedback enabled, some key of the stream in the output
    location map maps to the location; and, for every built-in it exports,
    the built-in has a location in [builtInOutputLocMap] and the ring can
    be read. *)
Theorem ExportOutput_succeeds (pass : PatchCopyShader) (streamId' : N) :
  let state := m_pPipelineState pass in
  let pResUsage := resUsage state in
  (forall loc sizes,
     genericOutByteSizes pResUsage streamId' !! loc = Some sizes ->
     length sizes = 4%nat) ->
  (exists insts, ExportOutput pass streamId' = Ok (tt, insts))
  <-> (forall loc sizes,
         genericOutByteSizes pResUsage streamId' !! loc = Some sizes ->
         totalByteSize sizes mod 4 = 0
         /\ 0 < totalByteSize sizes
         /\ ringReadable pass = true
         /\ (enableXfb pResUsage = true ->
             is_Some (findOutLoc (outputLocMap pResUsage) loc streamId')))
      /\ (forall builtInId pBuiltInTy,
            (builtInId, pBuiltInTy) ∈ builtInPairs state ->
            is_Some (builtInOutputLocMap pResUsage !! BuiltInKind_value builtInId)
            /\ ringReadable pass = true).
Proof.
  intros state pResUsage _. rewrite ExportOutput_Ok_parts, !forEach_Ok_iff.
  fold state pResUsage. split.
  - intros [Hgeneric HbuiltIns]. split.
    + intros loc sizes Hsizes.
      apply (exportGenericEntry_Ok_iff pass streamId' (loc, sizes)).
      apply Hgeneric. by apply elem_of_map_to_list.
    + intros builtInId pBuiltInTy Hin.
      by apply (exportBuiltInPair_Ok_iff pass streamId' (builtInId, pBuiltInTy));
        [|apply HbuiltIns].
  - intros [Hgeneric HbuiltIns]. split.
    + intros [loc sizes] Hin%elem_of_map_to_list.
      apply exportGenericEntry_Ok_iff. by apply Hgeneric.
    + intros [builtInId pBuiltInTy] Hin.
      apply exportBuiltInPair_Ok_iff; [done|]. by eapply HbuiltIns.
Qed.


(** *** A 16-bit output in the raster stream *)

(** In the raster stream, a vector of more than one float that transform
    feedback captures as a 16-bit output reaches the rasterizer narrowed
    too.  For a value that is an instruction, as a value loaded from the
    ring is: after the casts and the transform feedback export, the
    generic export call exports the vector of halves, under the name of
    that type, not the floats that were loaded from the ring. *)
Theorem ExportGenericOutput_16bit_raster (pass : PatchCopyShader) (pOutputValue : Value)
    (location' streamId' n : N) (locIter : N * N) (packed : N) :
  let pResUsage := resUsage (m_pPipelineState pass) in
  let pXfbOutInfo := XfbOutInfo_cast packed in
  enableXfb pResUsage = true ->
  findOutLoc (outputLocMap pResUsage) location' streamId' = Some locIter ->
  xfbOutsInfo pResUsage !! fst locIter = Some packed ->
  is16bit pXfbOutInfo = true ->
  rasterStream pResUsage = streamId' ->
  isConstant pOutputValue = false ->
  getType pOutputValue = VectorTy FloatTy n ->
  1 < n ->
  let ints := BitCastInst pOutputValue (VectorTy Int32Ty n) in
  let shorts := TruncInst ints (VectorTy Int16Ty n) in
  let halves := BitCastInst shorts (VectorTy HalfTy n) in
  let xfbArgs := [getInt32 (xfbBuffer pXfbOutInfo); getInt32 (xfbOffset pXfbOutInfo);
                  getInt32 (xfbExtraOffset pXfbOutInfo); halves] in
  ExportGenericOutput pass pOutputValue location' streamId'
  = Ok (tt, [ints; shorts; halves;
             CallInst OutputExportXfb (AddTypeMangling xfbArgs "") VoidTy xfbArgs;
             CallInst OutputExportGeneric (getTypeName (VectorTy HalfTy n)) VoidTy
               [getInt32 location'; halves]]).
Proof.
  intros pResUsage pXfbOutInfo Hxfb Hfind Hinfo H16 Hraster Hinst Hty Hn.
  unfold ExportGenericOutput, exportGenericXfb. fold pResUsage.
  rewrite Hxfb, Hfind, Hinfo. fold pXfbOutInfo. rewrite H16.
  rewrite (narrowTo16bit_vector _ n Hinst Hty Hn). rewrite Hraster, N.eqb_refl.
  reflexivity.
Qed.

End Exports.

Section Pass.
Context `{Declarations}.

(** *** When the pass succeeds *)

Lemma totalByteSize_aligned sizes :
  Forall (fun b => b mod 4 = 0) sizes -> totalByteSize sizes mod 4 = 0.
Proof.
  intros Hall. unfold totalByteSize.
  assert (forall l acc, acc mod 4 = 0 ->
            foldl (fun byteSize i => u32 (byteSize + default 0 (sizes !! i))) acc l mod 4 = 0)
    as Hfold; [|by apply Hfold].
  induction l as [|i l IH]; intros acc Hacc; [done|]. cbn [foldl]. apply IH.
  rewrite u32_mod_4, N.Div0.add_mod, Hacc.
  destruct (sizes !! i) as [b|] eqn:Hb; [|done]. cbn.
  by rewrite (proj1 (Forall_lookup _ _) Hall i b Hb).
Qed.

Lemma collectUser_wellFormed gs r u :
  wellFormedExport u -> exists r', collectUser gs r u = Ok r'.
Proof.
  intros (base & suffix & retTy & b0 & value & b1 & compIdx & b2 & stream & pOutput
          & Huser & Hcomp & _).
  unfold collectUser. rewrite Huser. destruct (negb _); [by eexists|].
  cbn [andThen getZExtValue]. destruct (outputLocMap r !! _); [|by eexists].
  cbn [andThen]. destruct (N.ltb_spec (u32 compIdx) 4); [by eexists|lia].
Qed.

Lemma collectUsers_wellFormed gs l :
  (forall u, u ∈ l -> wellFormedExport u) ->
  forall r, exists r', collectUsers gs r l = Ok r'.
Proof.
  induction l as [|u l IH]; intros Hall r; [by eexists|].
  rewrite collectUsers_cons.
  destruct (collectUser_wellFormed gs r u) as [r1 ->]; [apply Hall; by left|].
  apply IH. intros u' Hu'. apply Hall. by right.
Qed.

Lemma CollectGsGenericOutputInfo_wellFormed module gs r :
  (forall u, u ∈ gsExportCalls module gs -> wellFormedExport u) ->
  exists r', CollectGsGenericOutputInfo module gs r = Ok r'.
Proof.
  intros Hall. rewrite CollectGsGenericOutputInfo_flat.
  rewrite <- collectUsers_filter. by apply collectUsers_wellFormed.
Qed.

(** A write of a well-formed export is one the exports can work with. *)
Lemma exportWrite_exportable module gs outLocMap u s loc c b :
  (forall u, u ∈ gsExportCalls module gs -> wellFormedExport u) ->
  (forall loc s, s < MaxGsStreams ->
     streamId (GsOutLocInfo_cast
                 (GsOutLocInfo_u32All
                    {| location := loc; isBuiltIn := false; streamId := s |})) = s) ->
  u ∈ scannedUsers module ->
  exportWrite gs outLocMap u = Some (s, loc, c, b) ->
  c < 4
  /\ b mod 4 = 0
  /\ 0 < b < 2 ^ 30
  /\ exists key, outLocMap !! key = Some loc /\ streamId (GsOutLocInfo_cast key) = s.
Proof.
  intros Hwf Hround Hin. unfold exportWrite.
  destruct (user u) eqn:Huser; try discriminate.
  destruct args as [|[] [|[] [|[] [|pOutput [|? ?]]]]]; try discriminate.
  destruct (String.eqb (userFunction u) gs) eqn:Hgs; [|discriminate].
  destruct (outLocMap !! _) as [loc'|] eqn:Hkey; [|discriminate].
  destruct (N.ltb_spec (u32 n0) 4) as [Hcomp|]; [|discriminate]. intros [= <- <- <- <-].
  destruct (Hwf u) as (base' & suffix' & retTy' & b0 & value & b1 & compIdx & b2 & stream
                       & pOutput' & Huser' & _ & Hstream & Haligned & Hsize).
  { unfold gsExportCalls. apply list_elem_of_In, List.filter_In.
    split; [by apply list_elem_of_In|]. by rewrite Huser, Hgs. }
  rewrite Huser in Huser'. injection Huser' as -> -> -> -> -> -> -> -> -> ->.
  split; [done|]. split; [by apply outputByteSize_aligned|]. split; [done|].
  eexists. split; [exact Hkey|]. by apply Hround.
Qed.

Lemma cellWrite_exportable outLocMap s loc cell w :
  exportable outLocMap s loc cell ->
  (forall c b, w = Some (s, loc, c, b) ->
     c < 4
     /\ b mod 4 = 0
     /\ 0 < b < 2 ^ 30
     /\ exists key, outLocMap !! key = Some loc /\ streamId (GsOutLocInfo_cast key) = s) ->
  exportable outLocMap s loc (cellWrite s loc cell w).
Proof.
  intros Hcell Hw. destruct w as [[[[s' loc'] c] b]|]; [|done]. cbn [cellWrite].
  destruct ((s' =? s) && (loc' =? loc)) eqn:Hhit; [|done].
  apply andb_true_iff in Hhit as [->%N.eqb_eq ->%N.eqb_eq].
  destruct (Hw c b eq_refl) as (Hc & Hb & [Hpositive Hbound] & Hkey).
  split; [by rewrite length_insert, length_resize|]. split; [|split; [|done]].
  - apply Forall_insert; [|done]. apply Forall_resize; [done|].
    destruct cell as [sizes|]; [by destruct Hcell as (_ & ? & _)|constructor].
  - apply Exists_exists. exists b. split; [|done].
    apply (list_elem_of_lookup_2 _ (N.to_nat c)). apply list_lookup_insert_eq.
    rewrite length_resize. lia.
Qed.

Lemma totalByteSize_positive sizes :
  length sizes = 4%nat ->
  Forall (fun b => b mod 4 = 0 /\ b < 2 ^ 30) sizes ->
  Exists (fun b => 0 < b) sizes ->
  0 < totalByteSize sizes.
Proof.
  destruct sizes as [|a [|b [|c [|d [|? ?]]]]]; try discriminate. intros _ Hall Hsome.
  assert (a < 2 ^ 30 /\ b < 2 ^ 30 /\ c < 2 ^ 30 /\ d < 2 ^ 30) as (Ha & Hb & Hc & Hd).
  { repeat match goal with
           | Hall : Forall _ (_ :: _) |- _ => apply Forall_cons in Hall as [[_ ?] Hall]
           end. done. }
  assert (0 < a + b + c + d) as Hsum.
  { repeat match goal with
           | Hsome : Exists _ (_ :: _) |- _ => apply Exists_cons in Hsome as [?|Hsome]
           end; try lia. by apply Exists_nil in Hsome. }
  change (2 ^ 30) with 1073741824 in *.
  unfold totalByteSize. cbn [seq foldl lookup list_lookup default from_option id].
  assert (u32 (0 + a) = a) as -> by (unfold u32; apply N.mod_small; lia).
  assert (u32 (a + b) = a + b) as -> by (unfold u32; apply N.mod_small; lia).
  assert (u32 (a + b + c) = a + b + c) as -> by (unfold u32; apply N.mod_small; lia).
  assert (u32 (a + b + c + d) = a + b + c + d) as -> by (unfold u32; apply N.mod_small; lia).
  done.
Qed.

(** After the scan of well-formed exports, started with nothing recorded,
    every recorded entry is one the exports can work with. *)
Lemma CollectGsGenericOutputInfo_exportable module gs r r' :
  (forall u, u ∈ gsExportCalls module gs -> wellFormedExport u) ->
  (forall loc s, s < MaxGsStreams ->
     streamId (GsOutLocInfo_cast
                 (GsOutLocInfo_u32All
                    {| location := loc; isBuiltIn := false; streamId := s |})) = s) ->
  (forall s, genericOutByteSizes r s = ∅) ->
  CollectGsGenericOutputInfo module gs r = Ok r' ->
  forall s loc, exportable (outputLocMap r) s loc (genericOutByteSizes r' s !! loc).
Proof.
  intros Hwf Hround Hempty. rewrite CollectGsGenericOutputInfo_flat. intros Hrun s loc.
  pose proof (collectUsers_writes _ _ _ _ r Hrun eq_refl) as Hfirst.
  rewrite Hrun in Hfirst. injection Hfirst as ->. clear Hrun.
  rewrite foldl_applyWrite_cell, Hempty, lookup_empty.
  assert (forall l cell,
            (forall u, u ∈ l -> u ∈ scannedUsers module) ->
            exportable (outputLocMap r) s loc cell ->
            exportable (outputLocMap r) s loc
              (foldl (cellWrite s loc) cell (map (exportWrite gs (outputLocMap r)) l)))
    as Hfold; [|by apply Hfold].
  induction l as [|u l IH]; intros cell Hsub Hcell; [done|]. cbn [map foldl].
  apply IH; [intros u' Hu'; apply Hsub; by right|].
  apply cellWrite_exportable; [done|]. intros c b Hwrite.
  eapply exportWrite_exportable; [done|done|apply Hsub; by left|done].
Qed.

Lemma LoadGsVsRingBufferDescriptor_Ok :
  exists desc insts,
    LoadGsVsRingBufferDescriptor = Ok (desc, insts)
    /\ Forall (fun i => isTerminator i = false) insts.
Proof.
  unfold LoadGsVsRingBufferDescriptor, CreateBitCast. cbn.
  eexists _, _. split; [reflexivity|]. by repeat constructor.
Qed.

Lemma prepare_Ok module gs state r' :
  CollectGsGenericOutputInfo module gs (resUsage state) = Ok r' ->
  exists pass prelude,
    prepare module gs state = Ok (pass, prelude)
    /\ resUsage (m_pPipelineState pass) = r'
    /\ ringReadable pass = true
    /\ enableMultiView (m_pPipelineState pass) = enableMultiView state
    /\ Forall (fun i => isTerminator i = false) prelude.
Proof.
  intros Hscan. unfold prepare. rewrite Hscan. cbn [andThen].
  destruct LoadGsVsRingBufferDescriptor_Ok as (desc & insts & Hdesc & Hinsts).
  rewrite Hdesc. unfold ringReadable.
  destruct (gfxIpMajor _ <=? 8); cbn; destruct (isGsOnChip state) eqn:HonChip;
    eexists _, _; (split; [reflexivity|]); cbn; rewrite ?HonChip;
    repeat split; try done; try (by rewrite orb_true_r);
    try (rewrite bool_decide_eq_true_2 by (by eexists); by rewrite orb_true_r).
Qed.

Lemma addStreamBlocks_Ok pass l :
  (forall s, exists insts, ExportOutput pass s = Ok (tt, insts)) ->
  forall acc, exists acc', foldl (addStreamBlock pass) (Ok acc) l = Ok acc'.
Proof.
  intros Hexport. induction l as [|s l IH]; intros [cases blocks]; [by eexists|].
  cbn [foldl]. rewrite addStreamBlock_Ok.
  destruct (0 <? outLocCount _ s); [|apply IH].
  destruct (Hexport s) as [insts ->]. cbn. apply IH.
Qed.

Lemma exportStreams_Ok pass :
  (forall s, exists insts, ExportOutput pass s = Ok (tt, insts)) ->
  exists body, exportStreams pass = Ok body.
Proof.
  intros Hexport. unfold exportStreams. destruct (_ && _).
  - destruct (addStreamBlocks_Ok pass streamIds Hexport ([], [])) as [acc' ->].
    by eexists.
  - match goal with |- context [ExportOutput pass ?s] => destruct (Hexport s) as [insts ->] end.
    by eexists.
Qed.

(** The pass fails no assertion and generates a copy shader when the
    module has a geometry shader whose generic export calls are well
    formed (constant location, component below four and stream below four,
    exported components narrower than 32 bits or whole dwords, an exported
    value of at least one byte and fewer than 2^30), the packed
    key gives back the stream it was made from, no byte size is recorded
    before the pass, and every built-in the copy shader exports has a
    location in [builtInOutputLocMap].  In particular the lookup of a scanned location
    in the output location map, which [ExportGenericOutput] asserts with
    transform feedback enabled, then never fails: the scan recorded the
    location through that map. *)
Theorem runOnModule_succeeds (module : Module) (gs : string) (state : PipelineState) :
  gsEntryPoint module = Some gs ->
  (forall u, u ∈ gsExportCalls module gs -> wellFormedExport u) ->
  (forall loc s, s < MaxGsStreams ->
     streamId (GsOutLocInfo_cast
                 (GsOutLocInfo_u32All
                    {| location := loc; isBuiltIn := false; streamId := s |})) = s) ->
  (forall s, genericOutByteSizes (resUsage state) s = ∅) ->
  (forall builtInId pBuiltInTy,
     (builtInId, pBuiltInTy) ∈ builtInPairs state ->
     is_Some (builtInOutputLocMap (resUsage state) !! BuiltInKind_value builtInId)) ->
  exists res func,
    runOnModule module state = Ok res
    /\ changed res = true
    /\ copyShader res = Some func.
Proof.
  intros Hgs Hwf Hround Hempty HbuiltIns.
  destruct (CollectGsGenericOutputInfo_wellFormed module gs (resUsage state) Hwf)
    as [r' Hscan].
  pose proof (CollectGsGenericOutputInfo_exportable _ _ _ _ Hwf Hround Hempty Hscan)
    as Hexportable.
  pose proof (CollectGsGenericOutputInfo_sameButSizes _ _ _ _ Hscan) as Hsame.
  destruct (prepare_Ok module gs state r' Hscan)
    as (pass & prelude & Hprep & Hres & Hreadable & Hmulti & _).
  assert (forall s, exists insts, ExportOutput pass s = Ok (tt, insts)) as Hexport.
  { intros s. apply ExportOutput_Ok_parts. rewrite !forEach_Ok_iff. rewrite Hres. split.
    - intros [loc sizes] Hin%elem_of_map_to_list. apply exportGenericEntry_Ok_iff.
      specialize (Hexportable s loc). rewrite Hin in Hexportable.
      destruct Hexportable as (Hlength & Hsizes & Hpositive & key & Hkey & Hstream).
      cbn [fst snd].
      split; [apply totalByteSize_aligned; eapply Forall_impl; [done|by intros ? [? ?]]|].
      split; [by apply totalByteSize_positive|].
      split; [done|]. intros _. rewrite Hres.
      destruct (findOutLoc (outputLocMap r') loc s) eqn:Hfind; [done|].
      exfalso. apply (proj1 (findOutLoc_None _ _ _) Hfind key loc); [|done].
      rewrite Hsame. by destruct (resUsage state).
    - intros [builtInId pBuiltInTy] Hin. apply exportBuiltInPair_Ok_iff; [done|].
      split; [|done]. rewrite Hres.
      assert (builtInPairs (m_pPipelineState pass) = builtInPairs state) as Hpairs.
      { unfold builtInPairs. rewrite Hmulti, Hres, Hsame. by destruct (resUsage state). }
      rewrite Hpairs in Hin. apply HbuiltIns in Hin.
      rewrite Hsame. by destruct (resUsage state). }
  destruct (exportStreams_Ok pass Hexport) as [body Hbody].
  unfold runOnModule. rewrite Hgs, Hprep. cbn [andThen fst snd]. rewrite Hbody.
  cbn [andThen]. by eexists _, _.
Qed.

(** *** The control flow of the copy shader *)

Lemma allowedInst_not_terminator pass s i :
  allowedInst pass s i -> isTerminator i = false.
Proof. by destruct i. Qed.

Lemma ExportOutput_no_terminator pass s insts :
  emitted (ExportOutput pass s) = Some insts ->
  Forall (fun i => isTerminator i = false) insts.
Proof.
  intros Hrun.
  eapply satisfies_emitted with (Q := fun _ => True); [|done].
  eapply satisfies_impl; [apply ExportOutput_allowed|done|].
  intros i. apply allowedInst_not_terminator.
Qed.

Lemma prepare_no_terminator module gs state pass prelude :
  prepare module gs state = Ok (pass, prelude) ->
  Forall (fun i => isTerminator i = false) prelude.
Proof.
  intros Hprep.
  destruct (prepare_resUsage _ _ _ _ _ Hprep) as (_ & Hscan & _).
  destruct (prepare_Ok _ _ _ _ Hscan) as (pass' & prelude' & Hprep' & _ & _ & _ & Hall).
  rewrite Hprep in Hprep'. by injection Hprep' as _ ->.
Qed.

Lemma activeStreams_NoDup pResUsage : NoDup (activeStreams pResUsage).
Proof.
  unfold activeStreams.
  assert (NoDup streamIds) as Hids.
  { rewrite streamIds_eq.
    repeat (apply NoDup_cons; split;
            [rewrite ?elem_of_cons, elem_of_nil; intuition discriminate|]).
    apply NoDup_nil_2. }
  induction Hids as [|i l Hi _ IH]; cbn [List.filter]; [constructor|].
  destruct (0 <? _); [|done]. constructor; [|done].
  intros Hin%list_elem_of_In%List.filter_In. destruct Hin as [Hin%list_elem_of_In _].
  done.
Qed.

Lemma streamBlock_wellFormed pass s ids b :
  endBlockId ∈ ids -> streamBlockOf pass s b ->
  wellFormedBlock ids b /\ exists body, bbInsts b = body ++ [BranchInst endBlockId].
Proof.
  intros Hend (exportInsts & Hexport & Hinsts & _). split; [|by eexists].
  exists exportInsts, (BranchInst endBlockId).
  split; [done|]. split; [done|]. split; [by eapply ExportOutput_no_terminator|].
  by repeat constructor.
Qed.

(** The copy shader the pass generates is a well-formed control-flow graph.
    Its blocks are the entry block, the stream blocks and the ending block,
    with different block numbers; every block is a run of instructions that
    are no terminators followed by one terminator whose targets are blocks
    of the function; the ending block is [ret void]; every stream block
    ends with a branch to the ending block; and the entry block ends either
    with a branch to the ending block, with no stream block in the function,
    or with a switch whose default is the ending block, whose case values
    are pairwise different and whose case targets are the stream blocks, one
    case each. *)
Theorem runOnModule_control_flow (module : Module) (gs : string) (state : PipelineState)
    (res : PassResult) (func : Function) :
  gsEntryPoint module = Some gs ->
  runOnModule module state = Ok res ->
  copyShader res = Some func ->
  exists entry streamBlocks,
    fnBlocks func = entry :: streamBlocks ++ [endBlock]
    /\ bbId entry = entryBlockId
    /\ NoDup (map bbId (fnBlocks func))
    /\ Forall (wellFormedBlock (map bbId (fnBlocks func))) (fnBlocks func)
    /\ Forall (fun b => exists body, bbInsts b = body ++ [BranchInst endBlockId])
              streamBlocks
    /\ ((exists body,
           bbInsts entry = body ++ [BranchInst endBlockId] /\ streamBlocks = [])
        \/ (exists body cond cases,
              bbInsts entry = body ++ [SwitchInst cond endBlockId cases]
              /\ NoDup (map fst cases)
              /\ map snd cases = map bbId streamBlocks)).
Proof.
  intros Hgs Hrun Hfunc.
  destruct (runOnModule_Ok_inv _ _ _ _ Hgs Hrun)
    as (pass & prelude & entryInsts & streamBlocks & func' & Hprep & Hexport & Hfunc'
        & Hblocks).
  rewrite Hfunc in Hfunc'. injection Hfunc' as <-.
  pose proof (prepare_no_terminator _ _ _ _ _ Hprep) as Hprelude.
  pose proof (exportStreams_spec _ _ _ Hexport) as Hspec. cbn zeta in Hspec.
  eexists _, streamBlocks. split; [exact Hblocks|]. split; [done|].
  rewrite Hblocks. cbn [map bbId]. rewrite map_app. cbn [map bbId endBlock].
  set (ids := entryBlockId :: map bbId streamBlocks ++ [endBlockId]).
  assert (endBlockId ∈ ids) as Hend.
  { unfold ids. apply elem_of_cons. right. apply elem_of_app. right.
    by apply list_elem_of_singleton. }
  assert (wellFormedBlock ids endBlock) as HendBlock.
  { exists [], (ReturnInst None). by repeat constructor. }
  destruct (_ && _).
  - destruct Hspec as (-> & Hstreams & Hids).
    pose proof (Forall2_length _ _ _ Hstreams) as Hlen.
    assert (Forall (fun b => wellFormedBlock ids b
                             /\ exists body, bbInsts b = body ++ [BranchInst endBlockId])
                   streamBlocks) as Hall.
    { clear -Hstreams Hend. clearbody ids.
      induction Hstreams as [|s b active blocks Hb _ IH]; [constructor|].
      constructor; [by eapply streamBlock_wellFormed|done]. }
    apply Forall_and in Hall as [Hwf Hbranch].
    split.
    { subst ids. rewrite Hids. unfold entryBlockId, endBlockId.
      apply NoDup_cons. split.
      - intros [Hin%elem_of_seq|Heq%list_elem_of_singleton]%elem_of_app; [lia|done].
      - apply NoDup_app. split; [apply NoDup_seq|]. split; [|apply NoDup_singleton].
        intros x Hin%elem_of_seq ->%list_elem_of_singleton. lia. }
    split.
    { constructor; [|apply Forall_app; split; [done|by constructor]].
      exists (prelude ++ [streamIdField]), (SwitchInst streamIdField endBlockId
               (zip (activeStreams (resUsage (m_pPipelineState pass)))
                    (map bbId streamBlocks))).
      cbn [bbInsts]. split; [by rewrite <- app_assoc|]. split; [done|]. split.
      - apply Forall_app. split; [done|]. by repeat constructor.
      - cbn [successors]. constructor; [done|].
        rewrite snd_zip by (rewrite length_map; lia).
        apply Forall_forall. intros dest Hdest. subst ids.
        apply elem_of_cons. right. apply elem_of_app. by left. }
    split; [done|]. right. eexists (prelude ++ [streamIdField]), _, _.
    cbn [bbInsts]. split; [by rewrite <- app_assoc|]. split.
    + rewrite fst_zip by (rewrite length_map; lia). apply activeStreams_NoDup.
    + apply snd_zip. rewrite length_map. lia.
  - destruct Hspec as (exportInsts & Hexp & -> & ->). subst ids. cbn [map app] in *.
    split.
    { unfold entryBlockId, endBlockId.
      repeat (apply NoDup_cons; split;
              [rewrite ?elem_of_cons, elem_of_nil; intuition discriminate|]).
      apply NoDup_nil_2. }
    split.
    { constructor; [|by constructor].
      exists (prelude ++ exportInsts), (BranchInst endBlockId).
      cbn [bbInsts]. split; [by rewrite <- app_assoc|]. split; [done|]. split.
      - apply Forall_app. split; [done|]. eapply ExportOutput_no_terminator.
        unfold emitted. by rewrite Hexp.
      - by repeat constructor. }
    split; [constructor|]. left. exists (prelude ++ exportInsts).
    cbn [bbInsts]. by rewrite <- app_assoc.
Qed.

(** *** What the pass leaves in the pipeline state *)

Lemma u32_testbit n bit : N.testbit (u32 n) bit = (bit <? 32) && N.testbit n bit.
Proof.
  unfold u32. change 4294967296 with (2 ^ 32).
  destruct (N.ltb_spec bit 32).
  - by rewrite N.mod_pow2_bits_low.
  - by rewrite N.mod_pow2_bits_high.
Qed.

Lemma stage_bit_testbit stage bit : N.testbit (N.shiftl 1 stage) bit = (bit =? stage).
Proof.
  destruct (N.ltb_spec bit stage) as [Hlow|Hhigh].
  - rewrite N.shiftl_spec_low by done. symmetry. apply N.eqb_neq. lia.
  - rewrite N.shiftl_spec_high' by done.
    destruct (N.eqb_spec bit stage) as [->|Hne].
    + by rewrite N.sub_diag.
    + destruct (bit - stage) as [|p] eqn:Hsub; [lia|]. by destruct p.
Qed.

Lemma prepare_state module gs state pass prelude :
  prepare module gs state = Ok (pass, prelude) ->
  exists r',
    CollectGsGenericOutputInfo module gs (resUsage state) = Ok r'
    /\ m_pPipelineState pass
       = if gfxIpMajor state <=? 8
         then setUserDataUsage (setResUsage state r') 2 3
         else setUserDataUsage (setResUsage state r') 3 2.
Proof.
  unfold prepare. intros (r' & Hscan & Hrest)%andThen_Ok_inv. exists r'.
  split; [done|]. cbn [gfxIpMajor setResUsage] in *.
  destruct (isGsOnChip _).
  - by injection Hrest as <- _.
  - destruct LoadGsVsRingBufferDescriptor as [[desc insts]|]; [|discriminate].
    by injection Hrest as <- _.
Qed.

(** What [runOnModule] changes.  Without a geometry shader: nothing, and
    it reports the module as unchanged.  With one: it reports a change, the
    copy shader goes in front of the fragment shader, the resource usage is
    the one the scan of the exports returns, the stream-out table and the
    ES-GS LDS size get the user data indices 2 and 3 up to GFX8 and 3 and 2
    from GFX9, the stage mask gets the bit of the copy shader stage and
    keeps every other of its 32 bits, and the other members of the
    pipeline state stay as they are. *)
Theorem runOnModule_pipeline_state (module : Module) (state : PipelineState)
    (res : PassResult) :
  runOnModule module state = Ok res ->
  match gsEntryPoint module with
  | None => changed res = false /\ copyShader res = None /\ finalState res = state
  | Some gs =>
      let state' := finalState res in
      changed res = true
      /\ insertedBefore res = fsEntryPoint module
      /\ CollectGsGenericOutputInfo module gs (resUsage state) = Ok (resUsage state')
      /\ (copyShaderStreamOutTable state', copyShaderEsGsLdsSize state')
         = (if gfxIpMajor state <=? 8 then (2, 3) else (3, 2))
      /\ (forall bit,
            N.testbit (shaderStageMask state') bit
            = (bit <? 32)
              && (N.testbit (shaderStageMask state) bit || (bit =? ShaderStageCopyShader)))
      /\ gfxIpMajor state' = gfxIpMajor state
      /\ isGsOnChip state' = isGsOnChip state
      /\ enableNgg state' = enableNgg state
      /\ outputVertices state' = outputVertices state
      /\ enableMultiView state' = enableMultiView state
      /\ ldsVariable state' = ldsVariable state
  end.
Proof.
  unfold runOnModule. destruct (gsEntryPoint module) as [gs|]; [|by intros [= <-]].
  intros ([pass prelude] & Hprep & Hrest)%andThen_Ok_inv.
  apply andThen_Ok_inv in Hrest as (body & _ & Hres). injection Hres as <-.
  apply prepare_state in Hprep as (r' & Hscan & Hstate).
  cbn [fst snd changed insertedBefore finalState]. cbn zeta. rewrite Hstate.
  split; [done|]. split; [done|].
  split; [by destruct (_ <=? 8)|]. split; [by destruct (_ <=? 8)|].
  split; [|by destruct (_ <=? 8)].
  intros bit.
  assert (shaderStageMask
            (SetShaderStageMask
               (if gfxIpMajor state <=? 8
                then setUserDataUsage (setResUsage state r') 2 3
                else setUserDataUsage (setResUsage state r') 3 2)
               (u32 (N.lor (shaderStageMask
                              (if gfxIpMajor state <=? 8
                               then setUserDataUsage (setResUsage state r') 2 3
                               else setUserDataUsage (setResUsage state r') 3 2))
                           (u32 (N.shiftl 1 ShaderStageCopyShader)))))
          = u32 (N.lor (shaderStageMask state) (u32 (N.shiftl 1 ShaderStageCopyShader))))
    as -> by (by destruct (_ <=? 8)).
  rewrite u32_testbit, N.lor_spec, u32_testbit, stage_bit_testbit.
  by destruct (bit <? 32).
Qed.

End Pass.

(** *** The properties on the example inputs *)

Section Examples.

Local Existing Instance exampleDeclarations.

(** The packed key of [exampleDeclarations] gives back the stream. *)
Lemma exampleDeclarations_stream loc s :
  s < MaxGsStreams ->
  streamId (GsOutLocInfo_cast
              (GsOutLocInfo_u32All
                 {| location := loc; isBuiltIn := false; streamId := s |})) = s.
Proof.
  unfold MaxGsStreams. intros Hs. cbn.
  rewrite N.shiftl_0_l, N.lor_0_l, N.shiftr_lor, N.shiftr_shiftl_l by done.
  rewrite N.sub_diag, N.shiftl_0_r.
  rewrite (N.shiftr_eq_0 (loc mod 65536)); cycle 1.
  { assert (loc mod 65536 < 65536) as Hlow by (by apply N.mod_upper_bound).
    destruct (loc mod 65536) as [|p] eqn:Hloc; [done|].
    apply N.log2_lt_pow2; [done|]. change (2 ^ 17) with 131072. lia. }
  rewrite N.lor_0_l, N.Div0.mod_mod. by apply N.mod_small.
Qed.

(** The scan of the example module and of the module with further
    functions and users gives the same. *)
Lemma CollectGsGenericOutputInfo_gs_calls_only_witness :
  CollectGsGenericOutputInfo (exampleModule multiStreamExports) "gs" multiStreamUsage
  = CollectGsGenericOutputInfo (mixedModule multiStreamExports) "gs" multiStreamUsage.
Proof.
  apply (CollectGsGenericOutputInfo_gs_calls_only (exampleModule multiStreamExports)
           (mixedModule multiStreamExports) "gs" multiStreamUsage).
  reflexivity.
Defined.

(** The exports of 8-bit, 16-bit and 64-bit values, scanned twice. *)
Lemma CollectGsGenericOutputInfo_idempotent_witness :
  exists pResUsage' pResUsage'',
    CollectGsGenericOutputInfo (exampleModule narrowExports) "gs" narrowUsage
    = Ok pResUsage'
    /\ CollectGsGenericOutputInfo (exampleModule narrowExports) "gs" pResUsage'
       = Ok pResUsage''
    /\ sameButSizes pResUsage' pResUsage''
    /\ sameSizes (genericOutByteSizes pResUsage') (genericOutByteSizes pResUsage'').
Proof.
  assert (exists r, CollectGsGenericOutputInfo (exampleModule narrowExports) "gs" narrowUsage
                    = Ok r) as [r Hrun] by (vm_compute; eauto).
  destruct (CollectGsGenericOutputInfo_idempotent (exampleModule narrowExports) "gs"
              narrowUsage r Hrun) as (r' & Hagain & Hsame & Hsizes).
  exists r, r'. repeat split; assumption.
Defined.

(** The same scan: location 2, to which no key maps, has no entry
    afterwards, as before. *)
Lemma CollectGsGenericOutputInfo_frame_witness :
  exists pResUsage',
    CollectGsGenericOutputInfo (exampleModule narrowExports) "gs" narrowUsage
    = Ok pResUsage'
    /\ sameButSizes narrowUsage pResUsage'
    /\ forall s, genericOutByteSizes pResUsage' s !! 2 = None.
Proof.
  assert (exists r, CollectGsGenericOutputInfo (exampleModule narrowExports) "gs" narrowUsage
                    = Ok r) as [r Hrun] by (vm_compute; eauto).
  destruct (CollectGsGenericOutputInfo_frame (exampleModule narrowExports) "gs"
              narrowUsage r Hrun) as (Hsame & Hunmapped & _).
  exists r. split; [exact Hrun|]. split; [exact Hsame|]. intros s.
  rewrite Hunmapped; [reflexivity|].
  intros key. unfold narrowUsage, exampleUsage. cbn [outputLocMap].
  intros Hkey. apply lookup_insert_Some in Hkey as [[_ Hkey]|[_ Hkey]]; [discriminate|].
  apply lookup_singleton_Some in Hkey as [_ Hkey]. discriminate.
Defined.

(** Two floats at location 0, off chip: two buffer loads, at the ring
    offsets of dwords 0 and 1. *)
Lemma LoadValueFromGsVsRing_ring_elements_witness :
  let pass := examplePass (twoFloatExports 0) (twoFloatUsage 0) in
  exists desc pLoadValue insts,
    m_pGsVsRingBufDesc pass = Some desc
    /\ LoadValueFromGsVsRing pass (VectorTy FloatTy 2) 0 0 = Ok (pLoadValue, insts)
    /\ length (List.filter isBufferLoad insts) = 2%nat
    /\ exists pRingOffset,
         vectorElement pLoadValue 1
         = Some (IntrinsicInst amdgcn_raw_buffer_load FloatTy
                   [desc; pRingOffset; getInt32 0; getInt32 CoherentFlag_glc_slc])
         /\ evalI32 (fun idx => if idx =? 10 then 5 else 0) pRingOffset = Some 212.
Proof.
  intros pass.
  assert (exists desc, m_pGsVsRingBufDesc pass = Some desc) as [desc Hdesc]
    by (vm_compute; eauto).
  assert (enableNgg (m_pPipelineState pass) = false) as Hngg by reflexivity.
  assert (isGsOnChip (m_pPipelineState pass) = false) as HonChip by reflexivity.
  assert (isIntegerTy 32 FloatTy || isFloatTy FloatTy = true) as Hty by reflexivity.
  destruct (LoadValueFromGsVsRing_ring_elements pass FloatTy 2 0 0 desc
              (fun idx => if idx =? 10 then 5 else 0) Hngg HonChip Hdesc Hty)
    as (pLoadValue & insts & Hload & Hcount & Helems).
  destruct (Helems 1) as (pRingOffset & Helem & Hoffset & _); [reflexivity|].
  exists desc, pLoadValue, insts. split; [exact Hdesc|]. split; [exact Hload|].
  split; [exact Hcount|]. exists pRingOffset. split; [exact Helem|]. exact Hoffset.
Defined.

(** The exports of the raster stream for four floats recorded at
    location 0: they succeed, so the sixteen bytes, the ring buffer
    descriptor and the key of the location are there. *)
Lemma ExportOutput_succeeds_witness :
  let pass := examplePass multiStreamExports multiStreamUsage in
  let pResUsage := resUsage (m_pPipelineState pass) in
  genericOutByteSizes pResUsage 0 = {[ 0 := [16; 0; 0; 0] ]}
  /\ (exists insts, ExportOutput pass 0 = Ok (tt, insts))
  /\ totalByteSize [16; 0; 0; 0] mod 4 = 0
  /\ 0 < totalByteSize [16; 0; 0; 0]
  /\ ringReadable pass = true
  /\ is_Some (findOutLoc (outputLocMap pResUsage) 0 0).
Proof.
  intros pass pResUsage.
  assert (genericOutByteSizes pResUsage 0 = {[ 0 := [16; 0; 0; 0] ]}) as Hsizes
    by (by vm_compute).
  assert (exists insts, ExportOutput pass 0 = Ok (tt, insts)) as Hok
    by (vm_compute; eauto).
  split; [exact Hsizes|]. split; [exact Hok|].
  destruct (ExportOutput_succeeds pass 0) as [Hforward _].
  - intros loc sizes. fold pResUsage. rewrite Hsizes.
    by intros [<- <-]%lookup_singleton_Some.
  - destruct (Hforward Hok) as [Hgeneric _].
    destruct (Hgeneric 0 [16; 0; 0; 0]) as (Hmod & Hpos & Hring & Hloc).
    { fold pResUsage. rewrite Hsizes. apply lookup_singleton_eq. }
    split; [exact Hmod|]. split; [exact Hpos|]. split; [exact Hring|].
    apply Hloc. reflexivity.
Defined.

(** The exports of stream 1, which is not the raster stream, without
    transform feedback: loads only. *)
Lemma ExportOutput_appends_allowed_witness :
  let pass := examplePass (twoFloatExports 1) (twoFloatUsage 1) in
  exists insts,
    emitted (ExportOutput pass 1) = Some insts
    /\ insts <> []
    /\ Forall (fun i => match i with CallInst _ _ _ _ => False | _ => True end) insts.
Proof.
  intros pass.
  assert (exists insts, emitted (ExportOutput pass 1) = Some insts /\ insts <> [])
    as (insts & Hrun & Hsome)
    by (vm_compute; eexists; split; [reflexivity|discriminate]).
  destruct (ExportOutput_appends_allowed pass 1 insts Hrun) as (Hallowed & Hxfb & Hraster).
  exists insts. split; [exact Hrun|]. split; [exact Hsome|].
  assert (enableXfb (resUsage (m_pPipelineState pass)) = false) as Hoff by reflexivity.
  assert (rasterStream (resUsage (m_pPipelineState pass)) <> 1) as Hother by discriminate.
  assert (enableNgg (m_pPipelineState pass) = false) as Hngg by reflexivity.
  specialize (Hxfb Hoff). specialize (Hraster Hother).
  apply Forall_forall. intros i Hin.
  pose proof (proj1 (Forall_forall _ _) Hallowed i Hin) as Hi.
  pose proof (proj1 (Forall_forall _ _) Hxfb i Hin) as Hi1.
  pose proof (proj1 (Forall_forall _ _) Hraster i Hin) as Hi2.
  destruct i as [| | | | | |[] ? ? ?| | | | | | | | | | | | | | | |]; try exact I;
    try contradiction.
  cbn in Hi. rewrite Hngg in Hi. discriminate.
Defined.

(** Two halves captured as a 16-bit output, loaded from the ring, in the
    raster stream. *)
Lemma ExportGenericOutput_16bit_raster_witness :
  let pass := examplePass halfVectorExports halfUsage in
  exists floats loadInsts xfbCall,
    LoadValueFromGsVsRing pass (VectorTy FloatTy 2) 0 0 = Ok (floats, loadInsts)
    /\ let ints := BitCastInst floats (VectorTy Int32Ty 2) in
       let shorts := TruncInst ints (VectorTy Int16Ty 2) in
       let halves := BitCastInst shorts (VectorTy HalfTy 2) in
       ExportGenericOutput pass floats 0 0
       = Ok (tt, [ints; shorts; halves; xfbCall;
                  CallInst OutputExportGeneric "v2f16" VoidTy [getInt32 0; halves]]).
Proof.
  intros pass.
  assert (exists floats loadInsts,
            LoadValueFromGsVsRing pass (VectorTy FloatTy 2) 0 0 = Ok (floats, loadInsts)
            /\ isConstant floats = false
            /\ getType floats = VectorTy FloatTy 2)
    as (floats & loadInsts & Hload & Hinst & Hty) by (vm_compute; eauto 10).
  exists floats, loadInsts. eexists. split; [exact Hload|].
  apply (ExportGenericOutput_16bit_raster pass floats 0 0 2 (exampleKey 0, 0)
           exampleXfb16bit); (reflexivity || assumption).
Defined.

(** The module of the spec scenario: the pass succeeds. *)
Lemma runOnModule_succeeds_witness :
  exists res func,
    runOnModule (exampleModule multiStreamExports) (exampleState multiStreamUsage) = Ok res
    /\ changed res = true
    /\ copyShader res = Some func.
Proof.
  apply (runOnModule_succeeds (exampleModule multiStreamExports) "gs"
           (exampleState multiStreamUsage)).
  - reflexivity.
  - intros u Hin. change (u ∈ multiStreamExports) in Hin. unfold multiStreamExports in Hin.
    repeat (apply elem_of_cons in Hin as [->|Hin]); [| |by apply elem_of_nil in Hin];
      do 10 eexists; (split; [reflexivity|]); vm_compute; repeat split;
      (done || by right).
  - apply exampleDeclarations_stream.
  - reflexivity.
  - intros builtInId pBuiltInTy Hin. change (builtInPairs _) with (@nil (BuiltInKind * Ty)) in Hin.
    by apply elem_of_nil in Hin.
Defined.

(** The copy shader of the spec scenario: four blocks, the entry block
    ending with a switch. *)
Lemma runOnModule_control_flow_witness :
  exists res func entry streamBlocks,
    runOnModule (exampleModule multiStreamExports) (exampleState multiStreamUsage) = Ok res
    /\ copyShader res = Some func
    /\ fnBlocks func = entry :: streamBlocks ++ [endBlock]
    /\ NoDup (map bbId (fnBlocks func))
    /\ Forall (wellFormedBlock (map bbId (fnBlocks func))) (fnBlocks func).
Proof.
  assert (exists res func,
            runOnModule (exampleModule multiStreamExports) (exampleState multiStreamUsage)
            = Ok res
            /\ copyShader res = Some func) as (res & func & Hrun & Hfunc)
    by (vm_compute; eauto).
  destruct (runOnModule_control_flow (exampleModule multiStreamExports) "gs"
              (exampleState multiStreamUsage) res func eq_refl Hrun Hfunc)
    as (entry & streamBlocks & Hblocks & _ & Hids & Hwf & _).
  exists res, func, entry, streamBlocks. repeat split; assumption.
Defined.

(** The pipeline state after the pass on the spec scenario, a GFX9
    pipeline with an empty stage mask: bit 6 alone is set, and the stream-out
    table has user data index 3. *)
Lemma runOnModule_pipeline_state_witness :
  exists res,
    runOnModule (exampleModule multiStreamExports) (exampleState multiStreamUsage) = Ok res
    /\ changed res = true
    /\ copyShaderStreamOutTable (finalState res) = 3
    /\ forall bit, N.testbit (shaderStageMask (finalState res)) bit = (bit =? 6).
Proof.
  assert (exists res,
            runOnModule (exampleModule multiStreamExports) (exampleState multiStreamUsage)
            = Ok res) as [res Hrun] by (vm_compute; eauto).
  pose proof (runOnModule_pipeline_state (exampleModule multiStreamExports)
                (exampleState multiStreamUsage) res Hrun) as Hstate.
  cbn [gsEntryPoint exampleModule] in Hstate.
  destruct Hstate as (Hchanged & _ & _ & Hindices & Hbits & _).
  exists res. split; [exact Hrun|]. split; [exact Hchanged|].
  split; [by injection Hindices|].
  intros bit. rewrite Hbits. cbn [shaderStageMask exampleState ShaderStageCopyShader
                                  exampleDeclarations].
  rewrite N.bits_0. cbn [orb].
  destruct (N.eqb_spec bit 6) as [->|Hne]; [reflexivity|]. by rewrite andb_false_r.
Defined.

End Examples.
End PatchCopyShaderProperties.
